(** * MIHM: Bayesian moderated-interaction models, search driver and evaluation

    A shallow embedding of
    - [mihm/model/bayes_mihm.py]  (classes [BayesMIHM] and [RelaxedBayesMIHM]),
    - [hyperparameter_search.py]  (the search driver script),
    - [mihm/hyperparam/eval.py]   (function [evaluate_significance]),
    together with the properties of the specification that concern them.

    Conventions.  Tensor elements are exact rationals ([Q]): there is no
    rounding, no infinity and no NaN, except in the exposure step, which is
    also given over floating-point values ([effective_exposure]).  The two
    transcendental primitives the code calls ([F.gelu] and the square root
    inside batch normalisation) are left abstract in the class [Numerics].
    A Python exception is a value [Raise e]; random draws (dropout masks,
    probabilistic sample sites, parameter initialisers) are inputs.  A
    distribution does not validate its arguments here: a sample site always
    returns, as it does in the code for finite locations and a positive
    scale.  Writing a file and reading a checkpoint are taken to succeed. *)

From Stdlib Require Import String Ascii DecimalString DecimalNat List Bool
  Arith Lia ZArith QArith Qminmax Qround.
Import ListNotations.
Close Scope Q_scope.
Open Scope nat_scope.

Set Implicit Arguments.

(* ================================================================== *)
(** ** Python exceptions and fallible computations *)

Inductive exn :=
| AssertionError | ValueError | RuntimeError | AttributeError
| ZeroDivisionError | FileNotFoundError | KeyError | IndexError | SystemError.

Inductive result (A : Type) :=
| Ok (a : A)
| Raise (e : exn).
Arguments Ok {A} a.
Arguments Raise {A} e.

Definition rbind {A B} (c : result A) (k : A -> result B) : result B :=
  match c with
  | Ok a => k a
  | Raise e => Raise e
  end.

Definition succeeded {A} (c : result A) : bool :=
  match c with Ok _ => true | Raise _ => false end.

Declare Scope result_scope.
Delimit Scope result_scope with res.
Notation "x <- c ;; k" := (rbind c (fun x => k))
  (at level 61, c at next level, right associativity) : result_scope.
Notation "' p <- c ;; k" := (rbind c (fun p => k))
  (at level 61, p pattern, c at next level, right associativity) : result_scope.

(** [self.attr] for an attribute that [__init__] sets only on some paths. *)
Definition attr {A} (o : option A) : result A :=
  match o with Some a => Ok a | None => Raise AttributeError end.

Definition tabulate {A} (n : nat) (f : nat -> A) : list A := map f (seq 0 n).

(* ================================================================== *)
(** ** The part of torch the models use *)

Module Torch.

(** A two-dimensional tensor of shape [(nrows, ncols)], row major.  A
    one-dimensional tensor of [n] elements is kept as the [1 x n] tensor it
    broadcasts as. *)
Record tensor := mkT { ncols : nat; rows : list (list Q) }.

Definition nrows (t : tensor) : nat := length (rows t).
Definition entry (t : tensor) (i j : nat) : Q := nth j (nth i (rows t) []) 0%Q.
Definition build (N C : nat) (f : nat -> nat -> Q) : tensor :=
  mkT C (tabulate N (fun i => tabulate C (f i))).
Definition numel (t : tensor) : nat := nrows t * ncols t.

(** A tensor with a single element, e.g. [torch.tensor([[0.0]])] or a sample
    of shape [[1]]. *)
Definition scalar (q : Q) : tensor := mkT 1 [[q]].

(** [torch.unsqueeze(v, 1)] of a one-dimensional [v]. *)
Definition unsqueeze1 (v : list Q) : tensor := mkT 1 (map (fun q => [q]) v).

(** [torch.cat((a, b), 1)] *)
Definition cat1 (a b : tensor) : result tensor :=
  if nrows a =? nrows b
  then Ok (build (nrows a) (ncols a + ncols b)
             (fun i j => if j <? ncols a then entry a i j
                         else entry b i (j - ncols a)))
  else Raise RuntimeError.

(** [t[:, :k]] *)
Definition slice_cols (k : nat) (t : tensor) : tensor :=
  build (nrows t) (Nat.min k (ncols t)) (entry t).

(** Sum of [f l * g l] for [l = 0 .. n-1], accumulated left to right. *)
Definition dot (n : nat) (f g : nat -> Q) : Q :=
  fold_left (fun acc l => (acc + f l * g l)%Q) (seq 0 n) 0%Q.

(** [torch.matmul(a, b)] *)
Definition matmul (a b : tensor) : result tensor :=
  if ncols a =? nrows b
  then Ok (build (nrows a) (ncols b)
             (fun i j => dot (ncols a) (entry a i) (fun l => entry b l j)))
  else Raise RuntimeError.

(** [F.linear(x, W, b)]: [x @ W.T + b], [W] of shape [(out, in)]. *)
Definition F_linear (x W b : tensor) : result tensor :=
  if ncols x =? ncols W
  then Ok (build (nrows x) (nrows W)
             (fun i o => (dot (ncols W) (entry x i) (entry W o) + entry b 0 o)%Q))
  else Raise RuntimeError.

(** Broadcasting of one dimension, and the index read in an operand. *)
Definition bdim (a b : nat) : option nat :=
  if a =? b then Some a
  else if a =? 1 then Some b
  else if b =? 1 then Some a
  else None.
Definition bidx (dim i : nat) : nat := if dim =? 1 then 0 else i.

(** An element-wise binary operator with broadcasting. *)
Definition bcast (f : Q -> Q -> Q) (a b : tensor) : result tensor :=
  match bdim (nrows a) (nrows b), bdim (ncols a) (ncols b) with
  | Some N, Some C =>
      Ok (build N C (fun i j =>
            f (entry a (bidx (nrows a) i) (bidx (ncols a) j))
              (entry b (bidx (nrows b) i) (bidx (ncols b) j))))
  | _, _ => Raise RuntimeError
  end.

Definition add := bcast Qplus.
Definition sub := bcast Qminus.
Definition mul := bcast Qmult.
Definition maximum := bcast Qmax.

(** The primitives that are not rational functions. *)
Class Numerics := { gelu : Q -> Q; sqrt : Q -> Q }.

(** [nn.Linear]: [in_features] and [out_features] are the constructor's
    arguments, [weight] has shape [(out_features, in_features)] and [bias]
    [(out_features)]. *)
Record Linear := mkLinear {
  in_features : nat;
  out_features : nat;
  weight : tensor;
  bias : tensor }.

(** The values the random initialisers return: [init_weight l o i] and
    [init_bias l o] for the [l]-th linear module created, and the value of
    [torch.randn(1, 1)]. *)
Record initializer := {
  init_weight : nat -> nat -> nat -> Q;
  init_bias : nat -> nat -> Q;
  init_randn : Q }.

Definition Linear_init (th : initializer) (l n_in n_out : nat) : Linear :=
  mkLinear n_in n_out
    (build n_out n_in (init_weight th l))
    (build 1 n_out (fun _ => init_bias th l)).

Definition Linear_forward (l : Linear) (x : tensor) : result tensor :=
  F_linear x (weight l) (bias l).

(** [nn.Dropout(p)]; the constructor rejects [p] outside [[0, 1]]. *)
Record Dropout := mkDropout { p : Q }.

Definition Dropout_init (q : Q) : result Dropout :=
  if Qle_bool 0 q && Qle_bool q 1 then Ok (mkDropout q) else Raise ValueError.

(** In training mode the element at [(i, j)] is kept when [keep i j] and
    rescaled by [1 / (1 - p)]; in evaluation mode the input is returned. *)
Definition Dropout_forward (d : Dropout) (training : bool)
    (keep : nat -> nat -> bool) (x : tensor) : tensor :=
  if training
  then build (nrows x) (ncols x)
         (fun i j => if keep i j then (entry x i j / (1 - p d))%Q else 0%Q)
  else x.

(** [nn.BatchNorm1d(num_features, affine=False)] with its running
    statistics. *)
Record BatchNorm1d := mkBN {
  num_features : nat;
  eps : Q;
  momentum : Q;
  running_mean : list Q;
  running_var : list Q }.

Definition BatchNorm1d_init (n : nat) : BatchNorm1d :=
  mkBN n (1 # 100000) (1 # 10) (repeat 0%Q n) (repeat 1%Q n).

Definition column (t : tensor) (j : nat) : list Q :=
  tabulate (nrows t) (fun i => entry t i j).
Definition qsum (l : list Q) : Q := fold_left Qplus l 0%Q.
Definition qlen (l : list Q) : Q := inject_Z (Z.of_nat (length l)).
Definition mean (l : list Q) : Q := (qsum l / qlen l)%Q.
Definition sq_dev (l : list Q) : Q :=
  qsum (map (fun x => ((x - mean l) * (x - mean l))%Q) l).

Section WithNumerics.
Context {num : Numerics}.

Definition map_gelu (x : tensor) : tensor :=
  build (nrows x) (ncols x) (fun i j => gelu (entry x i j)).

(** The call [bn(x)] returns the normalised tensor and the module with its
    updated running statistics.  In training mode a batch of one row is
    rejected; an input without elements is returned as it is; otherwise the
    number of columns has to be [num_features]. *)
Definition BatchNorm1d_forward (bn : BatchNorm1d) (training : bool)
    (x : tensor) : result (tensor * BatchNorm1d) :=
  if training && (nrows x =? 1) then Raise ValueError
  else if numel x =? 0 then Ok (x, bn)
  else if negb (ncols x =? num_features bn) then Raise RuntimeError
  else if training then
    let mu j := mean (column x j) in
    let var j := (sq_dev (column x j) / qlen (column x j))%Q in
    let uvar j := (sq_dev (column x j) / (qlen (column x j) - 1))%Q in
    Ok (build (nrows x) (ncols x)
          (fun i j => ((entry x i j - mu j) / sqrt (var j + eps bn))%Q),
        mkBN (num_features bn) (eps bn) (momentum bn)
          (tabulate (ncols x) (fun j =>
             ((1 - momentum bn) * nth j (running_mean bn) 0 + momentum bn * mu j)%Q))
          (tabulate (ncols x) (fun j =>
             ((1 - momentum bn) * nth j (running_var bn) 0 + momentum bn * uvar j)%Q)))
  else
    Ok (build (nrows x) (ncols x)
          (fun i j => ((entry x i j - nth j (running_mean bn) 0)
                       / sqrt (nth j (running_var bn) 0 + eps bn))%Q),
        bn).

End WithNumerics.

End Torch.

(* ================================================================== *)
(** ** The part of pyro the models use *)

Module Pyro.
Import Torch.

(** The distributions of the two classes, with the shape given to [expand]
    (and turned into event dimensions by [to_event]). *)
Inductive distribution :=
| Normal (loc scale : Q) (shape : list nat)
| HalfNormal (scale : Q) (shape : list nat)
| Gamma (concentration rate : Q)
| NormalT (loc scale : tensor)
| Subsample (size : nat).

Definition shape_of (d : distribution) : nat * nat :=
  match d with
  | Normal _ _ [] | HalfNormal _ [] | Gamma _ _ | Subsample _ => (1, 1)
  | Normal _ _ [n] | HalfNormal _ [n] => (1, n)
  | Normal _ _ (r :: c :: _) | HalfNormal _ (r :: c :: _) => (r, c)
  | NormalT loc _ => (nrows loc, ncols loc)
  end.

(** A sample site as the runtime records it. *)
Record site := mkSite {
  site_name : string;
  site_fn : distribution;
  site_is_observed : bool;
  site_plates : list (string * nat) }.

(** The random choices of one call: [draw name l] is the [l]-th element of
    the value the runtime returns at the site [name], and [keep i] is the
    mask of the dropout call after layer [i]. *)
Record randomness := {
  draw : string -> nat -> Q;
  keep : nat -> nat -> nat -> bool }.

(** Computations that register sample sites: the trace grows, and an
    exception discards it. *)
Definition M (A : Type) : Type := list site -> result (A * list site).

Definition ret {A} (a : A) : M A := fun tr => Ok (a, tr).
Definition bind {A B} (c : M A) (k : A -> M B) : M B :=
  fun tr => match c tr with
            | Ok (a, tr') => k a tr'
            | Raise e => Raise e
            end.
Definition lift {A} (c : result A) : M A :=
  fun tr => match c with Ok a => Ok (a, tr) | Raise e => Raise e end.

Declare Scope pyro_scope.
Delimit Scope pyro_scope with pyro.
Notation "x <- c ;; k" := (bind c (fun x => k))
  (at level 61, c at next level, right associativity) : pyro_scope.
Notation "' p <- c ;; k" := (bind c (fun p => k))
  (at level 61, p pattern, c at next level, right associativity) : pyro_scope.

(** [pyro.sample(name, fn, obs=obs)] inside the plates [plates].  The
    arguments of [fn] are not validated. *)
Definition sample (rnd : randomness) (name : string) (fn : distribution)
    (obs : option tensor) (plates : list (string * nat)) : M tensor :=
  fun tr =>
    Ok (match obs with
        | Some v => v
        | None => build (fst (shape_of fn)) (snd (shape_of fn))
                    (fun i j => draw rnd name (i * snd (shape_of fn) + j))
        end,
        tr ++ [mkSite name fn (match obs with Some _ => true | None => false end)
                 plates]).

(** Entering [pyro.plate(name, size)]: the plate registers its own site and
    refuses the size zero. *)
Definition plate (name : string) (size : nat) : M unit :=
  fun tr =>
    if size =? 0 then Raise ZeroDivisionError
    else Ok (tt, tr ++ [mkSite name (Subsample size) false []]).

(** [PyroModule[nn.Linear]] whose weight and bias are [PyroSample]s. *)
Record PyroLinear := mkPyroLinear {
  linear_in : nat;
  linear_out : nat;
  weight_prior : distribution;
  bias_prior : distribution }.

Definition PyroLinear_forward (rnd : randomness) (name : string)
    (l : PyroLinear) (x : tensor) : M tensor :=
  (W <- sample rnd (name ++ ".weight") (weight_prior l) None [] ;;
   b <- sample rnd (name ++ ".bias") (bias_prior l) None [] ;;
   lift (F_linear x W b))%pyro.

End Pyro.

(* ================================================================== *)
(** ** The arguments of both constructors *)

Record args := mkArgs {
  a_interaction_var_size : nat;
  a_controlled_var_size : nat;
  a_hidden_layer_sizes : list nat;
  a_include_interactor_bias : bool;
  a_dropout : Q;
  a_svd : bool;
  a_svd_matrix : option Torch.tensor;
  a_k_dim : nat;
  a_device : string;
  a_concatenate_interaction_vars : bool;
  a_batch_norm : bool }.

(** The three mandatory arguments, every other one at its default. *)
Definition default_args (interaction_var_size controlled_var_size : nat)
    (hidden_layer_sizes : list nat) : args :=
  mkArgs interaction_var_size controlled_var_size hidden_layer_sizes
    true (1 # 2) false None 10 "cpu" false true.

(** The values of the local variables of [forward] when it returns, and the
    normalisation module as the call leaves it. *)
Record locals := mkLocals {
  all_linear_vars : Torch.tensor;
  controlled_term : Torch.tensor;
  reduced_input : Torch.tensor;
  predicted_index : Torch.tensor;
  interactor : Torch.tensor;
  interactor_main_term : Torch.tensor;
  predicted_interaction_term : Torch.tensor;
  predicted_epi : Torch.tensor;
  sigma : Torch.tensor;
  bn_after : option Torch.BatchNorm1d }.

(* ================================================================== *)
(** ** class BayesMIHM *)

Module BayesMIHM.
Import Torch Pyro.

Record self := mkSelf {
  concatenate_interaction_vars : bool;
  dropout : Dropout;
  device : string;
  batch_norm : bool;
  bn : option BatchNorm1d;
  svd_matrix : option tensor;
  k_dim : option nat;
  svd : bool;
  num_layers : nat;
  layers : list Linear;
  controlled_var_weights : PyroLinear;
  interaction_weight : distribution;
  interactor_main_weight : distribution;
  index_main_weight : option distribution;
  include_interactor_bias : bool;
  interactor_bias : option distribution;
  training : bool }.

(** [__init__] *)
Definition init (a : args) (th : initializer) : result self :=
  (let concatenate_interaction_vars := a_concatenate_interaction_vars a in
   let controlled_var_size :=
     if concatenate_interaction_vars
     then a_controlled_var_size a + a_interaction_var_size a
     else a_controlled_var_size a in
   dropout <- Dropout_init (a_dropout a) ;;
   let bn := if a_batch_norm a then Some (BatchNorm1d_init 1) else None in
   ' (svd_matrix, k_dim, interaction_var_size) <-
     (if a_svd a then
        match a_svd_matrix a with
        | None => Raise AssertionError
        | Some B =>
            if a_k_dim a <=? a_interaction_var_size a
            then Ok (Some B, Some (a_k_dim a), a_k_dim a)
            else Raise AssertionError
        end
      else Ok (None, None, a_interaction_var_size a)) ;;
   let layer_input_sizes := interaction_var_size :: a_hidden_layer_sizes a in
   let num_layers := length (a_hidden_layer_sizes a) in
   let layers :=
     map (fun i => Linear_init th i (nth i layer_input_sizes 0)
                     (nth (i + 1) layer_input_sizes 0))
       (seq 0 num_layers) in
   Ok {| concatenate_interaction_vars := concatenate_interaction_vars;
         dropout := dropout;
         device := a_device a;
         batch_norm := a_batch_norm a;
         bn := bn;
         svd_matrix := svd_matrix;
         k_dim := k_dim;
         svd := a_svd a;
         num_layers := num_layers;
         layers := layers;
         controlled_var_weights :=
           mkPyroLinear controlled_var_size 1
             (Normal 0 1 [1; controlled_var_size]) (Normal 0 5 [1]);
         interaction_weight := HalfNormal 1 [1];
         interactor_main_weight := Normal 0 1 [1];
         index_main_weight :=
           if concatenate_interaction_vars then None else Some (Normal 0 1 [1]);
         include_interactor_bias := a_include_interactor_bias a;
         interactor_bias :=
           if a_include_interactor_bias a then Some (HalfNormal 1 [1]) else None;
         training := true |})%res.

Section Methods.
Context {num : Numerics}.

(** The loop over [self.layers] in [forward], from the layer of index [i]. *)
Fixpoint forward_layers (s : self) (rnd : randomness) (i : nat)
    (ls : list Linear) (x : tensor) : result tensor :=
  match ls with
  | [] => Ok x
  | layer :: rest =>
      (x' <- (if (Z.of_nat i =? Z.of_nat (num_layers s) - 1)%Z
              then Linear_forward layer x
              else (h <- Linear_forward layer x ;;
                    Ok (Dropout_forward (dropout s) (training s) (keep rnd i)
                          (map_gelu h)))) ;;
       forward_layers s rnd (S i) rest x')%res
  end.

(** The body of [forward]. *)
Definition forward_locals (s : self) (rnd : randomness)
    (interaction_input_vars : tensor) (interactor_var : list Q)
    (controlled_vars : tensor) (y : option tensor) : M locals :=
  (all_linear_vars <-
     lift (if concatenate_interaction_vars s
           then cat1 controlled_vars interaction_input_vars
           else Ok controlled_vars) ;;
   controlled_term <-
     PyroLinear_forward rnd "controlled_var_weights" (controlled_var_weights s)
       all_linear_vars ;;
   reduced <-
     lift (if svd s
           then (B <- attr (svd_matrix s) ;;
                 k <- attr (k_dim s) ;;
                 matmul interaction_input_vars (slice_cols k B))%res
           else Ok interaction_input_vars) ;;
   hidden <- lift (forward_layers s rnd 0 (layers s) reduced) ;;
   ' (predicted_index, bn') <-
     lift (if batch_norm s
           then (b <- attr (bn s) ;;
                 ' (t, b') <- BatchNorm1d_forward b (training s) hidden ;;
                 Ok (t, Some b'))%res
           else Ok (hidden, bn s)) ;;
   interactor <-
     (if include_interactor_bias s
      then (prior <- lift (attr (interactor_bias s)) ;;
            bias <- sample rnd "interactor_bias" prior None [] ;;
            lift (d <- sub (unsqueeze1 interactor_var) bias ;;
                  maximum (scalar 0) d)%res)
      else ret (unsqueeze1 interactor_var)) ;;
   main_w <- sample rnd "interactor_main_weight" (interactor_main_weight s) None [] ;;
   interactor_main_term <- lift (mul main_w interactor) ;;
   inter_w <- sample rnd "interaction_weight" (interaction_weight s) None [] ;;
   predicted_interaction_term <-
     lift (t <- mul inter_w interactor ;; mul t predicted_index)%res ;;
   predicted_epi <-
     (if concatenate_interaction_vars s
      then lift (t <- add predicted_interaction_term controlled_term ;;
                 add t interactor_main_term)%res
      else (t <- lift (t <- add predicted_interaction_term controlled_term ;;
                       add t interactor_main_term)%res ;;
            prior <- lift (attr (index_main_weight s)) ;;
            index_w <- sample rnd "index_main_weight" prior None [] ;;
            lift (u <- mul predicted_index index_w ;; add t u)%res)) ;;
   sigma <- sample rnd "sigma" (Gamma (1 # 2) 1) None [] ;;
   _ <- plate "data" (nrows predicted_epi) ;;
   _ <- sample rnd "obs" (NormalT predicted_epi sigma) y
          [("data"%string, nrows predicted_epi)] ;;
   ret (mkLocals all_linear_vars controlled_term reduced predicted_index
          interactor interactor_main_term predicted_interaction_term
          predicted_epi sigma bn'))%pyro.

(** [forward] returns [predicted_epi]. *)
Definition forward (s : self) (rnd : randomness)
    (interaction_input_vars : tensor) (interactor_var : list Q)
    (controlled_vars : tensor) (y : option tensor) : M tensor :=
  (l <- forward_locals s rnd interaction_input_vars interactor_var
          controlled_vars y ;;
   ret (predicted_epi l))%pyro.

(** The loop of [get_resilience_index], from the layer of index [i]. *)
Fixpoint index_layers (s : self) (i : nat) (ls : list Linear) (x : tensor)
    : result tensor :=
  match ls with
  | [] => Ok x
  | layer :: rest =>
      (x' <- (if (Z.of_nat i =? Z.of_nat (num_layers s) - 1)%Z
              then Linear_forward layer x
              else (h <- Linear_forward layer x ;; Ok (map_gelu h))) ;;
       index_layers s (S i) rest x')%res
  end.

Definition get_resilience_index (s : self) (interaction_input_vars : tensor)
    : M tensor :=
  (reduced <-
     lift (if svd s
           then (B <- attr (svd_matrix s) ;;
                 k <- attr (k_dim s) ;;
                 matmul interaction_input_vars (slice_cols k B))%res
           else Ok interaction_input_vars) ;;
   predicted_index <- lift (index_layers s 0 (layers s) reduced) ;;
   ret predicted_index)%pyro.

End Methods.
End BayesMIHM.

(* ================================================================== *)
(** ** class RelaxedBayesMIHM *)

Module RelaxedBayesMIHM.
Import Torch Pyro.

Record self := mkSelf {
  concatenate_interaction_vars : bool;
  dropout : Dropout;
  device : string;
  batch_norm : bool;
  bn : option BatchNorm1d;
  svd_matrix : option tensor;
  k_dim : option nat;
  svd : bool;
  num_layers : nat;
  layers : list Linear;
  controlled_var_weights : Linear;
  interaction_weight : distribution;
  interactor_main_weight : distribution;
  index_main_weight : option tensor;
  include_interactor_bias : bool;
  interactor_bias : option distribution;
  training : bool }.

(** [__init__] *)
Definition init (a : args) (th : initializer) : result self :=
  (let concatenate_interaction_vars := a_concatenate_interaction_vars a in
   let controlled_var_size :=
     if concatenate_interaction_vars
     then a_controlled_var_size a + a_interaction_var_size a
     else a_controlled_var_size a in
   dropout <- Dropout_init (a_dropout a) ;;
   let bn := if a_batch_norm a then Some (BatchNorm1d_init 1) else None in
   ' (svd_matrix, k_dim, interaction_var_size) <-
     (if a_svd a then
        match a_svd_matrix a with
        | None => Raise AssertionError
        | Some B =>
            if a_k_dim a <=? a_interaction_var_size a
            then Ok (Some B, Some (a_k_dim a), a_k_dim a)
            else Raise AssertionError
        end
      else Ok (None, None, a_interaction_var_size a)) ;;
   let layer_input_sizes := interaction_var_size :: a_hidden_layer_sizes a in
   let num_layers := length (a_hidden_layer_sizes a) in
   let layers :=
     map (fun i => Linear_init th i (nth i layer_input_sizes 0)
                     (nth (i + 1) layer_input_sizes 0))
       (seq 0 num_layers) in
   Ok {| concatenate_interaction_vars := concatenate_interaction_vars;
         dropout := dropout;
         device := a_device a;
         batch_norm := a_batch_norm a;
         bn := bn;
         svd_matrix := svd_matrix;
         k_dim := k_dim;
         svd := a_svd a;
         num_layers := num_layers;
         layers := layers;
         controlled_var_weights := Linear_init th num_layers controlled_var_size 1;
         interaction_weight := HalfNormal 1 [1];
         interactor_main_weight := Normal 0 1 [1];
         index_main_weight :=
           if concatenate_interaction_vars then None
           else Some (scalar (init_randn th));
         include_interactor_bias := a_include_interactor_bias a;
         interactor_bias :=
           if a_include_interactor_bias a then Some (HalfNormal 1 [1]) else None;
         training := true |})%res.

Section Methods.
Context {num : Numerics}.

(** The loop over [self.layers] in [forward], from the layer of index [i]. *)
Fixpoint forward_layers (s : self) (rnd : randomness) (i : nat)
    (ls : list Linear) (x : tensor) : result tensor :=
  match ls with
  | [] => Ok x
  | layer :: rest =>
      (x' <- (if (Z.of_nat i =? Z.of_nat (num_layers s) - 1)%Z
              then Linear_forward layer x
              else (h <- Linear_forward layer x ;;
                    Ok (Dropout_forward (dropout s) (training s) (keep rnd i)
                          (map_gelu h)))) ;;
       forward_layers s rnd (S i) rest x')%res
  end.

(** The body of [forward]. *)
Definition forward_locals (s : self) (rnd : randomness)
    (interaction_input_vars : tensor) (interactor_var : list Q)
    (controlled_vars : tensor) (y : option tensor) : M locals :=
  (all_linear_vars <-
     lift (if concatenate_interaction_vars s
           then cat1 controlled_vars interaction_input_vars
           else Ok controlled_vars) ;;
   controlled_term <-
     lift (Linear_forward (controlled_var_weights s) all_linear_vars) ;;
   reduced <-
     lift (if svd s
           then (B <- attr (svd_matrix s) ;;
                 k <- attr (k_dim s) ;;
                 matmul interaction_input_vars (slice_cols k B))%res
           else Ok interaction_input_vars) ;;
   hidden <- lift (forward_layers s rnd 0 (layers s) reduced) ;;
   ' (predicted_index, bn') <-
     lift (if batch_norm s
           then (b <- attr (bn s) ;;
                 ' (t, b') <- BatchNorm1d_forward b (training s) hidden ;;
                 Ok (t, Some b'))%res
           else Ok (hidden, bn s)) ;;
   interactor <-
     (if include_interactor_bias s
      then (prior <- lift (attr (interactor_bias s)) ;;
            bias <- sample rnd "interactor_bias" prior None [] ;;
            lift (d <- sub (unsqueeze1 interactor_var) bias ;;
                  maximum (scalar 0) d)%res)
      else ret (unsqueeze1 interactor_var)) ;;
   main_w <- sample rnd "interactor_main_weight" (interactor_main_weight s) None [] ;;
   interactor_main_term <- lift (mul main_w interactor) ;;
   inter_w <- sample rnd "interaction_weight" (interaction_weight s) None [] ;;
   predicted_interaction_term <-
     lift (t <- mul inter_w interactor ;; mul t predicted_index)%res ;;
   predicted_epi <-
     lift (if concatenate_interaction_vars s
           then (t <- add predicted_interaction_term controlled_term ;;
                 add t interactor_main_term)%res
           else (t <- add predicted_interaction_term controlled_term ;;
                 t <- add t interactor_main_term ;;
                 index_w <- attr (index_main_weight s) ;;
                 u <- mul predicted_index index_w ;;
                 add t u)%res) ;;
   sigma <- sample rnd "sigma" (HalfNormal 1 []) None [] ;;
   _ <- plate "data" (nrows predicted_epi) ;;
   _ <- sample rnd "obs" (NormalT predicted_epi sigma) y
          [("data"%string, nrows predicted_epi)] ;;
   ret (mkLocals all_linear_vars controlled_term reduced predicted_index
          interactor interactor_main_term predicted_interaction_term
          predicted_epi sigma bn'))%pyro.

(** [forward] returns [predicted_epi]. *)
Definition forward (s : self) (rnd : randomness)
    (interaction_input_vars : tensor) (interactor_var : list Q)
    (controlled_vars : tensor) (y : option tensor) : M tensor :=
  (l <- forward_locals s rnd interaction_input_vars interactor_var
          controlled_vars y ;;
   ret (predicted_epi l))%pyro.

(** The loop of [get_resilience_index], from the layer of index [i]. *)
Fixpoint index_layers (s : self) (i : nat) (ls : list Linear) (x : tensor)
    : result tensor :=
  match ls with
  | [] => Ok x
  | layer :: rest =>
      (x' <- (if (Z.of_nat i =? Z.of_nat (num_layers s) - 1)%Z
              then Linear_forward layer x
              else (h <- Linear_forward layer x ;; Ok (map_gelu h))) ;;
       index_layers s (S i) rest x')%res
  end.

Definition get_resilience_index (s : self) (interaction_input_vars : tensor)
    : M tensor :=
  (reduced <-
     lift (if svd s
           then (B <- attr (svd_matrix s) ;;
                 k <- attr (k_dim s) ;;
                 matmul interaction_input_vars (slice_cols k B))%res
           else Ok interaction_input_vars) ;;
   predicted_index <- lift (index_layers s 0 (layers s) reduced) ;;
   ret predicted_index)%pyro.

End Methods.
End RelaxedBayesMIHM.

(* ================================================================== *)
(** ** hyperparameter_search.py *)

Module Search.

(** The search-space constructors of the tuning library the script uses. *)
Inductive domain :=
| randint (lower upper : Z)
| choice (categories : list Z)
| loguniform (lower upper : Q).

Definition config : list (string * domain) :=
  [ ("layer1"%string, randint 10 100);
    ("layer2"%string, randint 10 100);
    ("k_dims"%string, randint 5 25);
    ("batch_size"%string, choice [32; 64; 128; 256; 512]%Z);
    ("lr"%string, loguniform (1 # 100000) (1 # 10));
    ("weight_decay"%string, loguniform (1 # 100000) (1 # 10)) ].

(** The arguments of [ASHAScheduler]. *)
Record ASHAScheduler := mkASHA {
  metric : string;
  mode : string;
  max_t : nat;
  grace_period : nat;
  reduction_factor : nat }.

Definition scheduler : ASHAScheduler :=
  mkASHA "composite_metric" "min" 300 1 2.

(** The rungs of the scheduler's single bracket: the milestones
    [grace_period * reduction_factor ^ k] that do not exceed [max_t], the
    highest first. *)
Fixpoint milestones_from (fuel t rf limit : nat) (acc : list nat) : list nat :=
  match fuel with
  | 0 => acc
  | S fuel' =>
      if t <=? limit then milestones_from fuel' (t * rf) rf limit (t :: acc)
      else acc
  end.

Definition milestones (s : ASHAScheduler) : list nat :=
  milestones_from (max_t s) (grace_period s) (reduction_factor s) (max_t s) [].

(** A rung: its milestone and the rewards recorded there, by trial id. *)
Definition rung : Type := nat * list (nat * Q).

Definition fresh_rungs (s : ASHAScheduler) : list rung :=
  map (fun m => (m, [])) (milestones s).

Inductive action := CONTINUE | STOP.

Fixpoint insert_sorted (x : Q) (l : list Q) : list Q :=
  match l with
  | [] => [x]
  | y :: l' => if Qle_bool x y then x :: l else y :: insert_sorted x l'
  end.
Definition sort (l : list Q) : list Q := fold_right insert_sorted [] l.

(** The percentile [q] (between 0 and 1) of a list, by linear interpolation
    between the two closest ranks. *)
Definition percentile (l : list Q) (q : Q) : Q :=
  let v := sort l in
  let pos := (inject_Z (Z.of_nat (length v - 1)) * q)%Q in
  let lo := Z.to_nat (Qfloor pos) in
  let frac := (pos - inject_Z (Qfloor pos))%Q in
  (nth lo v 0 + (nth (lo + 1) v (nth lo v 0) - nth lo v 0) * frac)%Q.

(** The cutoff of a rung: the rewards below it lose. *)
Definition cutoff (s : ASHAScheduler) (recorded : list (nat * Q)) : option Q :=
  match recorded with
  | [] => None
  | _ => Some (percentile (map snd recorded)
                 (1 - 1 / inject_Z (Z.of_nat (reduction_factor s))))
  end.

Definition recorded_in (trial_id : nat) (recorded : list (nat * Q)) : bool :=
  existsb (fun e => fst e =? trial_id) recorded.

(** The bracket's decision for the report of [trial_id] at iteration
    [cur_iter] with reward [cur_rew]; it returns the rungs as updated. *)
Fixpoint bracket_on_result (s : ASHAScheduler) (rungs : list rung)
    (trial_id cur_iter : nat) (cur_rew : Q) : action * list rung :=
  match rungs with
  | [] => (CONTINUE, [])
  | (milestone, recorded) :: rest =>
      if (cur_iter <? milestone) || recorded_in trial_id recorded
      then let (a, rest') := bracket_on_result s rest trial_id cur_iter cur_rew in
           (a, (milestone, recorded) :: rest')
      else
        let a := match cutoff s recorded with
                 | Some c => if Qlt_le_dec cur_rew c then STOP else CONTINUE
                 | None => CONTINUE
                 end in
        (a, (milestone, (trial_id, cur_rew) :: recorded) :: rest)
  end.

(** The reward of a reported metric: the metric itself in mode [max], its
    opposite in mode [min]. *)
Definition metric_op (s : ASHAScheduler) : Q :=
  if String.eqb (mode s) "max" then 1%Q else (-1)%Q.

(** The scheduler's decision for a result dictionary. *)
Definition lookup (k : string) (d : list (string * Q)) : option Q :=
  option_map snd (find (fun e => String.eqb (fst e) k) d).

Definition on_trial_result (s : ASHAScheduler) (rungs : list rung)
    (trial_id : nat) (res : list (string * Q)) : action * list rung :=
  match lookup "training_iteration" res, lookup (metric s) res with
  | Some t, Some m =>
      if Qle_bool (inject_Z (Z.of_nat (max_t s))) t then (STOP, rungs)
      else bracket_on_result s rungs trial_id (Z.to_nat (Qfloor t))
             (metric_op s * m)%Q
  | _, _ => (CONTINUE, rungs)
  end.

(** A trial as the analysis object exposes it: its configuration, the result
    dictionaries it reported (oldest first) and its last checkpoint, a
    dictionary of parameter snapshots. *)
Record Trial := mkTrial {
  trial_id : nat;
  trial_config : list (string * Q);
  results : list (list (string * Q));
  checkpoint : option (list (string * list Q)) }.

Definition last_result (t : Trial) : list (string * Q) := last (results t) [].

(** [metric_analysis[metric]["last"]]: the value of the metric in the last
    result that reports it. *)
Definition metric_last (m : string) (t : Trial) : option Q :=
  fold_left (fun acc r => match lookup m r with Some v => Some v | None => acc end)
    (results t) None.

(** [get_best_trial(metric, "min", "last")] over the trials of a search of
    several trials (the script asks for 10): the first trial with the least
    last value of the metric, among those that reported it. *)
Definition get_best_trial_min_last (m : string) (trials : list Trial)
    : option Trial :=
  fold_left
    (fun best t =>
       match metric_last m t with
       | None => best
       | Some score =>
           match best with
           | None => Some t
           | Some b =>
               match metric_last m b with
               | Some best_score =>
                   if Qlt_le_dec score best_score then Some t else best
               | None => Some t
               end
           end
       end)
    trials None.

Definition getitem {A} (k : string) (d : list (string * A)) : result A :=
  match find (fun e => String.eqb (fst e) k) d with
  | Some e => Ok (snd e)
  | None => Raise KeyError
  end.

(** What the script leaves behind: the printed values and the file it
    saves. *)
Record outcome := mkOutcome {
  printed_config : list (string * Q);
  printed_test_MSE : Q;
  printed_interaction_pval : Q;
  printed_vif : Q * Q;
  saved_path : string;
  saved_state_dict : list Q }.

(** The script after [tune.run] has returned the trials; converting the
    checkpoint and writing the file are taken to succeed. *)
Definition main_after_run (trials : list Trial) : result outcome :=
  (best_trial <- attr (get_best_trial_min_last "composite_metric" trials) ;;
   mse <- getitem "test_MSE" (last_result best_trial) ;;
   pval <- getitem "interaction_pval" (last_result best_trial) ;;
   vif_heat <- getitem "vif_heat" (last_result best_trial) ;;
   vif_inter <- getitem "vif_inter" (last_result best_trial) ;;
   best_checkpoint_data <- attr (checkpoint best_trial) ;;
   best_model_state_dict <- getitem "mihm_state_dict" best_checkpoint_data ;;
   Ok (mkOutcome (trial_config best_trial) mse pval (vif_heat, vif_inter)
         "best_model.pt" best_model_state_dict))%res.

End Search.

(* ================================================================== *)
(** ** mihm/hyperparam/eval.py: evaluate_significance *)

Module Eval.

(** A floating-point cell of a dataframe or of an array. *)
Inductive cell := Num (q : Q) | NaN.

(** A dataframe: the length of its index and its columns in order. *)
Record DataFrame := mkDF {
  index_len : nat;
  columns : list (string * list cell) }.

Fixpoint set_column (name : string) (vals : list cell)
    (cols : list (string * list cell)) : list (string * list cell) :=
  match cols with
  | [] => [(name, vals)]
  | (n, v) :: rest =>
      if String.eqb n name then (name, vals) :: rest
      else (n, v) :: set_column name vals rest
  end.

Definition get_column (name : string) (df : DataFrame) : option (list cell) :=
  option_map snd (find (fun c => String.eqb (fst c) name) (columns df)).

(** [df[name] = vals] for an array [vals]: a frame with an empty index takes
    the length of [vals] (its other columns are filled with NaN); otherwise
    the lengths have to match.  The column is replaced where it stands, or
    appended. *)
Definition assign (df : DataFrame) (name : string) (vals : list cell)
    : result DataFrame :=
  if (index_len df =? 0) && (0 <? length vals)
  then Ok (mkDF (length vals)
             (set_column name vals
                (map (fun c => (fst c, repeat NaN (length vals))) (columns df))))
  else if length vals =? index_len df
       then Ok (mkDF (index_len df) (set_column name vals (columns df)))
       else Raise ValueError.

(** The values Stata returns in [r()]. *)
Definition stata_value : Type := list (list Q).

(** The file system and the Stata session, reached through [os], [pandas]
    and [pystata]: each operation may fail and may change them. *)
Class Externals := {
  ext : Type;
  os_listdir : ext -> string -> result (list string) * ext;
  to_stata : ext -> string -> DataFrame -> result unit * ext;
  stata_run : ext -> string -> result unit * ext;
  stata_get_return : ext -> list (string * stata_value) }.

(** The external calls a computation makes, in order. *)
Inductive event :=
| Listdir (dir : string)
| ToStata (path : string) (df : DataFrame)
| StataRun (cmd : string).

Section WithExternals.
Context {E : Externals}.

(** The objects of the program: dataframes are on a heap and passed by
    reference. *)
Record world := mkWorld {
  heap : list DataFrame;
  outside : ext;
  log : list event }.

(** Stateful computations; an exception keeps the state reached. *)
Definition W (A : Type) : Type := world -> result A * world.

Definition wret {A} (a : A) : W A := fun w => (Ok a, w).
Definition wbind {A B} (c : W A) (k : A -> W B) : W B :=
  fun w => match c w with
           | (Ok a, w') => k a w'
           | (Raise e, w') => (Raise e, w')
           end.
Definition wlift {A} (c : result A) : W A := fun w => (c, w).

Declare Scope world_scope.
Delimit Scope world_scope with world.
Notation "x <- c ;; k" := (wbind c (fun x => k))
  (at level 61, c at next level, right associativity) : world_scope.

Fixpoint update {A} (l : list A) (r : nat) (a : A) : list A :=
  match l, r with
  | [], _ => []
  | _ :: l', 0 => a :: l'
  | x :: l', S r' => x :: update l' r' a
  end.

(** [df[name] = vals] on the object the reference [df] points to. *)
Definition setitem (df : nat) (name : string) (vals : list cell) : W unit :=
  fun w =>
    match nth_error (heap w) df with
    | None => (Raise SystemError, w)
    | Some d =>
        match assign d name vals with
        | Ok d' => (Ok tt, mkWorld (update (heap w) df d') (outside w) (log w))
        | Raise e => (Raise e, w)
        end
    end.

Definition listdir (dir : string) : W (list string) :=
  fun w =>
    let (r, o) := os_listdir (outside w) dir in
    (r, mkWorld (heap w) o (log w ++ [Listdir dir])).

(** [df.to_stata(path, write_index=False)] *)
Definition DataFrame_to_stata (df : nat) (path : string) : W unit :=
  fun w =>
    match nth_error (heap w) df with
    | None => (Raise SystemError, w)
    | Some d =>
        let (r, o) := to_stata (outside w) path d in
        (r, mkWorld (heap w) o (log w ++ [ToStata path d]))
    end.

Definition run (cmd : string) : W unit :=
  fun w =>
    let (r, o) := stata_run (outside w) cmd in
    (r, mkWorld (heap w) o (log w ++ [StataRun cmd])).

Definition get_return : W (list (string * stata_value)) :=
  fun w => (Ok (stata_get_return (outside w)), w).

Definition ends_with_slash (s : string) : bool :=
  match get (String.length s - 1) s with
  | Some c => Ascii.eqb c "/"%char
  | None => false
  end.

(** [os.path.join(a, b)] for a relative [b]. *)
Definition path_join (a b : string) : string :=
  if (String.length a =? 0) || ends_with_slash a then (a ++ b)%string
  else (a ++ "/" ++ b)%string.

(** [str(n)] *)
Definition str (n : nat) : string := NilEmpty.string_of_uint (Nat.to_uint n).

Definition getitem (k : string) (d : list (string * stata_value))
    : result stata_value :=
  match find (fun e => String.eqb (fst e) k) d with
  | Some e => Ok (snd e)
  | None => Raise KeyError
  end.

(** [a[i, j]] *)
Definition index2 (a : stata_value) (i j : nat) : result Q :=
  match nth_error a i with
  | Some r => match nth_error r j with
              | Some q => Ok q
              | None => Raise IndexError
              end
  | None => Raise IndexError
  end.

Definition default_save_dir : string :=
  "/home/namj/projects/heat_air_epi/mihm/temp".

Definition regress_cmd : string :=
  "regress zPCPhenoAge_acc m_HeatIndex_7d c.m_HeatIndex_7d#c.vul_index pmono PNK_pct PBcell_pct PCD8_Plus_pct PCD4_Plus_pct PNCD8_Plus_pct age2016 i.female i.racethn eduy ihs_wealthf2016 i.smoke2016 i.drink2016 bmi2016 tractdis i.urban i.mar_cat2 i.psyche2016 i.stroke2016 i.hibpe2016 i.diabe2016 i.hearte2016 dep2016 ltactx2016 mdactx2016 vgactx2016 i.living2016 i.division adl2016".

(** The first statement of [evaluate_significance]: the path of the file. *)
Definition save_path_of (save_dir : string) (id : option string) : W string :=
  match id with
  | Some i => wret (path_join save_dir ("index_prediction_" ++ i ++ ".dta"))
  | None =>
      (names <- listdir save_dir ;;
       let num_files := length names in
       wret (path_join save_dir ("index_prediction_" ++ str num_files ++ ".dta")))%world
  end.

Definition evaluate_significance (df_orig : nat) (index_predictions : list cell)
    (save_dir : string) (id : option string)
    : W (Q * (stata_value * stata_value)) :=
  (save_path <- save_path_of save_dir id ;;
   _ <- setitem df_orig "vul_index" index_predictions ;;
   _ <- DataFrame_to_stata df_orig save_path ;;
   _ <- run ("use " ++ save_path ++ ", clear") ;;
   _ <- run regress_cmd ;;
   regression_results <- get_return ;;
   interaction_pval <-
     wlift (t <- getitem "r(table)" regression_results ;; index2 t 3 1)%res ;;
   _ <- run "vif" ;;
   vif_results <- get_return ;;
   vif_heat <- wlift (getitem "r(vif_1)" vif_results) ;;
   vif_inter <- wlift (getitem "r(vif_2)" vif_results) ;;
   wret (interaction_pval, (vif_heat, vif_inter)))%world.

End WithExternals.
End Eval.

(* ================================================================== *)
(** ** mihm/hyperparam/eval.py: draw_margins_plot *)

Module EvalPlots.
Import Eval.

(** The double-quote character, used inside a Stata command. *)
Definition dquote : string := String "034"%char EmptyString.

(** [sub in s] for two strings. *)
Fixpoint contains (sub s : string) : bool :=
  String.prefix sub s ||
  match s with
  | EmptyString => false
  | String _ s' => contains sub s'
  end.

Definition margins_cmd : string :=
  "margins, at(m_HeatIndex_7d =(10(10)110) vul_index=(-0.25(0.3)0.35) ) atmeans".

Definition margins_plt_cmd : string :=
  "marginsplot, level(83.4) xtitle(" ++ dquote ++ "Mean Heat Index Lagged 7days"
  ++ dquote ++ ") ytitle(" ++ dquote ++ "Predicted PCPhenoAge Accl" ++ dquote
  ++ ")".

(** The command that exports the graph to the file of number or id [n]. *)
Definition save_graph_cmd_of (fig_dir n : string) : string :=
  "graph export " ++ fig_dir ++ "/margins_plot_" ++ n ++ ".png, replace".

Section WithExternals.
Context {E : Externals}.

Declare Scope plots_scope.
Delimit Scope plots_scope with plots.
Notation "x <- c ;; k" := (wbind c (fun x => k))
  (at level 61, c at next level, right associativity) : plots_scope.

Definition draw_margins_plot (data_path fig_dir : string) (id : option string)
    : W unit :=
  (_ <- run ("use " ++ data_path ++ ", clear") ;;
   _ <- run margins_cmd ;;
   _ <- run margins_plt_cmd ;;
   save_graph_cmd <-
     match id with
     | Some i => wret (save_graph_cmd_of fig_dir i)
     | None =>
         (names <- listdir fig_dir ;;
          let num_files := length (filter (contains "margins_plot") names) in
          wret (save_graph_cmd_of fig_dir (str num_files)))
     end ;;
   run save_graph_cmd)%plots.

End WithExternals.
End EvalPlots.

(* ================================================================== *)
(** ** Vocabulary of the properties *)

Import Torch Pyro.

(** The element of [t] read at position [(i, j)] of a broadcast result. *)
Definition bread (t : tensor) (i j : nat) : Q :=
  entry t (bidx (nrows t) i) (bidx (ncols t) j).

(** What training leaves unchanged in a linear module: its sizes. *)
Definition linear_shape (l : Linear) : nat * nat * (nat * nat) * (nat * nat) :=
  (in_features l, out_features l,
   (nrows (weight l), ncols (weight l)),
   (nrows (bias l), ncols (bias l))).

Definition bn_shape (b : BatchNorm1d) : nat * Q * Q :=
  (num_features b, eps b, momentum b).

(** The architecture of a model: everything that optimisation steps, calls
    of [forward] and switches between training and evaluation mode keep.
    The weights and biases of the layers, the running statistics of the
    normalisation and the mode are the rest. *)
Record architecture (W I : Type) := mkArch {
  arch_concatenate_interaction_vars : bool;
  arch_dropout : Dropout;
  arch_device : string;
  arch_batch_norm : bool;
  arch_bn : option (nat * Q * Q);
  arch_svd_matrix : option tensor;
  arch_k_dim : option nat;
  arch_svd : bool;
  arch_num_layers : nat;
  arch_layers : list (nat * nat * (nat * nat) * (nat * nat));
  arch_controlled_var_weights : W;
  arch_interaction_weight : distribution;
  arch_interactor_main_weight : distribution;
  arch_index_main_weight : option I;
  arch_include_interactor_bias : bool;
  arch_interactor_bias : option distribution }.

Definition bayes_arch (s : BayesMIHM.self) : architecture PyroLinear distribution :=
  mkArch (BayesMIHM.concatenate_interaction_vars s) (BayesMIHM.dropout s)
    (BayesMIHM.device s) (BayesMIHM.batch_norm s)
    (option_map bn_shape (BayesMIHM.bn s)) (BayesMIHM.svd_matrix s)
    (BayesMIHM.k_dim s) (BayesMIHM.svd s) (BayesMIHM.num_layers s)
    (map linear_shape (BayesMIHM.layers s)) (BayesMIHM.controlled_var_weights s)
    (BayesMIHM.interaction_weight s) (BayesMIHM.interactor_main_weight s)
    (BayesMIHM.index_main_weight s) (BayesMIHM.include_interactor_bias s)
    (BayesMIHM.interactor_bias s).

Definition relaxed_arch (s : RelaxedBayesMIHM.self)
    : architecture (nat * nat * (nat * nat) * (nat * nat)) (nat * nat) :=
  mkArch (RelaxedBayesMIHM.concatenate_interaction_vars s)
    (RelaxedBayesMIHM.dropout s) (RelaxedBayesMIHM.device s)
    (RelaxedBayesMIHM.batch_norm s)
    (option_map bn_shape (RelaxedBayesMIHM.bn s))
    (RelaxedBayesMIHM.svd_matrix s) (RelaxedBayesMIHM.k_dim s)
    (RelaxedBayesMIHM.svd s) (RelaxedBayesMIHM.num_layers s)
    (map linear_shape (RelaxedBayesMIHM.layers s))
    (linear_shape (RelaxedBayesMIHM.controlled_var_weights s))
    (RelaxedBayesMIHM.interaction_weight s)
    (RelaxedBayesMIHM.interactor_main_weight s)
    (option_map (fun t => (nrows t, ncols t)) (RelaxedBayesMIHM.index_main_weight s))
    (RelaxedBayesMIHM.include_interactor_bias s)
    (RelaxedBayesMIHM.interactor_bias s).

(** [s] is a model that [__init__] built from the arguments [a] and that
    may have been trained since. *)
Definition bayes_model (a : args) (s : BayesMIHM.self) : Prop :=
  exists th s0, BayesMIHM.init a th = Ok s0 /\ bayes_arch s = bayes_arch s0.

Definition relaxed_model (a : args) (s : RelaxedBayesMIHM.self) : Prop :=
  exists th s0,
    RelaxedBayesMIHM.init a th = Ok s0 /\ relaxed_arch s = relaxed_arch s0.

(** The reduction requested by [a] cannot be set up. *)
Definition bad_reduction (a : args) : bool :=
  a_svd a &&
  (match a_svd_matrix a with None => true | Some _ => false end
   || (a_interaction_var_size a <? a_k_dim a)).

Definition valid_dropout (a : args) : bool :=
  Qle_bool 0 (a_dropout a) && Qle_bool (a_dropout a) 1.

(** The value the runtime returns at the unobserved site [name]. *)
Definition sampled (rnd : randomness) (name : string) (fn : distribution)
    : tensor :=
  build (fst (shape_of fn)) (snd (shape_of fn))
    (fun i j => draw rnd name (i * snd (shape_of fn) + j)).

(** The effective exposure of [forward]: with the threshold bias it is
    [maximum(0, unsqueeze(exposure) - bias)] for the sampled bias, without it
    the exposure as a column. *)
Definition interactor_spec (flag : bool) (prior : option distribution)
    (rnd : randomness) (e : list Q) (t : tensor) : Prop :=
  if flag
  then exists pr d, prior = Some pr /\
         sub (unsqueeze1 e) (sampled rnd "interactor_bias" pr) = Ok d /\
         maximum (scalar 0) d = Ok t
  else t = unsqueeze1 e.

(** The sizes [__init__] computes from its arguments: the input of the
    linear control term, the input of the index network, and the shapes of
    the layers of the index network. *)
Definition control_input_size (a : args) : nat :=
  if a_concatenate_interaction_vars a
  then a_controlled_var_size a + a_interaction_var_size a
  else a_controlled_var_size a.

Definition index_input_size (a : args) : nat :=
  if a_svd a then a_k_dim a else a_interaction_var_size a.

Definition layer_shapes (a : args) : list (nat * nat * (nat * nat) * (nat * nat)) :=
  let sizes := index_input_size a :: a_hidden_layer_sizes a in
  map (fun i => (nth i sizes 0, nth (i + 1) sizes 0,
                 (nth (i + 1) sizes 0, nth i sizes 0), (1, nth (i + 1) sizes 0)))
    (seq 0 (length (a_hidden_layer_sizes a))).

(** The architecture a successful construction yields. *)
Definition common_arch (W I : Type) (a : args) (w : W) (i : I) : architecture W I :=
  mkArch (a_concatenate_interaction_vars a) (mkDropout (a_dropout a))
    (a_device a) (a_batch_norm a)
    (if a_batch_norm a then Some (1, (1 # 100000)%Q, (1 # 10)%Q) else None)
    (if a_svd a then a_svd_matrix a else None)
    (if a_svd a then Some (a_k_dim a) else None)
    (a_svd a) (length (a_hidden_layer_sizes a)) (layer_shapes a)
    w (HalfNormal 1 [1]) (Normal 0 1 [1])
    (if a_concatenate_interaction_vars a then None else Some i)
    (a_include_interactor_bias a)
    (if a_include_interactor_bias a then Some (HalfNormal 1 [1]) else None).

Definition bayes_arch_of (a : args) : architecture PyroLinear distribution :=
  common_arch a
    (mkPyroLinear (control_input_size a) 1
       (Normal 0 1 [1; control_input_size a]) (Normal 0 5 [1]))
    (Normal 0 1 [1]).

Definition relaxed_arch_of (a : args)
    : architecture (nat * nat * (nat * nat) * (nat * nat)) (nat * nat) :=
  common_arch a (control_input_size a, 1, (1, control_input_size a), (1, 1)) (1, 1).

(** A model of either class, and the methods called on it. *)
Inductive model :=
| Bayes (s : BayesMIHM.self)
| Relaxed (s : RelaxedBayesMIHM.self).

Definition is_model (a : args) (m : model) : Prop :=
  match m with
  | Bayes s => bayes_model a s
  | Relaxed s => relaxed_model a s
  end.

Section Dispatch.
Context {num : Numerics}.

Definition forward_locals_of (m : model) (rnd : randomness)
    (interaction_input_vars : tensor) (interactor_var : list Q)
    (controlled_vars : tensor) (y : option tensor) : M locals :=
  match m with
  | Bayes s =>
      BayesMIHM.forward_locals s rnd interaction_input_vars interactor_var
        controlled_vars y
  | Relaxed s =>
      RelaxedBayesMIHM.forward_locals s rnd interaction_input_vars interactor_var
        controlled_vars y
  end.

Definition forward_of (m : model) (rnd : randomness)
    (interaction_input_vars : tensor) (interactor_var : list Q)
    (controlled_vars : tensor) (y : option tensor) : M tensor :=
  match m with
  | Bayes s =>
      BayesMIHM.forward s rnd interaction_input_vars interactor_var
        controlled_vars y
  | Relaxed s =>
      RelaxedBayesMIHM.forward s rnd interaction_input_vars interactor_var
        controlled_vars y
  end.

Definition get_resilience_index_of (m : model) (interaction_input_vars : tensor)
    : M tensor :=
  match m with
  | Bayes s => BayesMIHM.get_resilience_index s interaction_input_vars
  | Relaxed s => RelaxedBayesMIHM.get_resilience_index s interaction_input_vars
  end.

End Dispatch.

(** Closed examples: a piecewise-linear stand-in for the two abstract
    primitives, initial values, random choices and a small batch. *)
Definition ex_numerics : Numerics :=
  {| gelu := fun x => Qmax 0 x; sqrt := fun x => x |}.

Definition ex_init : initializer :=
  {| init_weight := fun l o i => inject_Z (Z.of_nat (l + o + i));
     init_bias := fun l o => 1%Q;
     init_randn := 3%Q |}.

Definition ex_rnd : randomness :=
  {| draw := fun name l => 2%Q; keep := fun l i j => Nat.even (i + j) |}.

Definition ex_args : args :=
  mkArgs 2 3 [2; 1] true (1 # 2) false None 10 "cpu" false true.

Definition ex_x : tensor := mkT 2 [[1; 2]; [3; 4]]%Q.
Definition ex_e : list Q := [10; 1]%Q.
Definition ex_c : tensor := mkT 3 [[1; 2; 3]; [3; 4; 5]]%Q.

Definition built {A} (d : A) (r : result A) : A :=
  match r with Ok a => a | Raise _ => d end.

Definition ex_bayes : BayesMIHM.self :=
  Eval vm_compute in
    built (BayesMIHM.mkSelf false (mkDropout 0) "" false None None None false 0 []
             (mkPyroLinear 0 0 (Gamma 0 0) (Gamma 0 0)) (Gamma 0 0) (Gamma 0 0)
             None false None false)
      (BayesMIHM.init ex_args ex_init).

Definition ex_relaxed : RelaxedBayesMIHM.self :=
  Eval vm_compute in
    built (RelaxedBayesMIHM.mkSelf false (mkDropout 0) "" false None None None
             false 0 [] (mkLinear 0 0 (mkT 0 []) (mkT 0 [])) (Gamma 0 0)
             (Gamma 0 0) None false None false)
      (RelaxedBayesMIHM.init ex_args ex_init).

(** Position [(i, j)] of a broadcast result can be read in [t]. *)
Definition inb (t : tensor) (i j : nat) : Prop :=
  (nrows t = 1 \/ i < nrows t) /\ (ncols t = 1 \/ j < ncols t).

(** A default for reading the first and the last layer of a list. *)
Definition no_layer : Linear := mkLinear 0 0 (mkT 0 []) (mkT 0 []).

(** The arguments [a] with another list of hidden widths. *)
Definition with_hidden_layer_sizes (a : args) (h : list nat) : args :=
  mkArgs (a_interaction_var_size a) (a_controlled_var_size a) h
    (a_include_interactor_bias a) (a_dropout a) (a_svd a) (a_svd_matrix a)
    (a_k_dim a) (a_device a) (a_concatenate_interaction_vars a) (a_batch_norm a).

(** [self.bn] of a model of either class. *)
Definition bn_of (m : model) : option BatchNorm1d :=
  match m with
  | Bayes s => BayesMIHM.bn s
  | Relaxed s => RelaxedBayesMIHM.bn s
  end.

(** The model with another reduction basis, everything else unchanged. *)
Definition bayes_with_svd_matrix (s : BayesMIHM.self) (B : tensor) : BayesMIHM.self :=
  BayesMIHM.mkSelf (BayesMIHM.concatenate_interaction_vars s) (BayesMIHM.dropout s)
    (BayesMIHM.device s) (BayesMIHM.batch_norm s) (BayesMIHM.bn s) (Some B)
    (BayesMIHM.k_dim s) (BayesMIHM.svd s) (BayesMIHM.num_layers s)
    (BayesMIHM.layers s) (BayesMIHM.controlled_var_weights s)
    (BayesMIHM.interaction_weight s) (BayesMIHM.interactor_main_weight s)
    (BayesMIHM.index_main_weight s) (BayesMIHM.include_interactor_bias s)
    (BayesMIHM.interactor_bias s) (BayesMIHM.training s).

Definition relaxed_with_svd_matrix (s : RelaxedBayesMIHM.self) (B : tensor)
    : RelaxedBayesMIHM.self :=
  RelaxedBayesMIHM.mkSelf (RelaxedBayesMIHM.concatenate_interaction_vars s)
    (RelaxedBayesMIHM.dropout s) (RelaxedBayesMIHM.device s)
    (RelaxedBayesMIHM.batch_norm s) (RelaxedBayesMIHM.bn s) (Some B)
    (RelaxedBayesMIHM.k_dim s) (RelaxedBayesMIHM.svd s)
    (RelaxedBayesMIHM.num_layers s) (RelaxedBayesMIHM.layers s)
    (RelaxedBayesMIHM.controlled_var_weights s)
    (RelaxedBayesMIHM.interaction_weight s)
    (RelaxedBayesMIHM.interactor_main_weight s)
    (RelaxedBayesMIHM.index_main_weight s)
    (RelaxedBayesMIHM.include_interactor_bias s)
    (RelaxedBayesMIHM.interactor_bias s) (RelaxedBayesMIHM.training s).

Definition with_svd_matrix (m : model) (B : tensor) : model :=
  match m with
  | Bayes s => Bayes (bayes_with_svd_matrix s B)
  | Relaxed s => Relaxed (relaxed_with_svd_matrix s B)
  end.

(** [self.layers] of a model of either class. *)
Definition layers_of (m : model) : list Linear :=
  match m with
  | Bayes s => BayesMIHM.layers s
  | Relaxed s => RelaxedBayesMIHM.layers s
  end.

(** Two bases with at least [k] columns and the same first [k] columns. *)
Definition agree_on_first (k : nat) (B1 B2 : tensor) : Prop :=
  nrows B1 = nrows B2 /\ k <= ncols B1 /\ k <= ncols B2 /\
  forall i j, i < nrows B1 -> j < k -> entry B1 i j = entry B2 i j.

(** A model with reduction to two of three predictors, and two bases that
    differ in the third column only. *)
Definition ex_B1 : tensor := mkT 3 [[1; 0; 5]; [0; 1; 6]; [0; 0; 7]]%Q.
Definition ex_B2 : tensor := mkT 3 [[1; 0; 0]; [0; 1; 0]; [0; 0; 1]]%Q.
Definition ex_x3 : tensor := mkT 3 [[1; 2; 3]; [4; 5; 6]]%Q.

Definition ex_args_svd : args :=
  mkArgs 3 3 [2; 1] true (1 # 2) true (Some ex_B1) 2 "cpu" false true.

Definition ex_bayes_svd : BayesMIHM.self :=
  Eval vm_compute in
    built (BayesMIHM.mkSelf false (mkDropout 0) "" false None None None false 0 []
             (mkPyroLinear 0 0 (Gamma 0 0) (Gamma 0 0)) (Gamma 0 0) (Gamma 0 0)
             None false None false)
      (BayesMIHM.init ex_args_svd ex_init).

(** The relaxed model that holds, as point estimates, the values the fully
    Bayesian model [sb] samples for its control weights, control bias and
    index main-effect weight under [rnd]; every other attribute is shared. *)
Definition relax (sb : BayesMIHM.self) (rnd : randomness) : RelaxedBayesMIHM.self :=
  RelaxedBayesMIHM.mkSelf (BayesMIHM.concatenate_interaction_vars sb)
    (BayesMIHM.dropout sb) (BayesMIHM.device sb) (BayesMIHM.batch_norm sb)
    (BayesMIHM.bn sb) (BayesMIHM.svd_matrix sb) (BayesMIHM.k_dim sb)
    (BayesMIHM.svd sb) (BayesMIHM.num_layers sb) (BayesMIHM.layers sb)
    (mkLinear (linear_in (BayesMIHM.controlled_var_weights sb))
       (linear_out (BayesMIHM.controlled_var_weights sb))
       (sampled rnd "controlled_var_weights.weight"
          (weight_prior (BayesMIHM.controlled_var_weights sb)))
       (sampled rnd "controlled_var_weights.bias"
          (bias_prior (BayesMIHM.controlled_var_weights sb))))
    (BayesMIHM.interaction_weight sb) (BayesMIHM.interactor_main_weight sb)
    (option_map (sampled rnd "index_main_weight") (BayesMIHM.index_main_weight sb))
    (BayesMIHM.include_interactor_bias sb) (BayesMIHM.interactor_bias sb)
    (BayesMIHM.training sb).

(** The sites of the fully Bayesian class that are parameters in the
    relaxed one. *)
Definition point_estimated (name : string) : bool :=
  String.eqb name "controlled_var_weights.weight"
  || String.eqb name "controlled_var_weights.bias"
  || String.eqb name "index_main_weight".

(** The site [sigma] with the prior of the relaxed class. *)
Definition relaxed_site (st : site) : site :=
  if String.eqb (site_name st) "sigma"
  then mkSite (site_name st) (HalfNormal 1 []) (site_is_observed st) (site_plates st)
  else st.

(** The sites of a run of the fully Bayesian class as the relaxed class
    registers them. *)
Definition relaxed_trace (tr : list site) : list site :=
  map relaxed_site (filter (fun st => negb (point_estimated (site_name st))) tr).

Definition rmap {A B} (f : A -> B) (r : result A) : result B :=
  match r with Ok a => Ok (f a) | Raise e => Raise e end.

Definition relaxed_run {A} (r : result (A * list site)) : result (A * list site) :=
  rmap (fun p => (fst p, relaxed_trace (snd p))) r.

(** [cr] does what [cb] does, up to [relaxed_trace]. *)
Definition sim {A} (cb cr : M A) : Prop :=
  forall tr, cr (relaxed_trace tr) = relaxed_run (cb tr).
(** An initialiser that returns zeros. *)
Definition zero_init : initializer :=
  {| init_weight := fun _ _ _ => 0%Q; init_bias := fun _ _ => 0%Q; init_randn := 0%Q |}.

(** [self.training] and [self.batch_norm] of a model of either class. *)
Definition training_of (m : model) : bool :=
  match m with
  | Bayes s => BayesMIHM.training s
  | Relaxed s => RelaxedBayesMIHM.training s
  end.
Definition batch_norm_of (m : model) : bool :=
  match m with
  | Bayes s => BayesMIHM.batch_norm s
  | Relaxed s => RelaxedBayesMIHM.batch_norm s
  end.

(** A model with output normalisation after one training batch, in
    evaluation mode: one layer of weight 1 and bias 0; the batch [9; 10; 11]
    has mean 10 and unbiased variance 1, which leaves the running mean and
    the running variance at 1. *)
Definition c1_args : args := default_args 1 1 [1].
Definition c1_init : initializer :=
  {| init_weight := fun _ _ _ => 1%Q; init_bias := fun _ _ => 0%Q; init_randn := 0%Q |}.
Definition c1_batch : tensor := mkT 1 [[9]; [10]; [11]]%Q.
Definition c1_bn : BatchNorm1d :=
  Eval vm_compute in
    match BatchNorm1d_forward (num := ex_numerics) (BatchNorm1d_init 1) true c1_batch with
    | Ok (_, b) => b
    | Raise _ => BatchNorm1d_init 1
    end.
Definition c1_model : BayesMIHM.self :=
  BayesMIHM.mkSelf false (mkDropout (1 # 2)) "cpu" true (Some c1_bn) None None
    false 1 [mkLinear 1 1 (mkT 1 [[1%Q]]) (mkT 1 [[0%Q]])]
    (mkPyroLinear 1 1 (Normal 0 1 [1; 1]) (Normal 0 5 [1]))
    (HalfNormal 1 [1]) (Normal 0 1 [1]) (Some (Normal 0 1 [1]))
    true (Some (HalfNormal 1 [1])) false.
Definition c1_x : tensor := mkT 1 [[1%Q]].

(** The columns of the input and of every intermediate value fit the layers. *)
Fixpoint chain_ok (n : nat) (ls : list Linear) : Prop :=
  match ls with
  | [] => True
  | l :: rest => n = ncols (weight l) /\ chain_ok (nrows (weight l)) rest
  end.

(** The scenario: 5 interaction predictors, 3 controls, hidden layers
    [16; 8], threshold bias, no reduction, no concatenation; one observation
    of zeros with exposure 10. *)
Definition c5_args (batch_norm : bool) : args :=
  mkArgs 5 3 [16; 8] true (1 # 2) false None 10 "cpu" false batch_norm.
Definition c5_x : tensor := mkT 5 [[0; 0; 0; 0; 0]]%Q.
Definition c5_e : list Q := [10]%Q.
Definition c5_c : tensor := mkT 3 [[0; 0; 0]]%Q.

(** [model.eval()] *)
Definition bayes_eval (s : BayesMIHM.self) : BayesMIHM.self :=
  BayesMIHM.mkSelf (BayesMIHM.concatenate_interaction_vars s) (BayesMIHM.dropout s)
    (BayesMIHM.device s) (BayesMIHM.batch_norm s) (BayesMIHM.bn s)
    (BayesMIHM.svd_matrix s) (BayesMIHM.k_dim s) (BayesMIHM.svd s)
    (BayesMIHM.num_layers s) (BayesMIHM.layers s)
    (BayesMIHM.controlled_var_weights s) (BayesMIHM.interaction_weight s)
    (BayesMIHM.interactor_main_weight s) (BayesMIHM.index_main_weight s)
    (BayesMIHM.include_interactor_bias s) (BayesMIHM.interactor_bias s) false.

(** Random choices with a threshold bias of 2 and every other draw 1. *)
Definition c5_rnd : randomness :=
  {| draw := fun name l => if String.eqb name "interactor_bias" then 2%Q else 1%Q;
     keep := fun l i j => true |}.

(** The scenario's model as the constructor returns it. *)
Definition c5_model (batch_norm : bool) : BayesMIHM.self :=
  built (BayesMIHM.mkSelf false (mkDropout 0) "" false None None None false 0 []
           (mkPyroLinear 0 0 (Gamma 0 0) (Gamma 0 0)) (Gamma 0 0) (Gamma 0 0)
           None false None false)
    (BayesMIHM.init (c5_args batch_norm) ex_init).


(** Three trials as the analysis object exposes them; the last one never
    reported. *)
Definition ex_trials : list Search.Trial :=
  [ Search.mkTrial 0 [("layer1"%string, 16%Q)]
      [[("training_iteration"%string, 1%Q); ("composite_metric"%string, 5%Q);
        ("test_MSE"%string, 5%Q); ("interaction_pval"%string, (1 # 10)%Q);
        ("vif_heat"%string, 2%Q); ("vif_inter"%string, 3%Q)]]
      (Some [("mihm_state_dict"%string, [1; 2]%Q)]);
    Search.mkTrial 1 [("layer1"%string, 32%Q)]
      [[("training_iteration"%string, 1%Q); ("composite_metric"%string, 4%Q);
        ("test_MSE"%string, 4%Q); ("interaction_pval"%string, (1 # 20)%Q);
        ("vif_heat"%string, 2%Q); ("vif_inter"%string, 3%Q)];
       [("training_iteration"%string, 2%Q); ("composite_metric"%string, 3%Q);
        ("test_MSE"%string, 3%Q); ("interaction_pval"%string, (1 # 20)%Q);
        ("vif_heat"%string, 2%Q); ("vif_inter"%string, 3%Q)]]
      (Some [("mihm_state_dict"%string, [3; 4]%Q)]);
    Search.mkTrial 2 [("layer1"%string, 64%Q)] [] None ].
(** The kind of a search-space entry. *)
Inductive domain_kind := IntegerRange | Categorical | LogUniform.
Definition kind_of (d : Search.domain) : domain_kind :=
  match d with
  | Search.randint _ _ => IntegerRange
  | Search.choice _ => Categorical
  | Search.loguniform _ _ => LogUniform
  end.
(** The invariant of the loop of [get_best_trial]: [best] is a trial seen so
    far with the lowest last metric among those that reported one. *)
Definition best_so_far (m : string) (best : option Search.Trial) (seen : list Search.Trial)
    : Prop :=
  match best with
  | None => forall t, In t seen -> Search.metric_last m t = None
  | Some b =>
      In b seen /\
      exists bm, Search.metric_last m b = Some bm /\
        forall t v, In t seen -> Search.metric_last m t = Some v -> (bm <= v)%Q
  end.


(** A directory with its entries and a Stata session that accepts every
    command and returns a fixed table. *)
Definition ex_externals : Eval.Externals := {|
  Eval.ext := list string;
  Eval.os_listdir := fun o _ => (Ok o, o);
  Eval.to_stata := fun o path _ => (Ok tt, o ++ [path]);
  Eval.stata_run := fun o _ => (Ok tt, o);
  Eval.stata_get_return := fun _ =>
    [("r(table)"%string, [[1; 2]; [1; 2]; [1; 2]; [1; 1 # 20]]%Q);
     ("r(vif_1)"%string, [[2]]%Q); ("r(vif_2)"%string, [[3]]%Q)] |}.

(** Two dataframes on the heap, the first with a column "vul_index"
    already, and two files in the save directory. *)
Definition ex_world : @Eval.world ex_externals :=
  @Eval.mkWorld ex_externals
    [ Eval.mkDF 2 [("age"%string, [Eval.Num 60; Eval.Num 70]);
                   ("vul_index"%string, [Eval.NaN; Eval.NaN])];
      Eval.mkDF 1 [("age"%string, [Eval.Num 50])] ]
    ["index_prediction_0.dta"%string; "index_prediction_1.dta"%string]
    [].

Definition ex_predictions : list Eval.cell :=
  [Eval.Num (1 # 2); Eval.Num (3 # 4)].


(** The second world has the heap of the first and a log that extends its
    log. *)
Definition extends {E : Eval.Externals} (w w' : Eval.world) : Prop :=
  (Eval.heap w' = Eval.heap w) /\
  exists more, Eval.log w' = Eval.log w ++ more.

(** A computation that leaves the heap as it finds it and only adds to the
    log, whatever its outcome. *)
Definition grows {E : Eval.Externals} {A} (c : Eval.W A) : Prop :=
  forall w r w', c w = (r, w') -> extends w w'.

(** The random choices [rnd] with another dropout mask. *)
Definition with_keep (rnd : randomness) (k : nat -> nat -> nat -> bool)
    : randomness :=
  {| draw := draw rnd; keep := k |}.

(** [y is not None] *)
Definition is_given {A} (o : option A) : bool :=
  match o with Some _ => true | None => false end.

(** The sample sites one call of [forward] registers, in the order of the
    calls: for the class [BayesMIHM] built from [a], and for the class
    [RelaxedBayesMIHM]. *)
Definition likelihood_sites (sigma_prior : distribution) (y : option tensor)
    (L : locals) : list site :=
  [ mkSite "sigma" sigma_prior false [];
    mkSite "data" (Subsample (nrows (predicted_epi L))) false [];
    mkSite "obs" (NormalT (predicted_epi L) (sigma L)) (is_given y)
      [("data"%string, nrows (predicted_epi L))] ].

Definition exposure_sites (a : args) : list site :=
  (if a_include_interactor_bias a
   then [mkSite "interactor_bias" (HalfNormal 1 [1]) false []]
   else [])
  ++ [ mkSite "interactor_main_weight" (Normal 0 1 [1]) false [];
       mkSite "interaction_weight" (HalfNormal 1 [1]) false [] ].

Definition bayes_sites (a : args) (y : option tensor) (L : locals) : list site :=
  [ mkSite "controlled_var_weights.weight"
      (Normal 0 1 [1; control_input_size a]) false [];
    mkSite "controlled_var_weights.bias" (Normal 0 5 [1]) false [] ]
  ++ exposure_sites a
  ++ (if a_concatenate_interaction_vars a
      then []
      else [mkSite "index_main_weight" (Normal 0 1 [1]) false []])
  ++ likelihood_sites (Gamma (1 # 2) 1) y L.

Definition relaxed_sites (a : args) (y : option tensor) (L : locals) : list site :=
  exposure_sites a ++ likelihood_sites (HalfNormal 1 []) y L.

(** Row [i] of [x] and row [i'] of [x'] hold the same values. *)
Definition same_row (x : tensor) (i : nat) (x' : tensor) (i' : nat) : Prop :=
  ncols x = ncols x' /\ i < nrows x /\ i' < nrows x' /\
  forall j, j < ncols x -> entry x i j = entry x' i' j.

(** The interaction predictors fit the index network of a model built from
    [a]: without reduction they have [interaction_var_size] columns; with
    reduction they have as many columns as the basis has rows, and the
    basis has at least [k_dim] columns. *)
Definition index_accepts (a : args) (x : tensor) : Prop :=
  if a_svd a
  then match a_svd_matrix a with
       | Some B => ncols x = nrows B /\ a_k_dim a <= ncols B
       | None => False
       end
  else ncols x = a_interaction_var_size a.

(** The controls fit the linear control term of a model built from [a]:
    without concatenation they have [controlled_var_size] columns; with
    concatenation the controls and the interaction predictors, as they are
    passed (before any reduction), have
    [controlled_var_size + interaction_var_size] columns together. *)
Definition control_accepts (a : args) (x c : tensor) : Prop :=
  (if a_concatenate_interaction_vars a then ncols c + ncols x else ncols c)
  = control_input_size a.


(** [l] is an initial segment of [full]. *)
Definition is_prefix {A} (l full : list A) : Prop := exists rest, full = l ++ rest.

(** The computation [c] leaves the heap as it finds it and makes the
    external calls [l], in that order and all of them when it returns;
    when it raises it has made an initial segment of them. *)
Definition emits {E : Eval.Externals} {A} (c : Eval.W A) (l : list Eval.event)
    : Prop :=
  forall w r w', c w = (r, w') ->
    Eval.heap w' = Eval.heap w /\
    exists new, Eval.log w' = Eval.log w ++ new /\ is_prefix new l /\
                forall v, r = Ok v -> new = l.

(** The state of the file system and of the Stata session after the
    commands [cmds], run one after the other. *)
Definition after_runs {E : Eval.Externals} (cmds : list string) (o : Eval.ext)
    : Eval.ext :=
  fold_left (fun o cmd => snd (Eval.stata_run o cmd)) cmds o.

(** The calls [evaluate_significance] makes after the directory listing,
    for the file [path] and the frame [d] written to it. *)
Definition significance_calls (path : string) (d : Eval.DataFrame)
    : list Eval.event :=
  [ Eval.ToStata path d;
    Eval.StataRun ("use " ++ path ++ ", clear");
    Eval.StataRun Eval.regress_cmd;
    Eval.StataRun "vif" ].

(** The Stata commands of [draw_margins_plot] before the export. *)
Definition margins_commands (data_path : string) : list string :=
  [ ("use " ++ data_path ++ ", clear")%string;
    EvalPlots.margins_cmd; EvalPlots.margins_plt_cmd ].

(** The file [draw_margins_plot] exports for the number [k]. *)
Definition margins_plot_file (k : nat) : string :=
  "margins_plot_" ++ Eval.str k ++ ".png".

(** A figure directory with two plots and another file. *)
Definition ex_fig_world : @Eval.world ex_externals :=
  @Eval.mkWorld ex_externals []
    ["margins_plot_0.png"%string; "data.dta"%string; "margins_plot_1.png"%string]
    [].

(** The widths [2; 0] with the output normalisation: the arguments and the
    model the constructor returns for them. *)
Definition c9_args : args :=
  mkArgs 2 3 [2; 0] true (1 # 2) false None 10 "cpu" false true.

Definition c9_model : BayesMIHM.self :=
  built (BayesMIHM.mkSelf false (mkDropout 0) "" false None None None false 0 []
           (mkPyroLinear 0 0 (Gamma 0 0) (Gamma 0 0)) (Gamma 0 0) (Gamma 0 0)
           None false None false)
    (BayesMIHM.init c9_args ex_init).

(** The site of the likelihood, as [forward] registers it last: its
    distribution is built from the outcome and the scale the call computed,
    and it is observed when an outcome was given. *)
Definition obs_site (L : locals) (observed : bool) : site :=
  mkSite "obs" (NormalT (predicted_epi L) (sigma L)) observed
    [("data"%string, nrows (predicted_epi L))].

(** The run [given] of a call that was passed the outcome [y], against the
    run [plain] of the same call without an outcome: both raise the same
    exception, or both return the same value and the same trace up to the
    last site, which is the site "obs", observed in [given] exactly when
    [y] is not [None]. *)
Definition marks_obs {A} (value_of : locals -> A) (y : option tensor)
    (given plain : result (A * list site)) : Prop :=
  match plain with
  | Raise err => given = Raise err
  | Ok (v, tr') =>
      exists L tr0,
        v = value_of L /\ tr' = tr0 ++ [obs_site L false] /\
        given = Ok (v, tr0 ++ [obs_site L (is_given y)])
  end.

(* ================================================================== *)
(** ** The effective exposure over floating-point values *)

(** The tensors above hold exact numbers.  An element of a floating-point
    tensor can also be an infinity or NaN.  The exposure passes through two
    operations before it meets any other value, a subtraction and
    [torch.maximum]; they are written out here over such elements, a finite
    result being taken exactly. *)
Inductive fl := fnum (q : Q) | pinf | ninf | nan.

(** [u - v] *)
Definition fsub (u v : fl) : fl :=
  match u, v with
  | nan, _ | _, nan => nan
  | fnum p, fnum q => fnum (p - q)
  | fnum _, pinf => ninf
  | fnum _, ninf => pinf
  | pinf, pinf => nan
  | pinf, _ => pinf
  | ninf, ninf => nan
  | ninf, _ => ninf
  end.

(** [torch.maximum(u, v)]: NaN when either element is NaN. *)
Definition fmaximum (u v : fl) : fl :=
  match u, v with
  | nan, _ | _, nan => nan
  | pinf, _ | _, pinf => pinf
  | ninf, w | w, ninf => w
  | fnum p, fnum q => fnum (Qmax p q)
  end.

Definition is_nan (u : fl) : bool :=
  match u with nan => true | _ => false end.

(** [0 <= u]; no comparison holds of NaN. *)
Definition nonneg (u : fl) : bool :=
  match u with
  | fnum q => Qle_bool 0 q
  | pinf => true
  | ninf | nan => false
  end.

(** Lines 113-120 (and 261-268) of [forward] on a floating-point exposure:
    the rows of [interactor], for the value [interactor_bias] sampled at the
    site of the threshold bias. *)
Definition effective_exposure (include_interactor_bias : bool)
    (interactor_bias : fl) (interactor_var : list fl) : list (list fl) :=
  if include_interactor_bias
  then map (fun v => [fmaximum (fnum 0) (fsub v interactor_bias)]) interactor_var
  else map (fun v => [v]) interactor_var.

(* ================================================================== *)
(** ** Facts about tensors *)

Unset Implicit Arguments.

Section TensorFacts.

Lemma length_tabulate A n (f : nat -> A) : length (tabulate n f) = n.
Proof. unfold tabulate. now rewrite length_map, length_seq. Qed.

Lemma nth_tabulate A n (f : nat -> A) i d :
  i < n -> nth i (tabulate n f) d = f i.
Proof.
  intros Hi. unfold tabulate.
  rewrite (nth_indep _ d (f 0)) by now rewrite length_map, length_seq.
  rewrite (map_nth f (seq 0 n) 0 i), seq_nth; auto.
Qed.

Lemma tabulate_ext A n (f g : nat -> A) :
  (forall i, i < n -> f i = g i) -> tabulate n f = tabulate n g.
Proof.
  intros H. unfold tabulate. apply map_ext_in.
  intros i Hi. apply in_seq in Hi. apply H. lia.
Qed.

Lemma nrows_build N C f : nrows (build N C f) = N.
Proof. unfold nrows, build. simpl. apply length_tabulate. Qed.

Lemma ncols_build N C f : ncols (build N C f) = C.
Proof. reflexivity. Qed.

Lemma entry_build N C f i j :
  i < N -> j < C -> entry (build N C f) i j = f i j.
Proof.
  intros Hi Hj. unfold entry, build. simpl.
  rewrite nth_tabulate by assumption. now rewrite nth_tabulate.
Qed.

Lemma build_ext N C f g :
  (forall i j, i < N -> j < C -> f i j = g i j) -> build N C f = build N C g.
Proof.
  intros H. unfold build. f_equal. apply tabulate_ext.
  intros i Hi. apply tabulate_ext. auto.
Qed.

Lemma bdim_inv a b n :
  bdim a b = Some n -> (a = n \/ a = 1) /\ (b = n \/ b = 1).
Proof.
  unfold bdim.
  destruct (Nat.eqb_spec a b); [intros [= <-]; subst; auto|].
  destruct (Nat.eqb_spec a 1); [intros [= <-]; auto|].
  destruct (Nat.eqb_spec b 1); [intros [= <-]; auto|discriminate].
Qed.

Lemma bdim_zero a b n : bdim a b = Some n -> a = 0 \/ b = 0 -> n = 0.
Proof.
  unfold bdim.
  destruct (Nat.eqb_spec a b); [intros [= <-]; lia|].
  destruct (Nat.eqb_spec a 1); [intros [= <-]; lia|].
  destruct (Nat.eqb_spec b 1); [intros [= <-]; lia|discriminate].
Qed.

Lemma bidx_lt n i : i < n -> bidx n i = i.
Proof.
  unfold bidx. destruct (Nat.eqb_spec n 1); lia.
Qed.

Lemma bcast_inv f a b t :
  bcast f a b = Ok t ->
  exists N C,
    bdim (nrows a) (nrows b) = Some N /\ bdim (ncols a) (ncols b) = Some C /\
    t = build N C (fun i j => f (bread a i j) (bread b i j)).
Proof.
  unfold bcast.
  destruct (bdim (nrows a) (nrows b)) as [N|]; [|discriminate].
  destruct (bdim (ncols a) (ncols b)) as [C|]; [|discriminate].
  intros [= <-]. now exists N, C.
Qed.

(** Reading a broadcast result: the operator applied to what is read in the
    operands. *)
Lemma bread_bcast f a b t i j :
  bcast f a b = Ok t ->
  nrows t = 1 \/ i < nrows t -> ncols t = 1 \/ j < ncols t ->
  bread t i j = f (bread a i j) (bread b i j).
Proof.
  intros H Hi Hj.
  destruct (bcast_inv _ _ _ _ H) as (N & C & HN & HC & ->).
  rewrite nrows_build, ncols_build in *.
  unfold bread at 1. rewrite nrows_build, ncols_build.
  assert (Hi' : bidx N i < N) by (unfold bidx; destruct (Nat.eqb_spec N 1); lia).
  assert (Hj' : bidx C j < C) by (unfold bidx; destruct (Nat.eqb_spec C 1); lia).
  rewrite entry_build by assumption.
  destruct (bdim_inv _ _ _ HN) as [Ha Hb], (bdim_inv _ _ _ HC) as [Hc Hd].
  assert (R : forall n m k, n = m \/ n = 1 -> bidx n (bidx m k) = bidx n k).
  { intros n m k [->| ->]; unfold bidx.
    - destruct (Nat.eqb_spec m 1); reflexivity.
    - reflexivity. }
  unfold bread. now rewrite !R by assumption.
Qed.

Lemma entry_bread t i j : i < nrows t -> j < ncols t -> bread t i j = entry t i j.
Proof. intros. unfold bread. now rewrite !bidx_lt. Qed.

Lemma bcast_rows_zero f a b t :
  bcast f a b = Ok t -> nrows a = 0 \/ nrows b = 0 -> nrows t = 0.
Proof.
  intros H Hz. destruct (bcast_inv _ _ _ _ H) as (N & C & HN & _ & ->).
  rewrite nrows_build. eapply bdim_zero; eauto.
Qed.

End TensorFacts.

(* ================================================================== *)
(** ** Facts about the two monads *)

Section MonadFacts.

Lemma rbind_ok A B (c : result A) (k : A -> result B) b :
  rbind c k = Ok b -> exists a, c = Ok a /\ k a = Ok b.
Proof. destruct c; simpl; [eauto|discriminate]. Qed.

Lemma bind_ok A B (c : M A) (k : A -> M B) tr b tr' :
  bind c k tr = Ok (b, tr') ->
  exists a tr1, c tr = Ok (a, tr1) /\ k a tr1 = Ok (b, tr').
Proof.
  unfold bind. destruct (c tr) as [[a tr1]|]; [eauto|discriminate].
Qed.

Lemma lift_ok A (c : result A) tr a tr' :
  lift c tr = Ok (a, tr') -> c = Ok a /\ tr' = tr.
Proof. unfold lift. destruct c; [intros [= -> ->]; auto|discriminate]. Qed.

Lemma ret_ok A (a : A) tr b tr' : ret a tr = Ok (b, tr') -> b = a /\ tr' = tr.
Proof. unfold ret. intros [= -> ->]. auto. Qed.

Lemma sample_ok rnd name fn plates tr v tr' :
  sample rnd name fn None plates tr = Ok (v, tr') ->
  v = sampled rnd name fn /\ tr' = tr ++ [mkSite name fn false plates].
Proof. unfold sample, sampled. intros [= <- <-]. auto. Qed.

Lemma sample_any_ok rnd name fn obs plates tr v tr' :
  sample rnd name fn obs plates tr = Ok (v, tr') ->
  v = match obs with Some o => o | None => sampled rnd name fn end /\
  tr' = tr ++ [mkSite name fn (match obs with Some _ => true | None => false end)
                 plates].
Proof. unfold sample, sampled. intros [= <- <-]. auto. Qed.

Lemma attr_ok A (o : option A) a : attr o = Ok a -> o = Some a.
Proof. destruct o; simpl; [intros [= ->]; reflexivity|discriminate]. Qed.

Lemma plate_ok name size tr u tr' :
  plate name size tr = Ok (u, tr') ->
  size <> 0 /\ tr' = tr ++ [mkSite name (Subsample size) false []].
Proof.
  unfold plate. destruct (Nat.eqb_spec size 0); [discriminate|].
  intros [= <-]. auto.
Qed.

End MonadFacts.

(** Decomposition of a successful run, one statement at a time. *)
Ltac step_ok H :=
  match type of H with
  | bind _ _ _ = Ok _ =>
      let a := fresh "v" in let tr := fresh "tr" in
      let H1 := fresh "Hs" in
      apply bind_ok in H; destruct H as (a & tr & H1 & H)
  | rbind _ _ = Ok _ =>
      let a := fresh "v" in let H1 := fresh "Hs" in
      apply rbind_ok in H; destruct H as (a & H1 & H)
  | lift _ _ = Ok _ =>
      let H1 := fresh "Hs" in
      apply lift_ok in H; destruct H as (H & H1); subst
  | ret _ _ = Ok _ =>
      let H1 := fresh "Hs" in
      apply ret_ok in H; destruct H as (H & H1); subst
  | sample _ _ _ None _ _ = Ok _ =>
      let H1 := fresh "Hs" in
      apply sample_ok in H; destruct H as (H & H1); subst
  | sample _ _ _ _ _ _ = Ok _ =>
      let H1 := fresh "Hs" in
      apply sample_any_ok in H; destruct H as (H & H1); subst
  | plate _ _ _ = Ok _ =>
      let H1 := fresh "Hs" in
      apply plate_ok in H; destruct H as (H & H1); subst
  | attr _ = Ok _ => apply attr_ok in H
  | (let '(_, _) := ?v in _) _ = Ok _ => destruct v
  | (let '(_, _) := ?v in _) = Ok _ => destruct v
  | Ok _ = Ok _ => injection H; clear H; intros; subst
  end.

Ltac steps :=
  repeat match goal with
         | H : _ = Ok _ |- _ => progress (step_ok H)
         end.

(* ================================================================== *)
(** ** What a successful call of [forward] has computed *)

Section ForwardInversion.
Context {num : Numerics}.

Lemma bayes_forward_locals_inv s rnd x e c y tr L tr' :
  BayesMIHM.forward_locals s rnd x e c y tr = Ok (L, tr') ->
  (if BayesMIHM.concatenate_interaction_vars s then cat1 c x else Ok c)
    = Ok (all_linear_vars L) /\
  F_linear (all_linear_vars L)
    (sampled rnd "controlled_var_weights.weight"
       (weight_prior (BayesMIHM.controlled_var_weights s)))
    (sampled rnd "controlled_var_weights.bias"
       (bias_prior (BayesMIHM.controlled_var_weights s)))
    = Ok (controlled_term L) /\
  (if BayesMIHM.svd s
   then (B <- attr (BayesMIHM.svd_matrix s) ;;
         k <- attr (BayesMIHM.k_dim s) ;; matmul x (slice_cols k B))%res
   else Ok x) = Ok (reduced_input L) /\
  (exists hidden,
     BayesMIHM.forward_layers s rnd 0 (BayesMIHM.layers s) (reduced_input L)
       = Ok hidden /\
     if BayesMIHM.batch_norm s
     then exists b b', BayesMIHM.bn s = Some b /\
            BatchNorm1d_forward b (BayesMIHM.training s) hidden
              = Ok (predicted_index L, b') /\ bn_after L = Some b'
     else predicted_index L = hidden /\ bn_after L = BayesMIHM.bn s) /\
  interactor_spec (BayesMIHM.include_interactor_bias s)
    (BayesMIHM.interactor_bias s) rnd e (interactor L) /\
  mul (sampled rnd "interactor_main_weight" (BayesMIHM.interactor_main_weight s))
    (interactor L) = Ok (interactor_main_term L) /\
  (exists t, mul (sampled rnd "interaction_weight" (BayesMIHM.interaction_weight s))
               (interactor L) = Ok t /\
             mul t (predicted_index L) = Ok (predicted_interaction_term L)) /\
  (exists t1 t2,
     add (predicted_interaction_term L) (controlled_term L) = Ok t1 /\
     add t1 (interactor_main_term L) = Ok t2 /\
     if BayesMIHM.concatenate_interaction_vars s
     then predicted_epi L = t2
     else exists pr u, BayesMIHM.index_main_weight s = Some pr /\
            mul (predicted_index L) (sampled rnd "index_main_weight" pr) = Ok u /\
            add t2 u = Ok (predicted_epi L)) /\
  sigma L = sampled rnd "sigma" (Gamma (1 # 2) 1) /\
  nrows (predicted_epi L) <> 0.
Proof.
  intros H. unfold BayesMIHM.forward_locals, PyroLinear_forward in H.
  unfold interactor_spec.
  destruct (BayesMIHM.concatenate_interaction_vars s),
           (BayesMIHM.batch_norm s),
           (BayesMIHM.include_interactor_bias s);
    steps; simpl; repeat split; eauto 10.
Qed.

Lemma relaxed_forward_locals_inv s rnd x e c y tr L tr' :
  RelaxedBayesMIHM.forward_locals s rnd x e c y tr = Ok (L, tr') ->
  (if RelaxedBayesMIHM.concatenate_interaction_vars s then cat1 c x else Ok c)
    = Ok (all_linear_vars L) /\
  Linear_forward (RelaxedBayesMIHM.controlled_var_weights s) (all_linear_vars L)
    = Ok (controlled_term L) /\
  (if RelaxedBayesMIHM.svd s
   then (B <- attr (RelaxedBayesMIHM.svd_matrix s) ;;
         k <- attr (RelaxedBayesMIHM.k_dim s) ;; matmul x (slice_cols k B))%res
   else Ok x) = Ok (reduced_input L) /\
  (exists hidden,
     RelaxedBayesMIHM.forward_layers s rnd 0 (RelaxedBayesMIHM.layers s)
       (reduced_input L) = Ok hidden /\
     if RelaxedBayesMIHM.batch_norm s
     then exists b b', RelaxedBayesMIHM.bn s = Some b /\
            BatchNorm1d_forward b (RelaxedBayesMIHM.training s) hidden
              = Ok (predicted_index L, b') /\ bn_after L = Some b'
     else predicted_index L = hidden /\ bn_after L = RelaxedBayesMIHM.bn s) /\
  interactor_spec (RelaxedBayesMIHM.include_interactor_bias s)
    (RelaxedBayesMIHM.interactor_bias s) rnd e (interactor L) /\
  mul (sampled rnd "interactor_main_weight"
         (RelaxedBayesMIHM.interactor_main_weight s))
    (interactor L) = Ok (interactor_main_term L) /\
  (exists t, mul (sampled rnd "interaction_weight"
                    (RelaxedBayesMIHM.interaction_weight s))
               (interactor L) = Ok t /\
             mul t (predicted_index L) = Ok (predicted_interaction_term L)) /\
  (exists t1 t2,
     add (predicted_interaction_term L) (controlled_term L) = Ok t1 /\
     add t1 (interactor_main_term L) = Ok t2 /\
     if RelaxedBayesMIHM.concatenate_interaction_vars s
     then predicted_epi L = t2
     else exists w u, RelaxedBayesMIHM.index_main_weight s = Some w /\
            mul (predicted_index L) w = Ok u /\
            add t2 u = Ok (predicted_epi L)) /\
  sigma L = sampled rnd "sigma" (HalfNormal 1 []) /\
  nrows (predicted_epi L) <> 0.
Proof.
  intros H. unfold RelaxedBayesMIHM.forward_locals in H.
  unfold interactor_spec.
  destruct (RelaxedBayesMIHM.concatenate_interaction_vars s),
           (RelaxedBayesMIHM.batch_norm s),
           (RelaxedBayesMIHM.include_interactor_bias s);
    steps; simpl; repeat split; eauto 10.
Qed.

End ForwardInversion.

(* ================================================================== *)
(** ** Facts about the constructors *)

Section ConstructorFacts.

Lemma layer_shapes_init th a n0 :
  n0 = index_input_size a ->
  map linear_shape
    (map (fun i => Linear_init th i (nth i (n0 :: a_hidden_layer_sizes a) 0)
                     (nth (i + 1) (n0 :: a_hidden_layer_sizes a) 0))
       (seq 0 (length (a_hidden_layer_sizes a))))
  = layer_shapes a.
Proof.
  intros ->. unfold layer_shapes. rewrite map_map. apply map_ext.
  intros i. unfold linear_shape, Linear_init.
  cbn [in_features out_features weight bias].
  now rewrite !nrows_build, !ncols_build.
Qed.

Ltac bayes_fields :=
  cbn [BayesMIHM.concatenate_interaction_vars BayesMIHM.dropout BayesMIHM.device
       BayesMIHM.batch_norm BayesMIHM.bn BayesMIHM.svd_matrix BayesMIHM.k_dim
       BayesMIHM.svd BayesMIHM.num_layers BayesMIHM.layers
       BayesMIHM.controlled_var_weights BayesMIHM.interaction_weight
       BayesMIHM.interactor_main_weight BayesMIHM.index_main_weight
       BayesMIHM.include_interactor_bias BayesMIHM.interactor_bias
       BayesMIHM.training].

Ltac relaxed_fields :=
  cbn [RelaxedBayesMIHM.concatenate_interaction_vars RelaxedBayesMIHM.dropout
       RelaxedBayesMIHM.device RelaxedBayesMIHM.batch_norm RelaxedBayesMIHM.bn
       RelaxedBayesMIHM.svd_matrix RelaxedBayesMIHM.k_dim RelaxedBayesMIHM.svd
       RelaxedBayesMIHM.num_layers RelaxedBayesMIHM.layers
       RelaxedBayesMIHM.controlled_var_weights RelaxedBayesMIHM.interaction_weight
       RelaxedBayesMIHM.interactor_main_weight RelaxedBayesMIHM.index_main_weight
       RelaxedBayesMIHM.include_interactor_bias RelaxedBayesMIHM.interactor_bias
       RelaxedBayesMIHM.training].

(** The three outcomes of [BayesMIHM.__init__]. *)
Lemma bayes_init_cases a th :
  match BayesMIHM.init a th with
  | Ok s0 => valid_dropout a = true /\ bad_reduction a = false /\
             bayes_arch s0 = bayes_arch_of a /\ BayesMIHM.training s0 = true
  | Raise e => (valid_dropout a = false /\ e = ValueError) \/
               (valid_dropout a = true /\ bad_reduction a = true /\
                e = AssertionError)
  end.
Proof.
  unfold BayesMIHM.init, Dropout_init. fold (valid_dropout a).
  unfold bad_reduction.
  destruct (valid_dropout a); [|left; auto]. cbn [rbind].
  destruct (a_svd a) eqn:Hsvd; cbn [andb].
  - destruct (a_svd_matrix a) as [B|] eqn:HB; [|right; auto].
    rewrite Nat.ltb_antisym.
    destruct (a_k_dim a <=? a_interaction_var_size a) eqn:Hk; cbn [rbind negb orb];
      [|right; auto].
    repeat split. unfold bayes_arch, bayes_arch_of, common_arch. bayes_fields.
    rewrite Hsvd, HB, layer_shapes_init by (unfold index_input_size; now rewrite Hsvd).
    unfold control_input_size. destruct (a_batch_norm a); reflexivity.
  - repeat split. unfold bayes_arch, bayes_arch_of, common_arch. bayes_fields.
    rewrite Hsvd, layer_shapes_init by (unfold index_input_size; now rewrite Hsvd).
    unfold control_input_size. destruct (a_batch_norm a); reflexivity.
Qed.

(** The three outcomes of [RelaxedBayesMIHM.__init__]. *)
Lemma relaxed_init_cases a th :
  match RelaxedBayesMIHM.init a th with
  | Ok s0 => valid_dropout a = true /\ bad_reduction a = false /\
             relaxed_arch s0 = relaxed_arch_of a /\
             RelaxedBayesMIHM.training s0 = true
  | Raise e => (valid_dropout a = false /\ e = ValueError) \/
               (valid_dropout a = true /\ bad_reduction a = true /\
                e = AssertionError)
  end.
Proof.
  unfold RelaxedBayesMIHM.init, Dropout_init. fold (valid_dropout a).
  unfold bad_reduction.
  destruct (valid_dropout a); [|left; auto]. cbn [rbind].
  destruct (a_svd a) eqn:Hsvd; cbn [andb].
  - destruct (a_svd_matrix a) as [B|] eqn:HB; [|right; auto].
    rewrite Nat.ltb_antisym.
    destruct (a_k_dim a <=? a_interaction_var_size a) eqn:Hk; cbn [rbind negb orb];
      [|right; auto].
    repeat split. unfold relaxed_arch, relaxed_arch_of, common_arch. relaxed_fields.
    rewrite Hsvd, HB, layer_shapes_init by (unfold index_input_size; now rewrite Hsvd).
    unfold control_input_size, linear_shape, Linear_init.
    cbn [in_features out_features weight bias].
    rewrite !nrows_build, !ncols_build.
    destruct (a_batch_norm a), (a_concatenate_interaction_vars a); reflexivity.
  - repeat split. unfold relaxed_arch, relaxed_arch_of, common_arch. relaxed_fields.
    rewrite Hsvd, layer_shapes_init by (unfold index_input_size; now rewrite Hsvd).
    unfold control_input_size, linear_shape, Linear_init.
    cbn [in_features out_features weight bias].
    rewrite !nrows_build, !ncols_build.
    destruct (a_batch_norm a), (a_concatenate_interaction_vars a); reflexivity.
Qed.

Lemma bayes_model_arch a s :
  bayes_model a s ->
  valid_dropout a = true /\ bad_reduction a = false /\
  bayes_arch s = bayes_arch_of a.
Proof.
  intros (th & s0 & Hinit & Harch).
  pose proof (bayes_init_cases a th) as H. rewrite Hinit in H.
  destruct H as (? & ? & ? & ?). repeat split; congruence.
Qed.

Lemma relaxed_model_arch a s :
  relaxed_model a s ->
  valid_dropout a = true /\ bad_reduction a = false /\
  relaxed_arch s = relaxed_arch_of a.
Proof.
  intros (th & s0 & Hinit & Harch).
  pose proof (relaxed_init_cases a th) as H. rewrite Hinit in H.
  destruct H as (? & ? & ? & ?). repeat split; congruence.
Qed.

End ConstructorFacts.

(* ================================================================== *)
(** ** Construction: the checks on the reduction *)

Section Construction.

Lemma bad_reduction_spec a :
  bad_reduction a = true <->
  a_svd a = true /\
  (a_svd_matrix a = None \/ a_interaction_var_size a < a_k_dim a).
Proof.
  unfold bad_reduction. rewrite andb_true_iff, orb_true_iff, Nat.ltb_lt.
  destruct (a_svd_matrix a); intuition discriminate.
Qed.

Lemma bayes_init_succeeded a th :
  succeeded (BayesMIHM.init a th) = valid_dropout a && negb (bad_reduction a).
Proof.
  pose proof (bayes_init_cases a th) as H.
  destruct (BayesMIHM.init a th); simpl.
  - destruct H as (-> & -> & _). reflexivity.
  - destruct H as [[-> _]|(-> & -> & _)]; reflexivity.
Qed.

Lemma relaxed_init_succeeded a th :
  succeeded (RelaxedBayesMIHM.init a th)
  = valid_dropout a && negb (bad_reduction a).
Proof.
  pose proof (relaxed_init_cases a th) as H.
  destruct (RelaxedBayesMIHM.init a th); simpl.
  - destruct H as (-> & -> & _). reflexivity.
  - destruct H as [[-> _]|(-> & -> & _)]; reflexivity.
Qed.

(** C7.  When reduction is requested and either no basis is supplied or
    [k_dim] exceeds the interaction-predictor dimension, the constructor of
    either variant raises and no model object results.  In every other case
    neither constructor raises the assertion error of these checks, and (the
    dropout probability being one [nn.Dropout] accepts) both return a
    model. *)
Theorem C7_reduction_checks_at_construction (a : args) (th : initializer) :
  (a_svd a = true /\
   (a_svd_matrix a = None \/ a_interaction_var_size a < a_k_dim a) ->
   (exists e, BayesMIHM.init a th = Raise e) /\
   (exists e, RelaxedBayesMIHM.init a th = Raise e)) /\
  (~ (a_svd a = true /\
      (a_svd_matrix a = None \/ a_interaction_var_size a < a_k_dim a)) ->
   BayesMIHM.init a th <> Raise AssertionError /\
   RelaxedBayesMIHM.init a th <> Raise AssertionError /\
   (valid_dropout a = true ->
    (exists s, BayesMIHM.init a th = Ok s) /\
    (exists s, RelaxedBayesMIHM.init a th = Ok s))).
Proof.
  pose proof (bayes_init_cases a th) as Hb.
  pose proof (relaxed_init_cases a th) as Hr.
  split.
  - intros Hbad%bad_reduction_spec.
    destruct (BayesMIHM.init a th), (RelaxedBayesMIHM.init a th);
      try (destruct Hb as (_ & Hb & _); congruence);
      try (destruct Hr as (_ & Hr & _); congruence); eauto.
  - intros Hgood.
    assert (Hbad : bad_reduction a = false).
    { destruct (bad_reduction a) eqn:E; [|reflexivity].
      apply bad_reduction_spec in E. contradiction. }
    repeat split.
    + intros E. rewrite E in Hb.
      destruct Hb as [[_ ?]|(_ & ? & _)]; congruence.
    + intros E. rewrite E in Hr.
      destruct Hr as [[_ ?]|(_ & ? & _)]; congruence.
    + destruct (BayesMIHM.init a th); [eauto|].
      destruct Hb as [[? _]|(_ & ? & _)]; congruence.
    + destruct (RelaxedBayesMIHM.init a th); [eauto|].
      destruct Hr as [[? _]|(_ & ? & _)]; congruence.
Qed.

End Construction.

(* ================================================================== *)
(** ** The effective exposure *)

Section Exposure.
Context {num : Numerics}.

Lemma bdim_1_r n : bdim n 1 = Some n.
Proof.
  unfold bdim. destruct (Nat.eqb_spec n 1); [reflexivity|]. reflexivity.
Qed.

Lemma bdim_1_l n : bdim 1 n = Some n.
Proof.
  unfold bdim. destruct (Nat.eqb_spec 1 n); [now subst|]. reflexivity.
Qed.

Lemma nrows_unsqueeze1 e : nrows (unsqueeze1 e) = length e.
Proof. unfold nrows, unsqueeze1. simpl. apply length_map. Qed.

Lemma entry_unsqueeze1 e i : entry (unsqueeze1 e) i 0 = nth i e 0%Q.
Proof.
  unfold entry, unsqueeze1. simpl. revert i.
  induction e as [|q e IH]; intros [|i]; simpl; auto.
Qed.

Lemma thresholded_exposure rnd name sc e d t :
  sub (unsqueeze1 e) (sampled rnd name (HalfNormal sc [1])) = Ok d ->
  maximum (scalar 0) d = Ok t ->
  nrows t = length e /\ ncols t = 1 /\
  forall i, i < length e ->
    entry t i 0 = Qmax 0 (nth i e 0 - draw rnd name 0)%Q.
Proof.
  intros Hd Ht.
  destruct (bcast_inv _ _ _ _ Hd) as (N & C & HN & HC & ->).
  rewrite nrows_unsqueeze1 in HN. unfold sampled in HN, HC. simpl in HN, HC.
  rewrite nrows_build in HN. rewrite bdim_1_r in HN. injection HN as <-.
  injection HC as <-.
  destruct (bcast_inv _ _ _ _ Ht) as (N & C & HN & HC & ->).
  rewrite nrows_build in HN. simpl in HN, HC.
  change (nrows (scalar 0)) with 1 in HN. rewrite bdim_1_l in HN.
  injection HN as <-. injection HC as <-.
  rewrite nrows_build, ncols_build. repeat split.
  intros i Hi. rewrite entry_build by lia.
  assert (B1 : forall k, bidx 1 k = 0) by reflexivity.
  unfold bread at 1. change (nrows (scalar 0)) with 1.
  change (ncols (scalar 0)) with 1. rewrite !B1.
  unfold bread at 1. rewrite nrows_build, ncols_build, B1, (bidx_lt _ _ Hi).
  rewrite entry_build by lia.
  unfold bread. rewrite nrows_unsqueeze1, (bidx_lt _ _ Hi).
  change (ncols (unsqueeze1 e)) with 1. rewrite B1, entry_unsqueeze1.
  unfold sampled. rewrite nrows_build, ncols_build. simpl fst. simpl snd.
  rewrite !B1, entry_build by lia. reflexivity.
Qed.

(** What [forward] of either class has computed for the exposure, for a
    model built from [a]. *)
Lemma interactor_of_model a m rnd x e c y tr L tr' :
  is_model a m ->
  forward_locals_of m rnd x e c y tr = Ok (L, tr') ->
  interactor_spec (a_include_interactor_bias a)
    (if a_include_interactor_bias a then Some (HalfNormal 1 [1]) else None)
    rnd e (interactor L).
Proof.
  destruct m as [s|s]; simpl; intros Hm H.
  - apply bayes_model_arch in Hm. destruct Hm as (_ & _ & Ha).
    apply bayes_forward_locals_inv in H.
    destruct H as (_ & _ & _ & _ & H & _).
    pose proof (f_equal (@arch_include_interactor_bias _ _) Ha) as E1.
    pose proof (f_equal (@arch_interactor_bias _ _) Ha) as E2.
    simpl in E1, E2. now rewrite E1, E2 in H.
  - apply relaxed_model_arch in Hm. destruct Hm as (_ & _ & Ha).
    apply relaxed_forward_locals_inv in H.
    destruct H as (_ & _ & _ & _ & H & _).
    pose proof (f_equal (@arch_include_interactor_bias _ _) Ha) as E1.
    pose proof (f_equal (@arch_interactor_bias _ _) Ha) as E2.
    simpl in E1, E2. now rewrite E1, E2 in H.
Qed.

Lemma rows_column N f :
  rows (build N 1 f) = map (fun i => [f i 0]) (seq 0 N).
Proof. reflexivity. Qed.

Lemma map_nth_seq A B (g : A -> B) (d : A) (l : list A) :
  map (fun i => g (nth i l d)) (seq 0 (length l)) = map g l.
Proof.
  induction l as [|a l IH]; [reflexivity|].
  cbn [length seq map nth]. f_equal.
  rewrite <- seq_shift, map_map. exact IH.
Qed.

Lemma thresholded_rows rnd name sc e d t :
  sub (unsqueeze1 e) (sampled rnd name (HalfNormal sc [1])) = Ok d ->
  maximum (scalar 0) d = Ok t ->
  rows t = map (fun q => [Qmax 0 (q - draw rnd name 0)%Q]) e.
Proof.
  intros Hd Ht.
  destruct (thresholded_exposure _ _ _ _ _ _ Hd Ht) as (Hn & Hc & He).
  destruct (bcast_inv _ _ _ _ Ht) as (N & C & _ & _ & Et).
  rewrite Et in Hn, Hc. rewrite nrows_build in Hn. rewrite ncols_build in Hc.
  subst N C. rewrite Et, rows_column.
  rewrite <- (map_nth_seq _ _ (fun q => [Qmax 0 (q - draw rnd name 0)%Q]) 0%Q e).
  apply map_ext_in. intros i Hi. apply in_seq in Hi.
  rewrite <- (He i) by lia. rewrite Et, entry_build by lia. reflexivity.
Qed.

Lemma nonneg_thresholded b v :
  is_nan v = false -> nonneg (fmaximum (fnum 0) (fsub v (fnum b))) = true.
Proof.
  destruct v as [q| | |]; cbn; try reflexivity; try discriminate.
  intros _. apply Qle_bool_iff. apply Q.le_max_l.
Qed.

(** C4.  In every successful call of [forward], of either class, on exact
    numbers: with the threshold bias enabled the effective exposure is a
    column whose [i]-th element is [max(0, exposure_i - threshold_bias)],
    hence not negative; with the threshold bias disabled it is the exposure
    itself, as a column; and its rows are those of the step over
    floating-point values.  On floating-point values, for a finite
    threshold bias and an exposure without NaN, every element of the
    effective exposure with the threshold bias is
    [max(0, exposure_i - threshold_bias)] and is not negative (an infinite
    exposure included); without the threshold bias the effective exposure is
    the exposure. *)
Theorem C4_effective_exposure :
  (forall (a : args) (m : model) (rnd : randomness) (x : tensor) (e : list Q)
          (c : tensor) (y : option tensor) (tr : list site) (L : locals)
          (tr' : list site),
     is_model a m ->
     forward_locals_of m rnd x e c y tr = Ok (L, tr') ->
     (if a_include_interactor_bias a
      then nrows (interactor L) = length e /\ ncols (interactor L) = 1 /\
           forall i, i < length e ->
             entry (interactor L) i 0
               = Qmax 0 (nth i e 0 - draw rnd "interactor_bias" 0)%Q /\
             (0 <= entry (interactor L) i 0)%Q
      else interactor L = unsqueeze1 e) /\
     map (map fnum) (rows (interactor L))
     = effective_exposure (a_include_interactor_bias a)
         (fnum (draw rnd "interactor_bias" 0)) (map fnum e)) /\
  (forall (bias : Q) (exposure : list fl),
     forallb (fun v => negb (is_nan v)) exposure = true ->
     effective_exposure true (fnum bias) exposure
     = map (fun v => [fmaximum (fnum 0) (fsub v (fnum bias))]) exposure /\
     forallb (forallb nonneg) (effective_exposure true (fnum bias) exposure)
     = true) /\
  (forall (bias : fl) (exposure : list fl),
     effective_exposure false bias exposure = map (fun v => [v]) exposure).
Proof.
  split; [|split].
  - intros a m rnd x e c y tr L tr' Hm H.
    pose proof (interactor_of_model _ _ _ _ _ _ _ _ _ _ Hm H) as Hi.
    unfold interactor_spec in Hi. unfold effective_exposure.
    destruct (a_include_interactor_bias a).
    + destruct Hi as (pr & d & [= <-] & Hd & Ht).
      destruct (thresholded_exposure _ _ _ _ _ _ Hd Ht) as (Hn & Hc & He).
      split.
      * repeat split; auto. rewrite (He i) by assumption. apply Q.le_max_l.
      * rewrite (thresholded_rows _ _ _ _ _ _ Hd Ht), !map_map. reflexivity.
    + split; [assumption|]. rewrite Hi. unfold unsqueeze1. cbn [rows].
      rewrite !map_map. reflexivity.
  - intros bias exposure Hfin. split; [reflexivity|].
    unfold effective_exposure. rewrite forallb_forall in *.
    intros r Hr. apply in_map_iff in Hr. destruct Hr as (v & <- & Hv).
    cbn [forallb]. rewrite andb_true_r. apply nonneg_thresholded.
    specialize (Hfin v Hv). now destruct (is_nan v).
  - reflexivity.
Qed.

End Exposure.

(** C4 at a batch of two observations, for a model of each class, and at a
    floating-point exposure with an infinity. *)
Lemma C4_effective_exposure_witness :
  (exists L tr',
     forward_locals_of (num := ex_numerics) (Bayes ex_bayes) ex_rnd ex_x ex_e ex_c
       None [] = Ok (L, tr') /\
     (nrows (interactor L) = length ex_e /\ ncols (interactor L) = 1 /\
      forall i, i < length ex_e ->
        entry (interactor L) i 0
          = Qmax 0 (nth i ex_e 0 - draw ex_rnd "interactor_bias" 0)%Q /\
        (0 <= entry (interactor L) i 0)%Q) /\
     map (map fnum) (rows (interactor L))
     = effective_exposure true (fnum (draw ex_rnd "interactor_bias" 0))
         (map fnum ex_e)) /\
  (exists L tr',
     forward_locals_of (num := ex_numerics) (Relaxed ex_relaxed) ex_rnd ex_x ex_e
       ex_c None [] = Ok (L, tr') /\
     (nrows (interactor L) = length ex_e /\ ncols (interactor L) = 1 /\
      forall i, i < length ex_e ->
        entry (interactor L) i 0
          = Qmax 0 (nth i ex_e 0 - draw ex_rnd "interactor_bias" 0)%Q /\
        (0 <= entry (interactor L) i 0)%Q) /\
     map (map fnum) (rows (interactor L))
     = effective_exposure true (fnum (draw ex_rnd "interactor_bias" 0))
         (map fnum ex_e)) /\
  forallb (forallb nonneg)
    (effective_exposure true (fnum 2) [fnum 10; fnum 1; pinf; ninf]) = true.
Proof.
  split; [|split].
  - assert (Hm : is_model ex_args (Bayes ex_bayes))
      by (exists ex_init, ex_bayes; split; vm_compute; reflexivity).
    eassert (Hrun : forward_locals_of (num := ex_numerics) (Bayes ex_bayes) ex_rnd
                      ex_x ex_e ex_c None [] = Ok (_, _))
      by (vm_compute; reflexivity).
    eexists. eexists. split; [exact Hrun|].
    exact (proj1 (@C4_effective_exposure ex_numerics) ex_args (Bayes ex_bayes)
             ex_rnd ex_x ex_e ex_c None [] _ _ Hm Hrun).
  - assert (Hm : is_model ex_args (Relaxed ex_relaxed))
      by (exists ex_init, ex_relaxed; split; vm_compute; reflexivity).
    eassert (Hrun : forward_locals_of (num := ex_numerics) (Relaxed ex_relaxed)
                      ex_rnd ex_x ex_e ex_c None [] = Ok (_, _))
      by (vm_compute; reflexivity).
    eexists. eexists. split; [exact Hrun|].
    exact (proj1 (@C4_effective_exposure ex_numerics) ex_args (Relaxed ex_relaxed)
             ex_rnd ex_x ex_e ex_c None [] _ _ Hm Hrun).
  - exact (proj2 (proj1 (proj2 (@C4_effective_exposure ex_numerics)) 2%Q
                    [fnum 10; fnum 1; pinf; ninf] eq_refl)).
Defined.

(** An exposure with a NaN, threshold bias 2: the effective exposure of the
    second observation is NaN, which is not [>= 0]. *)
Lemma C4_counterexample :
  effective_exposure true (fnum 2) [fnum 10; nan] = [[fnum 8]; [nan]] /\
  forallb (forallb nonneg) (effective_exposure true (fnum 2) [fnum 10; nan])
  = false.
Proof. split; vm_compute; reflexivity. Qed.

(* ================================================================== *)
(** ** The composition of the predicted outcome *)

Lemma inb_bcast f a b t i j :
  bcast f a b = Ok t -> inb t i j -> inb a i j /\ inb b i j.
Proof.
  intros H [Hi Hj].
  destruct (bcast_inv _ _ _ _ H) as (N & C & HN & HC & ->).
  rewrite nrows_build in Hi. rewrite ncols_build in Hj.
  destruct (bdim_inv _ _ _ HN) as [Ha Hb], (bdim_inv _ _ _ HC) as [Hc Hd].
  unfold inb. repeat split; lia.
Qed.

Lemma bread_inb f a b t i j :
  bcast f a b = Ok t -> inb t i j ->
  bread t i j = f (bread a i j) (bread b i j).
Proof. intros H [Hi Hj]. now apply bread_bcast. Qed.

Lemma inb_entry t i j : i < nrows t -> j < ncols t -> inb t i j.
Proof. unfold inb. auto. Qed.

Lemma bread_sampled_one rnd name fn i j :
  shape_of fn = (1, 1) -> bread (sampled rnd name fn) i j = draw rnd name 0.
Proof.
  intros E. unfold bread, sampled. rewrite E. simpl fst. simpl snd.
  rewrite nrows_build, ncols_build. 
  change (bidx 1 i) with 0. change (bidx 1 j) with 0.
  now rewrite entry_build by lia.
Qed.

Section Composition.
Context {num : Numerics}.

Lemma bayes_outcome_entries a s rnd x e c y tr L tr' i j :
  bayes_model a s ->
  BayesMIHM.forward_locals s rnd x e c y tr = Ok (L, tr') ->
  i < nrows (predicted_epi L) -> j < ncols (predicted_epi L) ->
  entry (predicted_epi L) i j =
    if a_concatenate_interaction_vars a
    then (draw rnd "interaction_weight" 0 * bread (interactor L) i j
            * bread (predicted_index L) i j
          + bread (controlled_term L) i j
          + draw rnd "interactor_main_weight" 0 * bread (interactor L) i j)%Q
    else (draw rnd "interaction_weight" 0 * bread (interactor L) i j
            * bread (predicted_index L) i j
          + bread (controlled_term L) i j
          + draw rnd "interactor_main_weight" 0 * bread (interactor L) i j
          + bread (predicted_index L) i j * draw rnd "index_main_weight" 0)%Q.
Proof.
  intros Hm H Hi Hj.
  apply bayes_model_arch in Hm. destruct Hm as (_ & _ & Ha).
  apply bayes_forward_locals_inv in H.
  destruct H as (_ & _ & _ & _ & _ & Hmain & (t & Ht & Hpit) & (t1 & t2 & H1 & H2 & Hepi) & _).
  pose proof (f_equal (@arch_concatenate_interaction_vars _ _) Ha) as E1.
  pose proof (f_equal (@arch_interaction_weight _ _) Ha) as E2.
  pose proof (f_equal (@arch_interactor_main_weight _ _) Ha) as E3.
  pose proof (f_equal (@arch_index_main_weight _ _) Ha) as E4.
  simpl in E1, E2, E3, E4. rewrite E1 in Hepi. rewrite E2 in Ht. rewrite E3 in Hmain.
  rewrite <- (entry_bread _ _ _ Hi Hj).
  pose proof (inb_entry _ _ _ Hi Hj) as B.
  unfold add, mul in *.
  destruct (a_concatenate_interaction_vars a).
  - subst t2.
    rewrite (bread_inb _ _ _ _ _ _ H2 B).
    destruct (inb_bcast _ _ _ _ _ _ H2 B) as [B1 B2].
    rewrite (bread_inb _ _ _ _ _ _ H1 B1).
    destruct (inb_bcast _ _ _ _ _ _ H1 B1) as [B3 B4].
    rewrite (bread_inb _ _ _ _ _ _ Hpit B3).
    destruct (inb_bcast _ _ _ _ _ _ Hpit B3) as [B5 B6].
    rewrite (bread_inb _ _ _ _ _ _ Ht B5).
    rewrite (bread_inb _ _ _ _ _ _ Hmain B2).
    now rewrite !bread_sampled_one by reflexivity.
  - destruct Hepi as (pr & u & Hpr & Hu & Hepi). rewrite E4 in Hpr.
    injection Hpr as <-.
    rewrite (bread_inb _ _ _ _ _ _ Hepi B).
    destruct (inb_bcast _ _ _ _ _ _ Hepi B) as [B0 Bu].
    rewrite (bread_inb _ _ _ _ _ _ H2 B0).
    destruct (inb_bcast _ _ _ _ _ _ H2 B0) as [B1 B2].
    rewrite (bread_inb _ _ _ _ _ _ H1 B1).
    destruct (inb_bcast _ _ _ _ _ _ H1 B1) as [B3 B4].
    rewrite (bread_inb _ _ _ _ _ _ Hpit B3).
    destruct (inb_bcast _ _ _ _ _ _ Hpit B3) as [B5 B6].
    rewrite (bread_inb _ _ _ _ _ _ Ht B5).
    rewrite (bread_inb _ _ _ _ _ _ Hmain B2).
    rewrite (bread_inb _ _ _ _ _ _ Hu Bu).
    now rewrite !bread_sampled_one by reflexivity.
Qed.

(** C2.  In every successful call of [BayesMIHM.forward] the element
    [(i, j)] of the predicted outcome is interaction term + controlled term
    + exposure main-effect term, where the interaction term is interaction
    weight x effective exposure x latent index and the main-effect term is
    main-effect weight x effective exposure; the product latent index x
    index main-effect weight is added exactly when
    [concatenate_interaction_vars] is false.  When it is true, the
    linear-control input has [controlled_var_size + interaction_var_size]
    columns, which is the input size of the control weights, and the model
    has no index main-effect weight. *)
Theorem C2_predicted_outcome_composition (a : args) (s : BayesMIHM.self)
    (rnd : randomness) (x : tensor) (e : list Q) (c : tensor)
    (y : option tensor) (tr : list site) (out : tensor) (tr' : list site) :
  bayes_model a s ->
  BayesMIHM.forward s rnd x e c y tr = Ok (out, tr') ->
  exists L,
    BayesMIHM.forward_locals s rnd x e c y tr = Ok (L, tr') /\
    out = predicted_epi L /\
    (forall i j, i < nrows out -> j < ncols out ->
       entry out i j =
         if a_concatenate_interaction_vars a
         then (draw rnd "interaction_weight" 0 * bread (interactor L) i j
                 * bread (predicted_index L) i j
               + bread (controlled_term L) i j
               + draw rnd "interactor_main_weight" 0 * bread (interactor L) i j)%Q
         else (draw rnd "interaction_weight" 0 * bread (interactor L) i j
                 * bread (predicted_index L) i j
               + bread (controlled_term L) i j
               + draw rnd "interactor_main_weight" 0 * bread (interactor L) i j
               + bread (predicted_index L) i j
                 * draw rnd "index_main_weight" 0)%Q) /\
    (if a_concatenate_interaction_vars a
     then ncols (all_linear_vars L)
            = a_controlled_var_size a + a_interaction_var_size a /\
          linear_in (BayesMIHM.controlled_var_weights s)
            = a_controlled_var_size a + a_interaction_var_size a /\
          BayesMIHM.index_main_weight s = None
     else all_linear_vars L = c /\
          linear_in (BayesMIHM.controlled_var_weights s) = a_controlled_var_size a /\
          BayesMIHM.index_main_weight s = Some (Normal 0 1 [1])).
Proof.
  intros Hm H. unfold BayesMIHM.forward in H.
  apply bind_ok in H. destruct H as (L & tr1 & HL & H).
  apply ret_ok in H. destruct H as [-> ->].
  exists L. split; [assumption|]. split; [reflexivity|].
  split.
  - intros i j Hi Hj. eapply bayes_outcome_entries; eauto.
  - pose proof Hm as Hm'. apply bayes_model_arch in Hm'.
    destruct Hm' as (_ & _ & Ha).
    apply bayes_forward_locals_inv in HL.
    destruct HL as (Hall & Hct & _).
    pose proof (f_equal (@arch_concatenate_interaction_vars _ _) Ha) as E1.
    pose proof (f_equal (@arch_controlled_var_weights _ _) Ha) as E2.
    pose proof (f_equal (@arch_index_main_weight _ _) Ha) as E3.
    simpl in E1, E2, E3. rewrite E1 in Hall. rewrite E2 in Hct |- *.
    rewrite E3. unfold control_input_size in *.
    destruct (a_concatenate_interaction_vars a).
    + repeat split. unfold F_linear in Hct.
      destruct (Nat.eqb_spec (ncols (all_linear_vars L))
                  (ncols (sampled rnd "controlled_var_weights.weight"
                            (weight_prior
                               (mkPyroLinear
                                  (a_controlled_var_size a + a_interaction_var_size a)
                                  1
                                  (Normal 0 1
                                     [1; a_controlled_var_size a
                                         + a_interaction_var_size a])
                                  (Normal 0 5 [1]))))))
        as [E|E]; [|discriminate].
      exact E.
    + repeat split. now injection Hall.
Qed.

End Composition.

(** C2 at a batch of two observations, without concatenation. *)
Lemma C2_predicted_outcome_composition_witness :
  exists out tr',
    BayesMIHM.forward (num := ex_numerics) ex_bayes ex_rnd ex_x ex_e ex_c None []
      = Ok (out, tr') /\
    exists L,
      BayesMIHM.forward_locals (num := ex_numerics) ex_bayes ex_rnd ex_x ex_e ex_c
        None [] = Ok (L, tr') /\
      out = predicted_epi L /\
      (forall i j, i < nrows out -> j < ncols out ->
         entry out i j =
           (draw ex_rnd "interaction_weight" 0 * bread (interactor L) i j
              * bread (predicted_index L) i j
            + bread (controlled_term L) i j
            + draw ex_rnd "interactor_main_weight" 0 * bread (interactor L) i j
            + bread (predicted_index L) i j
              * draw ex_rnd "index_main_weight" 0)%Q) /\
      (all_linear_vars L = ex_c /\
       linear_in (BayesMIHM.controlled_var_weights ex_bayes) = 3 /\
       BayesMIHM.index_main_weight ex_bayes = Some (Normal 0 1 [1])).
Proof.
  assert (Hm : bayes_model ex_args ex_bayes)
    by (exists ex_init, ex_bayes; split; vm_compute; reflexivity).
  eassert (Hrun : BayesMIHM.forward (num := ex_numerics) ex_bayes ex_rnd ex_x ex_e
                    ex_c None [] = Ok (_, _))
    by (vm_compute; reflexivity).
  eexists. eexists. split; [exact Hrun|].
  exact (@C2_predicted_outcome_composition ex_numerics ex_args ex_bayes ex_rnd
           ex_x ex_e ex_c None [] _ _ Hm Hrun).
Defined.

(* ================================================================== *)
(** ** The layers of the index network *)

Section Layers.
Context {num : Numerics}.

Lemma last_map A B (f : A -> B) l d : last (map f l) (f d) = f (last l d).
Proof.
  induction l as [|x l IH]; [reflexivity|].
  destruct l as [|y l]; [reflexivity|]. exact IH.
Qed.

Lemma last_indep A (l : list A) d d' : l <> [] -> last l d = last l d'.
Proof.
  induction l as [|x l IH]; [congruence|]. intros _.
  destruct l as [|y l]; [reflexivity|]. apply IH. discriminate.
Qed.

Lemma last_nth A (l : list A) d : last l d = nth (length l - 1) l d.
Proof.
  induction l as [|x l IH]; [reflexivity|].
  destruct l as [|y l]; [reflexivity|].
  change (last (x :: y :: l) d) with (last (y :: l) d). rewrite IH.
  simpl. now rewrite Nat.sub_0_r.
Qed.

Lemma layer_shapes_ends a ls :
  map linear_shape ls = layer_shapes a ->
  a_hidden_layer_sizes a <> [] ->
  ls <> [] /\
  in_features (hd no_layer ls) = index_input_size a /\
  ncols (weight (hd no_layer ls)) = index_input_size a /\
  out_features (last ls no_layer) = last (a_hidden_layer_sizes a) 0 /\
  nrows (weight (last ls no_layer)) = last (a_hidden_layer_sizes a) 0.
Proof.
  intros H Hne. unfold layer_shapes in H.
  destruct (a_hidden_layer_sizes a) as [|h0 hs] eqn:Eh; [congruence|].
  set (sizes := index_input_size a :: h0 :: hs) in *.
  set (g := fun i : nat => _) in H.
  assert (Hls : ls <> []).
  { intros ->. discriminate H. }
  split; [exact Hls|].
  assert (Hhd : linear_shape (hd no_layer ls) = g 0).
  { destruct ls as [|l ls']; [congruence|]. exact (f_equal (hd (g 0)) H). }
  assert (Hlast : linear_shape (last ls no_layer) = g (length hs)).
  { rewrite <- last_map, H.
    change (length (h0 :: hs)) with (S (length hs)).
    rewrite seq_S, map_app. simpl. apply last_last. }
  unfold linear_shape, g in Hhd, Hlast.
  injection Hhd as E1 E2 E3 E4 E5 E6. injection Hlast as F1 F2 F3 F4 F5 F6.
  rewrite E1, E4, F2, F3. repeat split.
  - rewrite Nat.add_1_r. unfold sizes. cbn [nth].
    rewrite last_nth. simpl. now rewrite Nat.sub_0_r.
  - rewrite Nat.add_1_r. unfold sizes. cbn [nth].
    rewrite last_nth. simpl. now rewrite Nat.sub_0_r.
Qed.

Lemma F_linear_ok x W b v :
  F_linear x W b = Ok v ->
  ncols x = ncols W /\ nrows v = nrows x /\ ncols v = nrows W.
Proof.
  unfold F_linear. destruct (Nat.eqb_spec (ncols x) (ncols W)); [|discriminate].
  intros [= <-]. now rewrite nrows_build, ncols_build.
Qed.

Lemma ncols_map_gelu x : ncols (map_gelu x) = ncols x.
Proof. reflexivity. Qed.

Lemma ncols_dropout d tr k x : ncols (Dropout_forward d tr k x) = ncols x.
Proof. unfold Dropout_forward. now destruct tr. Qed.

(** A successful pass through a non-empty list of layers: the input has the
    columns the first layer reads, the output those the last one writes. *)
Lemma bayes_forward_layers_cols s rnd ls : forall i x v,
  ls <> [] ->
  BayesMIHM.forward_layers s rnd i ls x = Ok v ->
  ncols x = ncols (weight (hd no_layer ls)) /\
  ncols v = nrows (weight (last ls no_layer)).
Proof.
  induction ls as [|l ls IH]; intros i x v Hne H; [congruence|].
  cbn [BayesMIHM.forward_layers] in H. fold BayesMIHM.forward_layers in H.
  unfold Linear_forward in H.
  apply rbind_ok in H. destruct H as (x' & Hstep & H).
  assert (Hx' : ncols x = ncols (weight l) /\ ncols x' = nrows (weight l)).
  { destruct (Z.of_nat i =? Z.of_nat (BayesMIHM.num_layers s) - 1)%Z.
    - apply F_linear_ok in Hstep. tauto.
    - apply rbind_ok in Hstep. destruct Hstep as (h & Hh & Hstep).
      apply F_linear_ok in Hh. injection Hstep as <-.
      rewrite ncols_dropout, ncols_map_gelu. tauto. }
  destruct Hx' as [Hin Hout]. cbn [hd]. split; [exact Hin|].
  destruct ls as [|l' ls'].
  - cbn in H. injection H as <-. exact Hout.
  - change (last (l :: l' :: ls') no_layer) with (last (l' :: ls') no_layer).
    apply (IH (S i) x' v); [discriminate|exact H].
Qed.

Lemma bayes_index_layers_cols s ls : forall i x v,
  ls <> [] ->
  BayesMIHM.index_layers s i ls x = Ok v ->
  ncols x = ncols (weight (hd no_layer ls)) /\
  ncols v = nrows (weight (last ls no_layer)).
Proof.
  induction ls as [|l ls IH]; intros i x v Hne H; [congruence|].
  cbn [BayesMIHM.index_layers] in H. fold BayesMIHM.index_layers in H.
  unfold Linear_forward in H.
  apply rbind_ok in H. destruct H as (x' & Hstep & H).
  assert (Hx' : ncols x = ncols (weight l) /\ ncols x' = nrows (weight l)).
  { destruct (Z.of_nat i =? Z.of_nat (BayesMIHM.num_layers s) - 1)%Z.
    - apply F_linear_ok in Hstep. tauto.
    - apply rbind_ok in Hstep. destruct Hstep as (h & Hh & Hstep).
      apply F_linear_ok in Hh. injection Hstep as <-.
      rewrite ncols_map_gelu. tauto. }
  destruct Hx' as [Hin Hout]. cbn [hd]. split; [exact Hin|].
  destruct ls as [|l' ls'].
  - cbn in H. injection H as <-. exact Hout.
  - change (last (l :: l' :: ls') no_layer) with (last (l' :: ls') no_layer).
    apply (IH (S i) x' v); [discriminate|exact H].
Qed.

Lemma relaxed_forward_layers_cols s rnd ls : forall i x v,
  ls <> [] ->
  RelaxedBayesMIHM.forward_layers s rnd i ls x = Ok v ->
  ncols x = ncols (weight (hd no_layer ls)) /\
  ncols v = nrows (weight (last ls no_layer)).
Proof.
  induction ls as [|l ls IH]; intros i x v Hne H; [congruence|].
  cbn [RelaxedBayesMIHM.forward_layers] in H.
  fold RelaxedBayesMIHM.forward_layers in H.
  unfold Linear_forward in H.
  apply rbind_ok in H. destruct H as (x' & Hstep & H).
  assert (Hx' : ncols x = ncols (weight l) /\ ncols x' = nrows (weight l)).
  { destruct (Z.of_nat i =? Z.of_nat (RelaxedBayesMIHM.num_layers s) - 1)%Z.
    - apply F_linear_ok in Hstep. tauto.
    - apply rbind_ok in Hstep. destruct Hstep as (h & Hh & Hstep).
      apply F_linear_ok in Hh. injection Hstep as <-.
      rewrite ncols_dropout, ncols_map_gelu. tauto. }
  destruct Hx' as [Hin Hout]. cbn [hd]. split; [exact Hin|].
  destruct ls as [|l' ls'].
  - cbn in H. injection H as <-. exact Hout.
  - change (last (l :: l' :: ls') no_layer) with (last (l' :: ls') no_layer).
    apply (IH (S i) x' v); [discriminate|exact H].
Qed.

Lemma relaxed_index_layers_cols s ls : forall i x v,
  ls <> [] ->
  RelaxedBayesMIHM.index_layers s i ls x = Ok v ->
  ncols x = ncols (weight (hd no_layer ls)) /\
  ncols v = nrows (weight (last ls no_layer)).
Proof.
  induction ls as [|l ls IH]; intros i x v Hne H; [congruence|].
  cbn [RelaxedBayesMIHM.index_layers] in H.
  fold RelaxedBayesMIHM.index_layers in H.
  unfold Linear_forward in H.
  apply rbind_ok in H. destruct H as (x' & Hstep & H).
  assert (Hx' : ncols x = ncols (weight l) /\ ncols x' = nrows (weight l)).
  { destruct (Z.of_nat i =? Z.of_nat (RelaxedBayesMIHM.num_layers s) - 1)%Z.
    - apply F_linear_ok in Hstep. tauto.
    - apply rbind_ok in Hstep. destruct Hstep as (h & Hh & Hstep).
      apply F_linear_ok in Hh. injection Hstep as <-.
      rewrite ncols_map_gelu. tauto. }
  destruct Hx' as [Hin Hout]. cbn [hd]. split; [exact Hin|].
  destruct ls as [|l' ls'].
  - cbn in H. injection H as <-. exact Hout.
  - change (last (l :: l' :: ls') no_layer) with (last (l' :: ls') no_layer).
    apply (IH (S i) x' v); [discriminate|exact H].
Qed.

(** The normalisation either passes an input without elements through, or
    has checked the number of columns. *)
Lemma BatchNorm1d_forward_ok b tr x t b' :
  BatchNorm1d_forward b tr x = Ok (t, b') ->
  (numel x = 0 /\ t = x) \/
  (ncols x = num_features b /\ nrows t = nrows x /\ ncols t = ncols x).
Proof.
  unfold BatchNorm1d_forward.
  destruct (tr && (nrows x =? 1)); [discriminate|].
  destruct (Nat.eqb_spec (numel x) 0) as [E|E].
  - intros [= <- <-]. auto.
  - destruct (Nat.eqb_spec (ncols x) (num_features b)) as [F|F];
      cbn [negb]; [|discriminate].
    destruct tr; intros [= <- <-]; right;
      now rewrite nrows_build, ncols_build.
Qed.

End Layers.

(* ================================================================== *)
(** ** The width of the last layer *)

Section LastWidth.
Context {num : Numerics}.

Lemma outcome_rows pidx iw interactor t pit ct t1 imt t2 :
  mul iw interactor = Ok t -> mul t pidx = Ok pit ->
  add pit ct = Ok t1 -> add t1 imt = Ok t2 ->
  nrows pidx = 0 -> nrows t2 = 0.
Proof.
  unfold mul, add. intros _ Hpit H1 H2 Hz.
  eapply bcast_rows_zero; [exact H2|left].
  eapply bcast_rows_zero; [exact H1|left].
  eapply bcast_rows_zero; [exact Hpit|right; exact Hz].
Qed.

Lemma bayes_index_rows s rnd x e c y tr L tr' :
  BayesMIHM.forward_locals s rnd x e c y tr = Ok (L, tr') ->
  nrows (predicted_index L) <> 0.
Proof.
  intros H Hz. apply bayes_forward_locals_inv in H.
  destruct H as (_ & _ & _ & _ & _ & _ & (t & Ht & Hpit) &
                 (t1 & t2 & H1 & H2 & Hepi) & _ & Hrows).
  pose proof (outcome_rows _ _ _ _ _ _ _ _ _ Ht Hpit H1 H2 Hz) as Hz2.
  destruct (BayesMIHM.concatenate_interaction_vars s).
  - congruence.
  - destruct Hepi as (pr & u & _ & _ & Hepi). apply Hrows.
    eapply bcast_rows_zero; [exact Hepi|left; exact Hz2].
Qed.

Lemma relaxed_index_rows s rnd x e c y tr L tr' :
  RelaxedBayesMIHM.forward_locals s rnd x e c y tr = Ok (L, tr') ->
  nrows (predicted_index L) <> 0.
Proof.
  intros H Hz. apply relaxed_forward_locals_inv in H.
  destruct H as (_ & _ & _ & _ & _ & _ & (t & Ht & Hpit) &
                 (t1 & t2 & H1 & H2 & Hepi) & _ & Hrows).
  pose proof (outcome_rows _ _ _ _ _ _ _ _ _ Ht Hpit H1 H2 Hz) as Hz2.
  destruct (RelaxedBayesMIHM.concatenate_interaction_vars s).
  - congruence.
  - destruct Hepi as (pr & u & _ & _ & Hepi). apply Hrows.
    eapply bcast_rows_zero; [exact Hepi|left; exact Hz2].
Qed.

(** With normalisation, a successful [forward] had an index of one column. *)
Lemma normalised_width_one b tr hidden pidx b' w :
  BatchNorm1d_forward b tr hidden = Ok (pidx, b') ->
  num_features b = 1 -> ncols hidden = w -> 0 < w -> nrows pidx <> 0 ->
  w = 1 /\ ncols pidx = 1.
Proof.
  intros H Hb Hw Hpos Hrows.
  destruct (BatchNorm1d_forward_ok _ _ _ _ _ H) as [[Hz ->]|(Hc & _ & Hc')].
  - unfold numel in Hz. nia.
  - split; congruence.
Qed.

Lemma bayes_forward_width_one a s rnd x e c y tr L tr' :
  bayes_model a s -> a_hidden_layer_sizes a <> [] -> a_batch_norm a = true ->
  BayesMIHM.forward_locals s rnd x e c y tr = Ok (L, tr') ->
  0 < last (a_hidden_layer_sizes a) 0 ->
  last (a_hidden_layer_sizes a) 0 = 1 /\ ncols (predicted_index L) = 1.
Proof.
  intros Hm Hne Hbn H Hpos.
  pose proof (bayes_index_rows _ _ _ _ _ _ _ _ _ H) as Hrows.
  apply bayes_model_arch in Hm. destruct Hm as (_ & _ & Ha).
  pose proof (f_equal (@arch_batch_norm _ _) Ha) as E1.
  pose proof (f_equal (@arch_bn _ _) Ha) as E2.
  pose proof (f_equal (@arch_layers _ _) Ha) as E3.
  simpl in E1, E2, E3. rewrite Hbn in E1, E2.
  destruct (layer_shapes_ends _ _ E3 Hne) as (Hls & _ & _ & _ & Hlast).
  apply bayes_forward_locals_inv in H.
  destruct H as (_ & _ & _ & (hidden & Hh & Hb) & _).
  rewrite E1 in Hb. destruct Hb as (b & b' & Hbs & Hf & _).
  rewrite Hbs in E2. injection E2 as E2 _ _.
  destruct (bayes_forward_layers_cols _ _ _ _ _ _ Hls Hh) as [_ Hc].
  eapply normalised_width_one; eauto. congruence.
Qed.

Lemma relaxed_forward_width_one a s rnd x e c y tr L tr' :
  relaxed_model a s -> a_hidden_layer_sizes a <> [] -> a_batch_norm a = true ->
  RelaxedBayesMIHM.forward_locals s rnd x e c y tr = Ok (L, tr') ->
  0 < last (a_hidden_layer_sizes a) 0 ->
  last (a_hidden_layer_sizes a) 0 = 1 /\ ncols (predicted_index L) = 1.
Proof.
  intros Hm Hne Hbn H Hpos.
  pose proof (relaxed_index_rows _ _ _ _ _ _ _ _ _ H) as Hrows.
  apply relaxed_model_arch in Hm. destruct Hm as (_ & _ & Ha).
  pose proof (f_equal (@arch_batch_norm _ _) Ha) as E1.
  pose proof (f_equal (@arch_bn _ _) Ha) as E2.
  pose proof (f_equal (@arch_layers _ _) Ha) as E3.
  simpl in E1, E2, E3. rewrite Hbn in E1, E2.
  destruct (layer_shapes_ends _ _ E3 Hne) as (Hls & _ & _ & _ & Hlast).
  apply relaxed_forward_locals_inv in H.
  destruct H as (_ & _ & _ & (hidden & Hh & Hb) & _).
  rewrite E1 in Hb. destruct Hb as (b & b' & Hbs & Hf & _).
  rewrite Hbs in E2. injection E2 as E2 _ _.
  destruct (relaxed_forward_layers_cols _ _ _ _ _ _ Hls Hh) as [_ Hc].
  eapply normalised_width_one; eauto. congruence.
Qed.

Lemma index_width a m x tr v tr' :
  is_model a m -> a_hidden_layer_sizes a <> [] ->
  get_resilience_index_of m x tr = Ok (v, tr') ->
  ncols v = last (a_hidden_layer_sizes a) 0.
Proof.
  destruct m as [s|s]; simpl; intros Hm Hne H.
  - apply bayes_model_arch in Hm. destruct Hm as (_ & _ & Ha).
    pose proof (f_equal (@arch_layers _ _) Ha) as E3. simpl in E3.
    destruct (layer_shapes_ends _ _ E3 Hne) as (Hls & _ & _ & _ & Hlast).
    unfold BayesMIHM.get_resilience_index in H. steps.
    destruct (bayes_index_layers_cols _ _ _ _ _ Hls Hs0) as [_ Hc]. congruence.
  - apply relaxed_model_arch in Hm. destruct Hm as (_ & _ & Ha).
    pose proof (f_equal (@arch_layers _ _) Ha) as E3. simpl in E3.
    destruct (layer_shapes_ends _ _ E3 Hne) as (Hls & _ & _ & _ & Hlast).
    unfold RelaxedBayesMIHM.get_resilience_index in H. steps.
    destruct (relaxed_index_layers_cols _ _ _ _ _ Hls Hs0) as [_ Hc]. congruence.
Qed.

Lemma model_constructible a m : is_model a m ->
  valid_dropout a = true /\ bad_reduction a = false.
Proof.
  destruct m as [s|s]; simpl; intros Hm.
  - apply bayes_model_arch in Hm. tauto.
  - apply relaxed_model_arch in Hm. tauto.
Qed.

Lemma model_normalisation a m : is_model a m -> a_batch_norm a = true ->
  exists b, bn_of m = Some b /\ num_features b = 1.
Proof.
  destruct m as [s|s]; simpl; intros Hm Hbn.
  - apply bayes_model_arch in Hm. destruct Hm as (_ & _ & Ha).
    pose proof (f_equal (@arch_bn _ _) Ha) as E2. simpl in E2. rewrite Hbn in E2.
    destruct (BayesMIHM.bn s) as [b|]; [|discriminate].
    injection E2 as E2 _ _. eauto.
  - apply relaxed_model_arch in Hm. destruct Hm as (_ & _ & Ha).
    pose proof (f_equal (@arch_bn _ _) Ha) as E2. simpl in E2. rewrite Hbn in E2.
    destruct (RelaxedBayesMIHM.bn s) as [b|]; [|discriminate].
    injection E2 as E2 _ _. eauto.
Qed.

Lemma bcast_cols_zero f u v t :
  bcast f u v = Ok t -> ncols u = 0 \/ ncols v = 0 -> ncols t = 0.
Proof.
  intros H Hz. destruct (bcast_inv _ _ _ _ H) as (N & C & _ & HC & ->).
  rewrite ncols_build. eapply bdim_zero; eauto.
Qed.

Lemma outcome_cols pidx t pit ct t1 imt t2 :
  mul t pidx = Ok pit -> add pit ct = Ok t1 -> add t1 imt = Ok t2 ->
  ncols pidx = 0 -> ncols t2 = 0.
Proof.
  unfold mul, add. intros Hpit H1 H2 Hz.
  eapply bcast_cols_zero; [exact H2|left].
  eapply bcast_cols_zero; [exact H1|left].
  eapply bcast_cols_zero; [exact Hpit|right; exact Hz].
Qed.

(** With normalisation, a successful [forward] had an index of one column or
    of none: an index without elements passes the normalisation unchanged. *)
Lemma normalised_width b tr hidden pidx b' w :
  BatchNorm1d_forward b tr hidden = Ok (pidx, b') ->
  num_features b = 1 -> ncols hidden = w -> nrows pidx <> 0 ->
  (w = 1 /\ ncols pidx = 1) \/ (w = 0 /\ ncols pidx = 0).
Proof.
  intros H Hb Hw Hrows.
  destruct (BatchNorm1d_forward_ok _ _ _ _ _ H) as [[Hz ->]|(Hc & _ & Hc')].
  - right. unfold numel in Hz. split; nia.
  - left. split; congruence.
Qed.

Lemma bayes_forward_width a s rnd x e c y tr L tr' :
  bayes_model a s -> a_hidden_layer_sizes a <> [] -> a_batch_norm a = true ->
  BayesMIHM.forward_locals s rnd x e c y tr = Ok (L, tr') ->
  (last (a_hidden_layer_sizes a) 0 = 1 /\ ncols (predicted_index L) = 1) \/
  (last (a_hidden_layer_sizes a) 0 = 0 /\ ncols (predicted_index L) = 0 /\
   ncols (predicted_epi L) = 0).
Proof.
  intros Hm Hne Hbn H.
  pose proof (bayes_index_rows _ _ _ _ _ _ _ _ _ H) as Hrows.
  apply bayes_model_arch in Hm. destruct Hm as (_ & _ & Ha).
  pose proof (f_equal (@arch_batch_norm _ _) Ha) as E1.
  pose proof (f_equal (@arch_bn _ _) Ha) as E2.
  pose proof (f_equal (@arch_layers _ _) Ha) as E3.
  simpl in E1, E2, E3. rewrite Hbn in E1, E2.
  destruct (layer_shapes_ends _ _ E3 Hne) as (Hls & _ & _ & _ & Hlast).
  apply bayes_forward_locals_inv in H.
  destruct H as (_ & _ & _ & (hidden & Hh & Hb) & _ & _ & (t & _ & Hpit) &
                 (t1 & t2 & H1 & H2 & Hepi) & _).
  rewrite E1 in Hb. destruct Hb as (b & b' & Hbs & Hf & _).
  rewrite Hbs in E2. injection E2 as E2 _ _.
  destruct (bayes_forward_layers_cols _ _ _ _ _ _ Hls Hh) as [_ Hc].
  assert (Hw : ncols hidden = last (a_hidden_layer_sizes a) 0) by congruence.
  destruct (normalised_width _ _ _ _ _ _ Hf E2 Hw Hrows) as [?|[H0 Hz]];
    [now left|right].
  split; [exact H0|split; [exact Hz|]].
  pose proof (outcome_cols _ _ _ _ _ _ _ Hpit H1 H2 Hz) as Hz2.
  destruct (BayesMIHM.concatenate_interaction_vars s).
  - congruence.
  - destruct Hepi as (pr & u & _ & _ & Hepi).
    eapply bcast_cols_zero; [exact Hepi|left; exact Hz2].
Qed.

Lemma relaxed_forward_width a s rnd x e c y tr L tr' :
  relaxed_model a s -> a_hidden_layer_sizes a <> [] -> a_batch_norm a = true ->
  RelaxedBayesMIHM.forward_locals s rnd x e c y tr = Ok (L, tr') ->
  (last (a_hidden_layer_sizes a) 0 = 1 /\ ncols (predicted_index L) = 1) \/
  (last (a_hidden_layer_sizes a) 0 = 0 /\ ncols (predicted_index L) = 0 /\
   ncols (predicted_epi L) = 0).
Proof.
  intros Hm Hne Hbn H.
  pose proof (relaxed_index_rows _ _ _ _ _ _ _ _ _ H) as Hrows.
  apply relaxed_model_arch in Hm. destruct Hm as (_ & _ & Ha).
  pose proof (f_equal (@arch_batch_norm _ _) Ha) as E1.
  pose proof (f_equal (@arch_bn _ _) Ha) as E2.
  pose proof (f_equal (@arch_layers _ _) Ha) as E3.
  simpl in E1, E2, E3. rewrite Hbn in E1, E2.
  destruct (layer_shapes_ends _ _ E3 Hne) as (Hls & _ & _ & _ & Hlast).
  apply relaxed_forward_locals_inv in H.
  destruct H as (_ & _ & _ & (hidden & Hh & Hb) & _ & _ & (t & _ & Hpit) &
                 (t1 & t2 & H1 & H2 & Hepi) & _).
  rewrite E1 in Hb. destruct Hb as (b & b' & Hbs & Hf & _).
  rewrite Hbs in E2. injection E2 as E2 _ _.
  destruct (relaxed_forward_layers_cols _ _ _ _ _ _ Hls Hh) as [_ Hc].
  assert (Hw : ncols hidden = last (a_hidden_layer_sizes a) 0) by congruence.
  destruct (normalised_width _ _ _ _ _ _ Hf E2 Hw Hrows) as [?|[H0 Hz]];
    [now left|right].
  split; [exact H0|split; [exact Hz|]].
  pose proof (outcome_cols _ _ _ _ _ _ _ Hpit H1 H2 Hz) as Hz2.
  destruct (RelaxedBayesMIHM.concatenate_interaction_vars s).
  - congruence.
  - destruct Hepi as (pr & u & _ & _ & Hepi).
    eapply bcast_cols_zero; [exact Hepi|left; exact Hz2].
Qed.

(** C9.  For a model of either class built from a non-empty list of widths:
    the constructors accept every list of widths in its place (the last
    width is not looked at); the index that [get_resilience_index] returns
    has as many columns as the last width, so it is one number per
    observation exactly when that width is 1; with output normalisation (the
    default) the normalisation module is built for one feature and a call of
    [forward] succeeds only if the last width is 1 or 0: on a last width of
    0 the index has no element, the normalisation returns it as it is, and
    the outcome that [forward] computes has no column. *)
Theorem C9_last_width_is_not_checked (a : args) (m : model) :
  is_model a m ->
  a_hidden_layer_sizes a <> [] ->
  (forall th h,
     succeeded (BayesMIHM.init (with_hidden_layer_sizes a h) th) = true /\
     succeeded (RelaxedBayesMIHM.init (with_hidden_layer_sizes a h) th) = true) /\
  (forall x tr v tr',
     get_resilience_index_of m x tr = Ok (v, tr') ->
     ncols v = last (a_hidden_layer_sizes a) 0) /\
  (forall i c h, a_batch_norm (default_args i c h) = true) /\
  (a_batch_norm a = true ->
   (exists b, bn_of m = Some b /\ num_features b = 1) /\
   forall rnd x e c y tr L tr',
     forward_locals_of m rnd x e c y tr = Ok (L, tr') ->
     (last (a_hidden_layer_sizes a) 0 = 1 /\ ncols (predicted_index L) = 1) \/
     (last (a_hidden_layer_sizes a) 0 = 0 /\ ncols (predicted_index L) = 0 /\
      ncols (predicted_epi L) = 0)).
Proof.
  intros Hm Hne. split; [|split; [|split]].
  - intros th h. destruct (model_constructible _ _ Hm) as [Hv Hb].
    rewrite bayes_init_succeeded, relaxed_init_succeeded.
    change (valid_dropout (with_hidden_layer_sizes a h)) with (valid_dropout a).
    change (bad_reduction (with_hidden_layer_sizes a h)) with (bad_reduction a).
    now rewrite Hv, Hb.
  - intros x tr v tr'. now apply index_width.
  - reflexivity.
  - intros Hbn. split; [now apply (model_normalisation a)|].
    intros rnd x e c y tr L tr' H. destruct m as [s|s]; simpl in *.
    + eapply bayes_forward_width; eauto.
    + eapply relaxed_forward_width; eauto.
Qed.

End LastWidth.

(** C9 for the example model: widths [2; 1], normalisation on. *)
Lemma C9_last_width_is_not_checked_witness :
  exists L tr',
    forward_locals_of (num := ex_numerics) (Bayes ex_bayes) ex_rnd ex_x ex_e ex_c
      None [] = Ok (L, tr') /\
    ((last (a_hidden_layer_sizes ex_args) 0 = 1 /\ ncols (predicted_index L) = 1) \/
     (last (a_hidden_layer_sizes ex_args) 0 = 0 /\ ncols (predicted_index L) = 0 /\
      ncols (predicted_epi L) = 0)).
Proof.
  assert (Hm : is_model ex_args (Bayes ex_bayes))
    by (exists ex_init, ex_bayes; split; vm_compute; reflexivity).
  assert (Hne : a_hidden_layer_sizes ex_args <> []) by discriminate.
  eassert (Hrun : forward_locals_of (num := ex_numerics) (Bayes ex_bayes) ex_rnd
                    ex_x ex_e ex_c None [] = Ok (_, _))
    by (vm_compute; reflexivity).
  eexists. eexists. split; [exact Hrun|].
  exact (proj2 (proj2 (proj2 (proj2
           (@C9_last_width_is_not_checked ex_numerics ex_args (Bayes ex_bayes)
              Hm Hne)))
           eq_refl) ex_rnd ex_x ex_e ex_c None [] _ _ Hrun).
Defined.

(** The widths [2; 0] with normalisation on: the constructor returns a
    model, and [forward] on the example batch of two observations returns an
    outcome of two rows and no column, although the last width is not 1. *)
Lemma C9_counterexample :
  BayesMIHM.init c9_args ex_init = Ok c9_model /\
  a_batch_norm c9_args = true /\
  Nat.eqb (last (a_hidden_layer_sizes c9_args) 0) 1 = false /\
  exists L tr',
    forward_locals_of (num := ex_numerics) (Bayes c9_model) ex_rnd ex_x ex_e ex_c
      None [] = Ok (L, tr') /\
    forward_of (num := ex_numerics) (Bayes c9_model) ex_rnd ex_x ex_e ex_c
      None [] = Ok (predicted_epi L, tr') /\
    predicted_epi L = mkT 0 [[]; []] /\
    nrows (predicted_epi L) = 2 /\ ncols (predicted_epi L) = 0.
Proof.
  split; [vm_compute; reflexivity|].
  split; [reflexivity|]. split; [reflexivity|].
  eexists. eexists. split; [vm_compute; reflexivity|].
  repeat split; vm_compute; reflexivity.
Qed.

(* ================================================================== *)
(** ** The reduction reads the first [k_dim] columns of the basis *)

Section Reduction.
Context {num : Numerics}.

Lemma bind_ext A B (c : M A) (k k' : A -> M B) tr :
  (forall a tr1, k a tr1 = k' a tr1) -> bind c k tr = bind c k' tr.
Proof. intros H. unfold bind. destruct (c tr) as [[a tr1]|]; auto. Qed.

Lemma slice_cols_agree k B1 B2 :
  agree_on_first k B1 B2 -> slice_cols k B1 = slice_cols k B2.
Proof.
  intros (Hr & H1 & H2 & He). unfold slice_cols.
  rewrite <- Hr, !Nat.min_l by assumption.
  apply build_ext. intros i j Hi Hj. now apply He.
Qed.

Lemma bayes_forward_layers_basis s B rnd ls : forall i x,
  BayesMIHM.forward_layers (bayes_with_svd_matrix s B) rnd i ls x
  = BayesMIHM.forward_layers s rnd i ls x.
Proof.
  induction ls as [|l ls IH]; intros i x; [reflexivity|].
  cbn [BayesMIHM.forward_layers BayesMIHM.num_layers BayesMIHM.dropout
       BayesMIHM.training bayes_with_svd_matrix].
  match goal with
  | |- rbind ?c _ = rbind _ _ => destruct c; [apply IH|reflexivity]
  end.
Qed.

Lemma bayes_forward_locals_basis s k B1 B2 rnd x e c y tr :
  BayesMIHM.svd_matrix s = Some B1 -> BayesMIHM.k_dim s = Some k ->
  agree_on_first k B1 B2 ->
  BayesMIHM.forward_locals (bayes_with_svd_matrix s B2) rnd x e c y tr
  = BayesMIHM.forward_locals s rnd x e c y tr.
Proof.
  intros HB Hk Hag. unfold BayesMIHM.forward_locals.
  cbn [bayes_with_svd_matrix BayesMIHM.concatenate_interaction_vars
       BayesMIHM.dropout BayesMIHM.device BayesMIHM.batch_norm BayesMIHM.bn
       BayesMIHM.svd_matrix BayesMIHM.k_dim BayesMIHM.svd BayesMIHM.num_layers
       BayesMIHM.layers BayesMIHM.controlled_var_weights
       BayesMIHM.interaction_weight BayesMIHM.interactor_main_weight
       BayesMIHM.index_main_weight BayesMIHM.include_interactor_bias
       BayesMIHM.interactor_bias BayesMIHM.training].
  rewrite HB, Hk. cbn [attr rbind].
  rewrite (slice_cols_agree k B1 B2 Hag).
  do 3 (apply bind_ext; intros ? ?).
  now rewrite bayes_forward_layers_basis.
Qed.

Lemma bayes_index_layers_basis s B ls : forall i x,
  BayesMIHM.index_layers (bayes_with_svd_matrix s B) i ls x
  = BayesMIHM.index_layers s i ls x.
Proof.
  induction ls as [|l ls IH]; intros i x; [reflexivity|].
  cbn [BayesMIHM.index_layers BayesMIHM.num_layers bayes_with_svd_matrix].
  match goal with
  | |- rbind ?c _ = rbind _ _ => destruct c; [apply IH|reflexivity]
  end.
Qed.

Lemma bayes_index_basis s k B1 B2 x tr :
  BayesMIHM.svd_matrix s = Some B1 -> BayesMIHM.k_dim s = Some k ->
  agree_on_first k B1 B2 ->
  BayesMIHM.get_resilience_index (bayes_with_svd_matrix s B2) x tr
  = BayesMIHM.get_resilience_index s x tr.
Proof.
  intros HB Hk Hag. unfold BayesMIHM.get_resilience_index.
  cbn [bayes_with_svd_matrix BayesMIHM.svd_matrix BayesMIHM.k_dim BayesMIHM.svd
       BayesMIHM.layers].
  rewrite HB, Hk. cbn [attr rbind].
  rewrite (slice_cols_agree k B1 B2 Hag).
  apply bind_ext; intros ? ?.
  now rewrite bayes_index_layers_basis.
Qed.
Lemma relaxed_forward_layers_basis s B rnd ls : forall i x,
  RelaxedBayesMIHM.forward_layers (relaxed_with_svd_matrix s B) rnd i ls x
  = RelaxedBayesMIHM.forward_layers s rnd i ls x.
Proof.
  induction ls as [|l ls IH]; intros i x; [reflexivity|].
  cbn [RelaxedBayesMIHM.forward_layers RelaxedBayesMIHM.num_layers RelaxedBayesMIHM.dropout
       RelaxedBayesMIHM.training relaxed_with_svd_matrix].
  match goal with
  | |- rbind ?c _ = rbind _ _ => destruct c; [apply IH|reflexivity]
  end.
Qed.

Lemma relaxed_forward_locals_basis s k B1 B2 rnd x e c y tr :
  RelaxedBayesMIHM.svd_matrix s = Some B1 -> RelaxedBayesMIHM.k_dim s = Some k ->
  agree_on_first k B1 B2 ->
  RelaxedBayesMIHM.forward_locals (relaxed_with_svd_matrix s B2) rnd x e c y tr
  = RelaxedBayesMIHM.forward_locals s rnd x e c y tr.
Proof.
  intros HB Hk Hag. unfold RelaxedBayesMIHM.forward_locals.
  cbn [relaxed_with_svd_matrix RelaxedBayesMIHM.concatenate_interaction_vars
       RelaxedBayesMIHM.dropout RelaxedBayesMIHM.device RelaxedBayesMIHM.batch_norm RelaxedBayesMIHM.bn
       RelaxedBayesMIHM.svd_matrix RelaxedBayesMIHM.k_dim RelaxedBayesMIHM.svd RelaxedBayesMIHM.num_layers
       RelaxedBayesMIHM.layers RelaxedBayesMIHM.controlled_var_weights
       RelaxedBayesMIHM.interaction_weight RelaxedBayesMIHM.interactor_main_weight
       RelaxedBayesMIHM.index_main_weight RelaxedBayesMIHM.include_interactor_bias
       RelaxedBayesMIHM.interactor_bias RelaxedBayesMIHM.training].
  rewrite HB, Hk. cbn [attr rbind].
  rewrite (slice_cols_agree k B1 B2 Hag).
  do 3 (apply bind_ext; intros ? ?).
  now rewrite relaxed_forward_layers_basis.
Qed.

Lemma relaxed_index_layers_basis s B ls : forall i x,
  RelaxedBayesMIHM.index_layers (relaxed_with_svd_matrix s B) i ls x
  = RelaxedBayesMIHM.index_layers s i ls x.
Proof.
  induction ls as [|l ls IH]; intros i x; [reflexivity|].
  cbn [RelaxedBayesMIHM.index_layers RelaxedBayesMIHM.num_layers relaxed_with_svd_matrix].
  match goal with
  | |- rbind ?c _ = rbind _ _ => destruct c; [apply IH|reflexivity]
  end.
Qed.

Lemma relaxed_index_basis s k B1 B2 x tr :
  RelaxedBayesMIHM.svd_matrix s = Some B1 -> RelaxedBayesMIHM.k_dim s = Some k ->
  agree_on_first k B1 B2 ->
  RelaxedBayesMIHM.get_resilience_index (relaxed_with_svd_matrix s B2) x tr
  = RelaxedBayesMIHM.get_resilience_index s x tr.
Proof.
  intros HB Hk Hag. unfold RelaxedBayesMIHM.get_resilience_index.
  cbn [relaxed_with_svd_matrix RelaxedBayesMIHM.svd_matrix RelaxedBayesMIHM.k_dim RelaxedBayesMIHM.svd
       RelaxedBayesMIHM.layers].
  rewrite HB, Hk. cbn [attr rbind].
  rewrite (slice_cols_agree k B1 B2 Hag).
  apply bind_ext; intros ? ?.
  now rewrite relaxed_index_layers_basis.
Qed.

Lemma reduced_columns k B x reduced :
  matmul x (slice_cols k B) = Ok reduced -> k <= ncols B -> ncols reduced = k.
Proof.
  unfold matmul. destruct (ncols x =? nrows (slice_cols k B)); [|discriminate].
  intros [= <-] Hk. cbn [ncols build slice_cols]. now apply Nat.min_l.
Qed.

Lemma first_layer_of_model a m l :
  is_model a m -> hd_error (layers_of m) = Some l ->
  in_features l = index_input_size a /\ ncols (weight l) = index_input_size a.
Proof.
  intros Hm Hl.
  assert (E3 : map linear_shape (layers_of m) = layer_shapes a).
  { destruct m as [s|s]; simpl in Hm |- *.
    - apply bayes_model_arch in Hm. destruct Hm as (_ & _ & Ha).
      exact (f_equal (@arch_layers _ _) Ha).
    - apply relaxed_model_arch in Hm. destruct Hm as (_ & _ & Ha).
      exact (f_equal (@arch_layers _ _) Ha). }
  assert (Hne : a_hidden_layer_sizes a <> []).
  { intros E. unfold layer_shapes in E3. rewrite E in E3. simpl in E3.
    destruct (layers_of m); discriminate. }
  destruct (layer_shapes_ends _ _ E3 Hne) as (_ & H1 & H2 & _).
  destruct (layers_of m) as [|l0 ls]; [discriminate|].
  injection Hl as ->. auto.
Qed.

Lemma reduced_input_of_model a m B rnd x e c y tr L tr' :
  is_model a m -> a_svd a = true -> a_svd_matrix a = Some B ->
  a_k_dim a <= ncols B ->
  forward_locals_of m rnd x e c y tr = Ok (L, tr') ->
  ncols (reduced_input L) = a_k_dim a.
Proof.
  intros Hm Hsvd HB Hk H. destruct m as [s|s]; simpl in Hm, H.
  - apply bayes_model_arch in Hm. destruct Hm as (_ & _ & Ha).
    pose proof (f_equal (@arch_svd _ _) Ha) as E1.
    pose proof (f_equal (@arch_svd_matrix _ _) Ha) as E2.
    pose proof (f_equal (@arch_k_dim _ _) Ha) as E3.
    simpl in E1, E2, E3. rewrite Hsvd in *. rewrite HB in E2.
    apply bayes_forward_locals_inv in H. destruct H as (_ & _ & H & _).
    rewrite E1, E2, E3 in H. cbn [attr rbind] in H.
    eapply reduced_columns; eauto.
  - apply relaxed_model_arch in Hm. destruct Hm as (_ & _ & Ha).
    pose proof (f_equal (@arch_svd _ _) Ha) as E1.
    pose proof (f_equal (@arch_svd_matrix _ _) Ha) as E2.
    pose proof (f_equal (@arch_k_dim _ _) Ha) as E3.
    simpl in E1, E2, E3. rewrite Hsvd in *. rewrite HB in E2.
    apply relaxed_forward_locals_inv in H. destruct H as (_ & _ & H & _).
    rewrite E1, E2, E3 in H. cbn [attr rbind] in H.
    eapply reduced_columns; eauto.
Qed.

Lemma model_basis a m B :
  is_model a m -> a_svd a = true -> a_svd_matrix a = Some B ->
  match m with
  | Bayes s => BayesMIHM.svd_matrix s = Some B /\
               BayesMIHM.k_dim s = Some (a_k_dim a)
  | Relaxed s => RelaxedBayesMIHM.svd_matrix s = Some B /\
                 RelaxedBayesMIHM.k_dim s = Some (a_k_dim a)
  end.
Proof.
  intros Hm Hsvd HB. destruct m as [s|s]; simpl in Hm.
  - apply bayes_model_arch in Hm. destruct Hm as (_ & _ & Ha).
    pose proof (f_equal (@arch_svd_matrix _ _) Ha) as E2.
    pose proof (f_equal (@arch_k_dim _ _) Ha) as E3.
    simpl in E2, E3. rewrite Hsvd in *. split; congruence.
  - apply relaxed_model_arch in Hm. destruct Hm as (_ & _ & Ha).
    pose proof (f_equal (@arch_svd_matrix _ _) Ha) as E2.
    pose proof (f_equal (@arch_k_dim _ _) Ha) as E3.
    simpl in E2, E3. rewrite Hsvd in *. split; congruence.
Qed.

(** C6.  For a model of either class built with reduction and retained
    dimension [k_dim]: the first layer of the index network has [k_dim]
    input features, and the reduced input of a successful [forward] has
    exactly [k_dim] columns; replacing the basis by one that agrees with it
    on the first [k_dim] columns changes nothing in what [forward] computes
    (every local value, the returned outcome, the sample sites, the updated
    normalisation statistics, or the exception) nor in what
    [get_resilience_index] returns, for the same inputs and random
    choices. *)
Theorem C6_unused_basis_columns (a : args) (m : model) (B1 B2 : tensor) :
  is_model a m ->
  a_svd a = true ->
  a_svd_matrix a = Some B1 ->
  agree_on_first (a_k_dim a) B1 B2 ->
  (forall l, hd_error (layers_of m) = Some l ->
     in_features l = a_k_dim a /\ ncols (weight l) = a_k_dim a) /\
  (forall rnd x e c y tr L tr',
     forward_locals_of m rnd x e c y tr = Ok (L, tr') ->
     ncols (reduced_input L) = a_k_dim a) /\
  (forall rnd x e c y tr,
     forward_locals_of (with_svd_matrix m B2) rnd x e c y tr
       = forward_locals_of m rnd x e c y tr /\
     forward_of (with_svd_matrix m B2) rnd x e c y tr
       = forward_of m rnd x e c y tr) /\
  (forall x tr,
     get_resilience_index_of (with_svd_matrix m B2) x tr
       = get_resilience_index_of m x tr).
Proof.
  intros Hm Hsvd HB Hag.
  pose proof (model_basis a m B1 Hm Hsvd HB) as Hfields.
  split; [|split; [|split]].
  - intros l Hl. destruct (first_layer_of_model a m l Hm Hl) as [H1 H2].
    unfold index_input_size in H1, H2. now rewrite Hsvd in H1, H2.
  - intros rnd x e c y tr L tr' H.
    eapply reduced_input_of_model; eauto. apply Hag.
  - intros rnd x e c y tr. destruct m as [s|s]; destruct Hfields as [F1 F2];
      simpl.
    + assert (E : forall t, BayesMIHM.forward_locals (bayes_with_svd_matrix s B2)
                              rnd x e c y t
                            = BayesMIHM.forward_locals s rnd x e c y t)
        by (intros t; now apply (bayes_forward_locals_basis s (a_k_dim a) B1 B2)).
      split; [apply E|]. unfold BayesMIHM.forward, bind. now rewrite E.
    + assert (E : forall t, RelaxedBayesMIHM.forward_locals
                              (relaxed_with_svd_matrix s B2) rnd x e c y t
                            = RelaxedBayesMIHM.forward_locals s rnd x e c y t)
        by (intros t; now apply (relaxed_forward_locals_basis s (a_k_dim a) B1 B2)).
      split; [apply E|]. unfold RelaxedBayesMIHM.forward, bind. now rewrite E.
  - intros x tr. destruct m as [s|s]; destruct Hfields as [F1 F2]; simpl.
    + now apply (bayes_index_basis s (a_k_dim a) B1 B2).
    + now apply (relaxed_index_basis s (a_k_dim a) B1 B2).
Qed.

End Reduction.

(** C6 for the example model and the two example bases. *)
Lemma C6_unused_basis_columns_witness :
  exists L tr',
    forward_locals_of (num := ex_numerics) (Bayes ex_bayes_svd) ex_rnd ex_x3 ex_e
      ex_c None [] = Ok (L, tr') /\
    forward_locals_of (num := ex_numerics)
      (with_svd_matrix (Bayes ex_bayes_svd) ex_B2) ex_rnd ex_x3 ex_e ex_c None []
      = Ok (L, tr') /\
    ncols (reduced_input L) = 2.
Proof.
  assert (Hm : is_model ex_args_svd (Bayes ex_bayes_svd))
    by (exists ex_init, ex_bayes_svd; split; vm_compute; reflexivity).
  assert (Hag : agree_on_first (a_k_dim ex_args_svd) ex_B1 ex_B2).
  { repeat split; simpl; try lia.
    intros [|[|[|i]]] [|[|j]] Hi Hj; try lia; reflexivity. }
  eassert (Hrun : forward_locals_of (num := ex_numerics) (Bayes ex_bayes_svd)
                    ex_rnd ex_x3 ex_e ex_c None [] = Ok (_, _))
    by (vm_compute; reflexivity).
  pose proof (@C6_unused_basis_columns ex_numerics ex_args_svd
                (Bayes ex_bayes_svd) ex_B1 ex_B2 Hm eq_refl eq_refl Hag) as H.
  destruct H as (_ & Hcols & Hsame & _).
  eexists. eexists. split; [exact Hrun|]. split.
  - rewrite (proj1 (Hsame ex_rnd ex_x3 ex_e ex_c None [])). exact Hrun.
  - exact (Hcols ex_rnd ex_x3 ex_e ex_c None [] _ _ Hrun).
Defined.

(* ================================================================== *)
(** ** The relaxed class against the fully Bayesian one *)

Section Relaxation.
Context {num : Numerics}.

Lemma relaxed_trace_app tr tr' :
  relaxed_trace (tr ++ tr') = relaxed_trace tr ++ relaxed_trace tr'.
Proof. unfold relaxed_trace. now rewrite filter_app, map_app. Qed.

Lemma sim_bind A B (cb cr : M A) (kb kr : A -> M B) :
  sim cb cr -> (forall a, sim (kb a) (kr a)) -> sim (bind cb kb) (bind cr kr).
Proof.
  intros Hc Hk tr. unfold bind. rewrite (Hc tr).
  destruct (cb tr) as [[a tr1]|]; simpl; [apply Hk|reflexivity].
Qed.

Lemma sim_ret A (a : A) : sim (ret a) (ret a).
Proof. intros tr. reflexivity. Qed.

Lemma sim_lift A (c : result A) : sim (lift c) (lift c).
Proof. intros tr. unfold lift. now destruct c. Qed.

Lemma sim_sample_kept rnd name fn obs plates :
  point_estimated name = false -> String.eqb name "sigma" = false ->
  sim (sample rnd name fn obs plates) (sample rnd name fn obs plates).
Proof.
  intros Hp Hs tr. unfold sample, relaxed_run. simpl.
  rewrite relaxed_trace_app. unfold relaxed_trace at 3. simpl.
  rewrite Hp. simpl. unfold relaxed_site. simpl. now rewrite Hs.
Qed.

Lemma sim_sample_dropped rnd name fn plates :
  point_estimated name = true ->
  sim (sample rnd name fn None plates) (ret (sampled rnd name fn)).
Proof.
  intros Hp tr. unfold sample, ret, relaxed_run. simpl.
  rewrite relaxed_trace_app. unfold relaxed_trace at 3. simpl.
  rewrite Hp. simpl. now rewrite app_nil_r.
Qed.

Lemma sim_sigma rnd :
  sim (sample rnd "sigma" (Gamma (1 # 2) 1) None [])
      (sample rnd "sigma" (HalfNormal 1 []) None []).
Proof.
  intros tr. unfold sample, relaxed_run. simpl.
  now rewrite relaxed_trace_app.
Qed.

Lemma sim_plate name size :
  point_estimated name = false -> String.eqb name "sigma" = false ->
  sim (plate name size) (plate name size).
Proof.
  intros Hp Hs tr. unfold plate, relaxed_run.
  destruct (size =? 0); [reflexivity|]. simpl.
  rewrite relaxed_trace_app. unfold relaxed_trace at 3. simpl.
  rewrite Hp. simpl. unfold relaxed_site. simpl. now rewrite Hs.
Qed.

Lemma sim_control rnd l x :
  sim (PyroLinear_forward rnd "controlled_var_weights" l x)
      (lift (Linear_forward
               (mkLinear (linear_in l) (linear_out l)
                  (sampled rnd "controlled_var_weights.weight" (weight_prior l))
                  (sampled rnd "controlled_var_weights.bias" (bias_prior l)))
               x)).
Proof.
  intros tr. unfold PyroLinear_forward, Linear_forward, bind, lift, sample.
  cbn [weight bias]. unfold sampled, relaxed_run. simpl.
  set (r := F_linear x _ _). destruct r; simpl; [|reflexivity].
  now rewrite !relaxed_trace_app, !app_nil_r.
Qed.

Lemma relaxed_forward_layers_eq sb rnd ls : forall i x,
  RelaxedBayesMIHM.forward_layers (relax sb rnd) rnd i ls x
  = BayesMIHM.forward_layers sb rnd i ls x.
Proof.
  induction ls as [|l ls IH]; intros i x; [reflexivity|].
  cbn [RelaxedBayesMIHM.forward_layers BayesMIHM.forward_layers
       RelaxedBayesMIHM.num_layers RelaxedBayesMIHM.dropout
       RelaxedBayesMIHM.training relax].
  match goal with
  | |- rbind ?c _ = rbind _ _ => destruct c; [apply IH|reflexivity]
  end.
Qed.

Lemma relaxed_index_layers_eq sb rnd ls : forall i x,
  RelaxedBayesMIHM.index_layers (relax sb rnd) i ls x
  = BayesMIHM.index_layers sb i ls x.
Proof.
  induction ls as [|l ls IH]; intros i x; [reflexivity|].
  cbn [RelaxedBayesMIHM.index_layers BayesMIHM.index_layers
       RelaxedBayesMIHM.num_layers relax].
  match goal with
  | |- rbind ?c _ = rbind _ _ => destruct c; [apply IH|reflexivity]
  end.
Qed.

Lemma sim_index_main rnd (o : option distribution) pit ct imt pidx :
  sim (t <- lift (t <- add pit ct ;; add t imt)%res ;;
       prior <- lift (attr o) ;;
       index_w <- sample rnd "index_main_weight" prior None [] ;;
       lift (u <- mul pidx index_w ;; add t u)%res)%pyro
      (lift (t <- add pit ct ;;
             t <- add t imt ;;
             index_w <- attr (option_map (sampled rnd "index_main_weight") o) ;;
             u <- mul pidx index_w ;;
             add t u)%res).
Proof.
  intros tr. unfold bind, lift, sample, relaxed_run.
  destruct (add pit ct) as [t1|]; simpl; [|reflexivity].
  destruct (add t1 imt) as [t2|]; simpl; [|reflexivity].
  destruct o as [prior|]; simpl; [|reflexivity].
  fold (sampled rnd "index_main_weight" prior).
  destruct (mul pidx (sampled rnd "index_main_weight" prior)) as [u|]; simpl;
    [|reflexivity].
  destruct (add t2 u); simpl; [|reflexivity].
  now rewrite relaxed_trace_app, app_nil_r.
Qed.

Ltac sim_step :=
  first [ apply sim_lift | apply sim_ret | apply sim_sigma | apply sim_control
        | apply sim_index_main
        | apply sim_sample_kept; reflexivity
        | apply sim_plate; reflexivity ].

Lemma sim_forward_locals sb rnd x e c y :
  sim (BayesMIHM.forward_locals sb rnd x e c y)
      (RelaxedBayesMIHM.forward_locals (relax sb rnd) rnd x e c y).
Proof.
  unfold BayesMIHM.forward_locals, RelaxedBayesMIHM.forward_locals.
  cbn [relax RelaxedBayesMIHM.concatenate_interaction_vars
       RelaxedBayesMIHM.dropout RelaxedBayesMIHM.device
       RelaxedBayesMIHM.batch_norm RelaxedBayesMIHM.bn
       RelaxedBayesMIHM.svd_matrix RelaxedBayesMIHM.k_dim RelaxedBayesMIHM.svd
       RelaxedBayesMIHM.num_layers RelaxedBayesMIHM.layers
       RelaxedBayesMIHM.controlled_var_weights
       RelaxedBayesMIHM.interaction_weight
       RelaxedBayesMIHM.interactor_main_weight
       RelaxedBayesMIHM.index_main_weight
       RelaxedBayesMIHM.include_interactor_bias
       RelaxedBayesMIHM.interactor_bias RelaxedBayesMIHM.training].
  apply sim_bind; [sim_step|intros all].
  apply sim_bind; [sim_step|intros ct].
  apply sim_bind; [sim_step|intros reduced].
  apply sim_bind; [rewrite relaxed_forward_layers_eq; sim_step|intros hidden].
  apply sim_bind; [sim_step|intros [pidx bn']].
  apply sim_bind.
  { destruct (BayesMIHM.include_interactor_bias sb); [|sim_step].
    apply sim_bind; [sim_step|intros prior].
    apply sim_bind; [sim_step|intros b]. sim_step. }
  intros interactor.
  apply sim_bind; [sim_step|intros main_w].
  apply sim_bind; [sim_step|intros imt].
  apply sim_bind; [sim_step|intros inter_w].
  apply sim_bind; [sim_step|intros pit].
  apply sim_bind.
  { destruct (BayesMIHM.concatenate_interaction_vars sb); sim_step. }
  intros epi.
  apply sim_bind; [sim_step|intros sg].
  apply sim_bind; [sim_step|intros u].
  apply sim_bind; [sim_step|intros obs].
  sim_step.
Qed.

Lemma sim_forward sb rnd x e c y :
  sim (BayesMIHM.forward sb rnd x e c y)
      (RelaxedBayesMIHM.forward (relax sb rnd) rnd x e c y).
Proof.
  unfold BayesMIHM.forward, RelaxedBayesMIHM.forward.
  apply sim_bind; [apply sim_forward_locals|intros L; apply sim_ret].
Qed.
Lemma relax_is_relaxed_model a sb rnd :
  bayes_model a sb -> relaxed_model a (relax sb rnd).
Proof.
  intros Hm. apply bayes_model_arch in Hm. destruct Hm as (Hv & Hb & Ha).
  pose proof (relaxed_init_cases a zero_init) as Hr.
  destruct (RelaxedBayesMIHM.init a zero_init) as [s0|err] eqn:Hinit.
  - exists zero_init, s0. split; [exact Hinit|].
    destruct Hr as (_ & _ & -> & _).
    unfold bayes_arch, bayes_arch_of, common_arch in Ha.
    injection Ha; intros.
    unfold relaxed_arch, relaxed_arch_of, common_arch, relax.
    cbn [RelaxedBayesMIHM.concatenate_interaction_vars
         RelaxedBayesMIHM.dropout RelaxedBayesMIHM.device
         RelaxedBayesMIHM.batch_norm RelaxedBayesMIHM.bn
         RelaxedBayesMIHM.svd_matrix RelaxedBayesMIHM.k_dim RelaxedBayesMIHM.svd
         RelaxedBayesMIHM.num_layers RelaxedBayesMIHM.layers
         RelaxedBayesMIHM.controlled_var_weights
         RelaxedBayesMIHM.interaction_weight
         RelaxedBayesMIHM.interactor_main_weight
         RelaxedBayesMIHM.index_main_weight
         RelaxedBayesMIHM.include_interactor_bias
         RelaxedBayesMIHM.interactor_bias RelaxedBayesMIHM.training].
    repeat match goal with
           | E : _ = _ |- _ => rewrite E; clear E
           end.
    destruct (a_concatenate_interaction_vars a); reflexivity.
  - destruct Hr as [[? _]|(_ & ? & _)]; congruence.
Qed.

(** C3.  Let [relax sb rnd] be the relaxed model whose point-estimated
    control weights, control bias and index main-effect weight are the
    values the fully Bayesian model [sb] samples under the random choices
    [rnd], everything else being shared.  It is a model the relaxed
    constructor builds from the same arguments, and on every input its
    [forward] computes what [BayesMIHM.forward] computes: the same local
    values and predicted outcome, or the same exception.  The sample sites
    differ as [relaxed_trace] says: the sites of the control weights, the
    control bias and the index main-effect weight are absent, and the site
    sigma has a half-normal prior in place of the Gamma prior. *)
Theorem C3_relaxed_forward_matches (a : args) (sb : BayesMIHM.self)
    (rnd : randomness) (x : tensor) (e : list Q) (c : tensor)
    (y : option tensor) (tr : list site) :
  bayes_model a sb ->
  relaxed_model a (relax sb rnd) /\
  RelaxedBayesMIHM.forward_locals (relax sb rnd) rnd x e c y (relaxed_trace tr)
    = relaxed_run (BayesMIHM.forward_locals sb rnd x e c y tr) /\
  RelaxedBayesMIHM.forward (relax sb rnd) rnd x e c y (relaxed_trace tr)
    = relaxed_run (BayesMIHM.forward sb rnd x e c y tr).
Proof.
  intros Hm. split; [now apply relax_is_relaxed_model|]. split.
  - apply sim_forward_locals.
  - apply sim_forward.
Qed.

End Relaxation.

(** C3 for the example model: the two runs, and the names of their sites. *)
Lemma C3_relaxed_forward_matches_witness :
  exists L trb,
    BayesMIHM.forward_locals (num := ex_numerics) ex_bayes ex_rnd ex_x ex_e ex_c
      None [] = Ok (L, trb) /\
    RelaxedBayesMIHM.forward_locals (num := ex_numerics) (relax ex_bayes ex_rnd)
      ex_rnd ex_x ex_e ex_c None [] = Ok (L, relaxed_trace trb) /\
    map site_name trb
      = ["controlled_var_weights.weight"; "controlled_var_weights.bias";
         "interactor_bias"; "interactor_main_weight"; "interaction_weight";
         "index_main_weight"; "sigma"; "data"; "obs"]%string /\
    map site_name (relaxed_trace trb)
      = ["interactor_bias"; "interactor_main_weight"; "interaction_weight";
         "sigma"; "data"; "obs"]%string.
Proof.
  assert (Hm : bayes_model ex_args ex_bayes)
    by (exists ex_init, ex_bayes; split; vm_compute; reflexivity).
  eassert (Hrun : BayesMIHM.forward_locals (num := ex_numerics) ex_bayes ex_rnd
                    ex_x ex_e ex_c None [] = Ok (_, _))
    by (vm_compute; reflexivity).
  pose proof (proj1 (proj2 (@C3_relaxed_forward_matches ex_numerics ex_args
                              ex_bayes ex_rnd ex_x ex_e ex_c None [] Hm))) as H.
  rewrite Hrun in H.
  eexists. eexists. split; [exact Hrun|]. split; [exact H|].
  split; vm_compute; reflexivity.
Defined.

(* ================================================================== *)
(** ** get_resilience_index against the index of forward *)

Section ResilienceIndex.
Context {num : Numerics}.

Lemma bayes_eval_layers s rnd ls : forall i x,
  BayesMIHM.training s = false ->
  BayesMIHM.forward_layers s rnd i ls x = BayesMIHM.index_layers s i ls x.
Proof.
  induction ls as [|l ls IH]; intros i x Ht; [reflexivity|].
  cbn [BayesMIHM.forward_layers BayesMIHM.index_layers].
  rewrite Ht. unfold Dropout_forward.
  match goal with
  | |- rbind ?c _ = rbind _ _ => destruct c; [now apply IH|reflexivity]
  end.
Qed.

Lemma relaxed_eval_layers s rnd ls : forall i x,
  RelaxedBayesMIHM.training s = false ->
  RelaxedBayesMIHM.forward_layers s rnd i ls x
  = RelaxedBayesMIHM.index_layers s i ls x.
Proof.
  induction ls as [|l ls IH]; intros i x Ht; [reflexivity|].
  cbn [RelaxedBayesMIHM.forward_layers RelaxedBayesMIHM.index_layers].
  rewrite Ht. unfold Dropout_forward.
  match goal with
  | |- rbind ?c _ = rbind _ _ => destruct c; [now apply IH|reflexivity]
  end.
Qed.

(** [get_resilience_index] registers no sample site. *)
Lemma index_registers_nothing m x tr v tr' :
  get_resilience_index_of m x tr = Ok (v, tr') -> tr' = tr.
Proof.
  destruct m as [s|s]; simpl; intros H.
  - unfold BayesMIHM.get_resilience_index in H. now steps.
  - unfold RelaxedBayesMIHM.get_resilience_index in H. now steps.
Qed.

(** Without normalisation, [get_resilience_index] returns the index that
    [forward] computes in evaluation mode. *)
Lemma index_without_normalisation m rnd x e c y tr L tr' tr0 :
  training_of m = false -> batch_norm_of m = false ->
  forward_locals_of m rnd x e c y tr = Ok (L, tr') ->
  get_resilience_index_of m x tr0 = Ok (predicted_index L, tr0).
Proof.
  destruct m as [s|s]; simpl; intros Ht Hb H.
  - apply bayes_forward_locals_inv in H.
    destruct H as (_ & _ & Hred & (hidden & Hh & Hbn) & _).
    rewrite Hb in Hbn. destruct Hbn as [-> _].
    rewrite bayes_eval_layers in Hh by assumption.
    unfold BayesMIHM.get_resilience_index, bind, lift, ret.
    now rewrite Hred, Hh.
  - apply relaxed_forward_locals_inv in H.
    destruct H as (_ & _ & Hred & (hidden & Hh & Hbn) & _).
    rewrite Hb in Hbn. destruct Hbn as [-> _].
    rewrite relaxed_eval_layers in Hh by assumption.
    unfold RelaxedBayesMIHM.get_resilience_index, bind, lift, ret.
    now rewrite Hred, Hh.
Qed.

(** C1 (the code departs from it).  [get_resilience_index] registers no
    sample site and, when output normalisation is disabled, returns the
    index [forward] computes in evaluation mode.  With output normalisation
    enabled it does not apply the normalisation that [forward] applies: for
    the model [c1_model] (one layer of weight 1 and bias 0, normalisation
    statistics as one training batch [9; 10; 11] leaves them, evaluation
    mode) and the input 1, [get_resilience_index] returns 1 while the index
    inside [forward] is (1 - running_mean) / sqrt(running_var + eps) = 0. *)
Theorem C1_index_skips_normalisation :
  (forall m x tr v tr',
     get_resilience_index_of m x tr = Ok (v, tr') -> tr' = tr) /\
  (forall m rnd x e c y tr L tr' tr0,
     training_of m = false -> batch_norm_of m = false ->
     forward_locals_of m rnd x e c y tr = Ok (L, tr') ->
     get_resilience_index_of m x tr0 = Ok (predicted_index L, tr0)) /\
  (bayes_model c1_args c1_model /\
   (exists t, BatchNorm1d_forward (BatchNorm1d_init 1) true c1_batch
              = Ok (t, c1_bn)) /\
   BayesMIHM.training c1_model = false /\
   BayesMIHM.get_resilience_index c1_model c1_x [] = Ok (c1_x, []) /\
   entry c1_x 0 0 = 1%Q /\
   exists L tr',
     BayesMIHM.forward_locals c1_model ex_rnd c1_x [0%Q] (mkT 1 [[0%Q]]) None []
       = Ok (L, tr') /\
     (entry (predicted_index L) 0 0 == 0)%Q).
Proof.
  split; [exact index_registers_nothing|].
  split; [intros; eapply index_without_normalisation; eauto|].
  split.
  { exists c1_init. eexists. split; vm_compute; reflexivity. }
  split.
  { eexists. vm_compute. reflexivity. }
  split; [reflexivity|].
  split; [vm_compute; reflexivity|].
  split; [reflexivity|].
  eexists. eexists. split; [vm_compute; reflexivity|].
  vm_compute. reflexivity.
Qed.

End ResilienceIndex.

(* ================================================================== *)
(** ** Building a successful call of [forward] from its steps *)

Section ForwardIntro.
Context {num : Numerics}.

Lemma bind_lift_ok A B (c : result A) (k : A -> M B) tr a :
  c = Ok a -> bind (lift c) k tr = k a tr.
Proof. intros ->. reflexivity. Qed.

Lemma bind_sample B rnd name fn plates (k : tensor -> M B) tr :
  bind (sample rnd name fn None plates) k tr
  = k (sampled rnd name fn) (tr ++ [mkSite name fn false plates]).
Proof. reflexivity. Qed.

Lemma bind_ret A B (a : A) (k : A -> M B) tr : bind (ret a) k tr = k a tr.
Proof. reflexivity. Qed.

Lemma bind_assoc A B C (c : M A) (k1 : A -> M B) (k2 : B -> M C) tr :
  bind (bind c k1) k2 tr = bind c (fun a => bind (k1 a) k2) tr.
Proof. unfold bind. destruct (c tr) as [[a tr1]|]; reflexivity. Qed.

Lemma bind_plate B name size (k : unit -> M B) tr :
  size <> 0 ->
  bind (plate name size) k tr
  = k tt (tr ++ [mkSite name (Subsample size) false []]).
Proof.
  intros H. unfold bind, plate. destruct (Nat.eqb_spec size 0); [contradiction|].
  reflexivity.
Qed.

Lemma bayes_forward_locals_intro s rnd x e c y tr all ct reduced hidden pidx bn'
    inter imt t pit t1 t2 epi :
  (if BayesMIHM.concatenate_interaction_vars s then cat1 c x else Ok c) = Ok all ->
  F_linear all
    (sampled rnd "controlled_var_weights.weight"
       (weight_prior (BayesMIHM.controlled_var_weights s)))
    (sampled rnd "controlled_var_weights.bias"
       (bias_prior (BayesMIHM.controlled_var_weights s))) = Ok ct ->
  (if BayesMIHM.svd s
   then (B <- attr (BayesMIHM.svd_matrix s) ;;
         k <- attr (BayesMIHM.k_dim s) ;; matmul x (slice_cols k B))%res
   else Ok x) = Ok reduced ->
  BayesMIHM.forward_layers s rnd 0 (BayesMIHM.layers s) reduced = Ok hidden ->
  (if BayesMIHM.batch_norm s
   then (b <- attr (BayesMIHM.bn s) ;;
         ' (t, b') <- BatchNorm1d_forward b (BayesMIHM.training s) hidden ;;
         Ok (t, Some b'))%res
   else Ok (hidden, BayesMIHM.bn s)) = Ok (pidx, bn') ->
  interactor_spec (BayesMIHM.include_interactor_bias s)
    (BayesMIHM.interactor_bias s) rnd e inter ->
  mul (sampled rnd "interactor_main_weight" (BayesMIHM.interactor_main_weight s))
    inter = Ok imt ->
  mul (sampled rnd "interaction_weight" (BayesMIHM.interaction_weight s)) inter
    = Ok t ->
  mul t pidx = Ok pit ->
  add pit ct = Ok t1 ->
  add t1 imt = Ok t2 ->
  (if BayesMIHM.concatenate_interaction_vars s
   then epi = t2
   else exists pr u, BayesMIHM.index_main_weight s = Some pr /\
          mul pidx (sampled rnd "index_main_weight" pr) = Ok u /\
          add t2 u = Ok epi) ->
  nrows epi <> 0 ->
  exists tr',
    BayesMIHM.forward_locals s rnd x e c y tr
    = Ok (mkLocals all ct reduced pidx inter imt pit epi
            (sampled rnd "sigma" (Gamma (1 # 2) 1)) bn', tr').
Proof.
  intros H1 H2 H3 H4 H5 H6 H7 H8 H9 H10 H11 H12 H13.
  unfold BayesMIHM.forward_locals, PyroLinear_forward.
  rewrite (bind_lift_ok _ _ _ _ _ _ H1).
  rewrite bind_assoc, bind_sample, bind_assoc, bind_sample.
  rewrite (bind_lift_ok _ _ _ _ _ _ H2).
  rewrite (bind_lift_ok _ _ _ _ _ _ H3).
  rewrite (bind_lift_ok _ _ _ _ _ _ H4).
  rewrite (bind_lift_ok _ _ _ _ _ _ H5).
  unfold interactor_spec in H6.
  assert (E9 : (t0 <- mul (sampled rnd "interaction_weight"
                             (BayesMIHM.interaction_weight s)) inter ;;
                mul t0 pidx)%res = Ok pit)
    by (rewrite H8; exact H9).
  assert (E11 : (t0 <- add pit ct ;; add t0 imt)%res = Ok t2)
    by (rewrite H10; exact H11).
  destruct (BayesMIHM.include_interactor_bias s).
  - destruct H6 as (pr & d & Hpr & Hd & Hi).
    assert (E6 : (d0 <- sub (unsqueeze1 e) (sampled rnd "interactor_bias" pr) ;;
                  maximum (scalar 0) d0)%res = Ok inter)
      by (rewrite Hd; exact Hi).
    rewrite Hpr. rewrite bind_assoc. cbn [attr].
    rewrite (bind_lift_ok _ _ _ _ _ _ eq_refl).
    rewrite bind_assoc, bind_sample.
    rewrite (bind_lift_ok _ _ _ _ _ _ E6).
    rewrite bind_sample, (bind_lift_ok _ _ _ _ _ _ H7).
    rewrite bind_sample, (bind_lift_ok _ _ _ _ _ _ E9).
    destruct (BayesMIHM.concatenate_interaction_vars s).
    + subst epi. rewrite (bind_lift_ok _ _ _ _ _ _ E11).
      rewrite bind_sample, (bind_plate _ _ _ _ _ H13).
      unfold bind, sample, ret. eexists. reflexivity.
    + destruct H12 as (pr' & u & Hpr' & Hu & Hepi).
      assert (E12 : (u0 <- mul pidx (sampled rnd "index_main_weight" pr') ;;
                     add t2 u0)%res = Ok epi)
        by (rewrite Hu; exact Hepi).
      rewrite bind_assoc, (bind_lift_ok _ _ _ _ _ _ E11).
      rewrite Hpr'. rewrite bind_assoc. cbn [attr].
      rewrite (bind_lift_ok _ _ _ _ _ _ eq_refl).
      rewrite bind_assoc, bind_sample.
      rewrite (bind_lift_ok _ _ _ _ _ _ E12).
      rewrite bind_sample, (bind_plate _ _ _ _ _ H13).
      unfold bind, sample, ret. eexists. reflexivity.
  - subst inter. rewrite bind_ret.
    rewrite bind_sample, (bind_lift_ok _ _ _ _ _ _ H7).
    rewrite bind_sample, (bind_lift_ok _ _ _ _ _ _ E9).
    destruct (BayesMIHM.concatenate_interaction_vars s).
    + subst epi. rewrite (bind_lift_ok _ _ _ _ _ _ E11).
      rewrite bind_sample, (bind_plate _ _ _ _ _ H13).
      unfold bind, sample, ret. eexists. reflexivity.
    + destruct H12 as (pr' & u & Hpr' & Hu & Hepi).
      assert (E12 : (u0 <- mul pidx (sampled rnd "index_main_weight" pr') ;;
                     add t2 u0)%res = Ok epi)
        by (rewrite Hu; exact Hepi).
      rewrite bind_assoc, (bind_lift_ok _ _ _ _ _ _ E11).
      rewrite Hpr'. rewrite bind_assoc. cbn [attr].
      rewrite (bind_lift_ok _ _ _ _ _ _ eq_refl).
      rewrite bind_assoc, bind_sample.
      rewrite (bind_lift_ok _ _ _ _ _ _ E12).
      rewrite bind_sample, (bind_plate _ _ _ _ _ H13).
      unfold bind, sample, ret. eexists. reflexivity.
Qed.

End ForwardIntro.

(* ================================================================== *)
(** ** Calls that succeed *)

Section Totality.
Context {num : Numerics}.

Lemma layers_chain_from sizes : forall m k ls,
  map linear_shape ls
  = map (fun i => (nth i sizes 0, nth (i + 1) sizes 0,
                   (nth (i + 1) sizes 0, nth i sizes 0),
                   (1, nth (i + 1) sizes 0))) (seq k m) ->
  chain_ok (nth k sizes 0) ls.
Proof.
  induction m as [|m IH]; intros k ls H.
  - destruct ls; [exact I|discriminate].
  - destruct ls as [|l ls]; [discriminate|].
    cbn [seq map] in H.
    pose proof (f_equal (hd (linear_shape l)) H) as Hl.
    pose proof (f_equal (@tl _) H) as Hls. cbn [hd tl] in Hl, Hls.
    unfold linear_shape in Hl.
    assert (Hc : ncols (weight l) = nth k sizes 0) by congruence.
    assert (Hr : nrows (weight l) = nth (S k) sizes 0)
      by (rewrite <- Nat.add_1_r; congruence).
    cbn [chain_ok]. split; [now rewrite Hc|].
    rewrite Hr. now apply IH.
Qed.

Lemma layers_chain a ls :
  map linear_shape ls = layer_shapes a -> chain_ok (index_input_size a) ls.
Proof.
  intros H. unfold layer_shapes in H.
  exact (layers_chain_from _ _ 0 ls H).
Qed.

Lemma F_linear_total x W b :
  ncols x = ncols W ->
  exists v, F_linear x W b = Ok v /\ nrows v = nrows x /\ ncols v = nrows W.
Proof.
  intros H. unfold F_linear. rewrite H, Nat.eqb_refl.
  eexists. split; [reflexivity|]. now rewrite nrows_build, ncols_build.
Qed.

Lemma nrows_map_gelu x : nrows (map_gelu x) = nrows x.
Proof. unfold map_gelu. now rewrite nrows_build. Qed.

Lemma nrows_dropout d tr k x : nrows (Dropout_forward d tr k x) = nrows x.
Proof. unfold Dropout_forward. destruct tr; [now rewrite nrows_build|reflexivity]. Qed.

Lemma bayes_forward_layers_total s rnd ls : forall i x,
  chain_ok (ncols x) ls ->
  exists v, BayesMIHM.forward_layers s rnd i ls x = Ok v /\ nrows v = nrows x.
Proof.
  induction ls as [|l ls IH]; intros i x Hc.
  - exists x. split; reflexivity.
  - destruct Hc as [Hc Hrest].
    destruct (F_linear_total x (weight l) (bias l) Hc) as (h & Hh & Hn & Hcol).
    cbn [BayesMIHM.forward_layers]. unfold Linear_forward. rewrite Hh.
    destruct (Z.of_nat i =? Z.of_nat (BayesMIHM.num_layers s) - 1)%Z;
      cbn [rbind].
    + rewrite <- Hcol in Hrest.
      destruct (IH (S i) h Hrest) as (v & Hv & Hnv).
      exists v. split; [exact Hv|congruence].
    + set (h' := Dropout_forward _ _ _ _).
      assert (Hc' : ncols h' = nrows (weight l))
        by (unfold h'; now rewrite ncols_dropout, ncols_map_gelu).
      assert (Hn' : nrows h' = nrows x)
        by (unfold h'; now rewrite nrows_dropout, nrows_map_gelu).
      rewrite <- Hc' in Hrest.
      destruct (IH (S i) h' Hrest) as (v & Hv & Hnv).
      exists v. split; [exact Hv|congruence].
Qed.

Lemma bcast_shape f a b N C :
  bdim (nrows a) (nrows b) = Some N -> bdim (ncols a) (ncols b) = Some C ->
  exists t, bcast f a b = Ok t /\ nrows t = N /\ ncols t = C.
Proof.
  intros HN HC. unfold bcast. rewrite HN, HC. eexists.
  split; [reflexivity|]. now rewrite nrows_build, ncols_build.
Qed.

End Totality.

(* ================================================================== *)
(** ** The scenario of one observation of zeros *)

Section Scenario.
Context {num : Numerics}.

Lemma nrows_sampled rnd name fn : nrows (sampled rnd name fn) = fst (shape_of fn).
Proof. unfold sampled. now rewrite nrows_build. Qed.

Lemma ncols_sampled rnd name fn : ncols (sampled rnd name fn) = snd (shape_of fn).
Proof. reflexivity. Qed.

Lemma thresholded_exposure_total rnd name sc e :
  exists d t,
    sub (unsqueeze1 e) (sampled rnd name (HalfNormal sc [1])) = Ok d /\
    maximum (scalar 0) d = Ok t.
Proof.
  destruct (bcast_shape Qminus (unsqueeze1 e) (sampled rnd name (HalfNormal sc [1]))
              (length e) 1) as (d & Hd & Hn & Hc).
  { rewrite nrows_unsqueeze1, nrows_sampled. apply bdim_1_r. }
  { reflexivity. }
  destruct (bcast_shape Qmax (scalar 0) d (length e) 1) as (t & Ht & _).
  { rewrite Hn. apply bdim_1_l. }
  { now rewrite Hc. }
  exists d, t. split; assumption.
Qed.

Lemma entry_linear_zero_row x W b ct n :
  F_linear x W b = Ok ct -> ncols W = n ->
  (forall l, l < n -> entry x 0 l = 0%Q) ->
  0 < nrows x -> 0 < nrows W ->
  (entry ct 0 0 == entry b 0 0)%Q.
Proof.
  unfold F_linear. destruct (ncols x =? ncols W); [|discriminate].
  intros [= <-] Hn Hz Hx HW. rewrite entry_build by assumption.
  rewrite Hn.
  assert (Hdot : forall m acc, m <= n ->
            (fold_left (fun acc l => acc + entry x 0 l * entry W 0 l)
               (seq 0 m) acc == acc)%Q).
  { induction m as [|m IH]; intros acc Hm; [reflexivity|].
    rewrite seq_S, fold_left_app. cbn [fold_left Nat.add].
    rewrite IH by lia. rewrite Hz by lia. ring. }
  unfold dot. rewrite Hdot by lia. ring.
Qed.


Lemma scenario_run s rnd y tr :
  bayes_model (c5_args false) s ->
  exists L tr',
    BayesMIHM.forward_locals s rnd c5_x c5_e c5_c y tr = Ok (L, tr') /\
    nrows (interactor L) = 1 /\ ncols (interactor L) = 1 /\
    nrows (controlled_term L) = 1 /\ ncols (controlled_term L) = 1 /\
    nrows (predicted_index L) = 1 /\ ncols (predicted_index L) = 8 /\
    nrows (predicted_epi L) = 1 /\ ncols (predicted_epi L) = 8.
Proof.
  intros Hm. destruct (bayes_model_arch _ _ Hm) as (_ & _ & Ha).
  unfold bayes_arch, bayes_arch_of, common_arch in Ha.
  injection Ha as Ec Ed Edev Ebn Ebnv Esm Ek Esvd Enl Els Ecw Eiw Emw Eimw Einc Eib.
  cbn in Ec, Ebn, Esvd, Ecw, Eiw, Emw, Eimw, Einc, Eib.
  assert (Hne : a_hidden_layer_sizes (c5_args false) <> []) by discriminate.
  destruct (layer_shapes_ends _ _ Els Hne) as (Hls & _ & _ & _ & Hlast).
  (* the controlled term *)
  destruct (F_linear_total c5_c
              (sampled rnd "controlled_var_weights.weight"
                 (weight_prior (BayesMIHM.controlled_var_weights s)))
              (sampled rnd "controlled_var_weights.bias"
                 (bias_prior (BayesMIHM.controlled_var_weights s))))
    as (ct & Hct & Hctn & Hctc).
  { now rewrite Ecw. }
  rewrite Ecw in Hctc. cbn in Hctn.
  rewrite nrows_sampled in Hctc. cbn in Hctc.
  (* the layers *)
  destruct (bayes_forward_layers_total s rnd (BayesMIHM.layers s) 0 c5_x)
    as (hidden & Hh & Hhn).
  { exact (layers_chain (c5_args false) _ Els). }
  destruct (bayes_forward_layers_cols s rnd _ 0 c5_x hidden Hls Hh) as [_ Hhc].
  rewrite Hlast in Hhc. cbn in Hhn, Hhc.
  (* the effective exposure *)
  destruct (thresholded_exposure_total rnd "interactor_bias" 1 c5_e)
    as (d & inter & Hd & Hi).
  destruct (thresholded_exposure _ _ _ _ _ _ Hd Hi) as (Hin & Hic & _).
  cbn in Hin.
  (* the terms *)
  destruct (bcast_shape Qmult
              (sampled rnd "interactor_main_weight"
                 (BayesMIHM.interactor_main_weight s)) inter 1 1)
    as (imt & Himt & Himtn & Himtc).
  { now rewrite nrows_sampled, Emw, Hin. }
  { now rewrite ncols_sampled, Emw, Hic. }
  destruct (bcast_shape Qmult
              (sampled rnd "interaction_weight" (BayesMIHM.interaction_weight s))
              inter 1 1) as (t & Ht & Htn & Htc).
  { now rewrite nrows_sampled, Eiw, Hin. }
  { now rewrite ncols_sampled, Eiw, Hic. }
  destruct (bcast_shape Qmult t hidden 1 8) as (pit & Hpit & Hpitn & Hpitc).
  { now rewrite Htn, Hhn. }
  { now rewrite Htc, Hhc. }
  destruct (bcast_shape Qplus pit ct 1 8) as (t1 & Ht1 & Ht1n & Ht1c).
  { now rewrite Hpitn, Hctn. }
  { now rewrite Hpitc, Hctc. }
  destruct (bcast_shape Qplus t1 imt 1 8) as (t2 & Ht2 & Ht2n & Ht2c).
  { now rewrite Ht1n, Himtn. }
  { now rewrite Ht1c, Himtc. }
  destruct (bcast_shape Qmult hidden
              (sampled rnd "index_main_weight" (Normal 0 1 [1])) 1 8)
    as (u & Hu & Hun & Huc).
  { now rewrite nrows_sampled, Hhn. }
  { now rewrite ncols_sampled, Hhc. }
  destruct (bcast_shape Qplus t2 u 1 8) as (epi & Hepi & Hepin & Hepic).
  { now rewrite Ht2n, Hun. }
  { now rewrite Ht2c, Huc. }
  destruct (bayes_forward_locals_intro s rnd c5_x c5_e c5_c y tr c5_c ct c5_x
              hidden hidden (BayesMIHM.bn s) inter imt t pit t1 t2 epi)
    as (tr' & Hrun).
  { now rewrite Ec. }
  { exact Hct. }
  { now rewrite Esvd. }
  { exact Hh. }
  { now rewrite Ebn. }
  { rewrite Einc, Eib. unfold interactor_spec. eauto. }
  { exact Himt. }
  { exact Ht. }
  { exact Hpit. }
  { exact Ht1. }
  { exact Ht2. }
  { rewrite Ec. exists (Normal 0 1 [1]), u. repeat split; assumption. }
  { rewrite Hepin. discriminate. }
  eexists. exists tr'. split; [exact Hrun|]. cbn [interactor controlled_term
    predicted_index predicted_epi]. repeat split; assumption.
Qed.


(** C5, as amended.  For a model built with 5 interaction predictors, 3
    controls, hidden layers [16; 8], no reduction, no concatenation and the
    threshold bias, one observation with all predictors and all controls
    zero and exposure 10, and a sampled threshold bias of 2: with output
    normalisation (the default) [forward] raises, the index having 8
    columns; without it [forward] returns, the effective exposure is 8 and
    each of the 8 elements of the predicted outcome is interaction weight x
    8 x index + control bias + exposure main-effect weight x 8 + index x
    index main-effect weight, for the index of that column. *)
Theorem C5_scenario_outcome (batch_norm : bool) (s : BayesMIHM.self)
    (rnd : randomness) (y : option tensor) (tr : list site) :
  bayes_model (c5_args batch_norm) s ->
  (draw rnd "interactor_bias" 0 == 2)%Q ->
  if batch_norm
  then exists err,
         BayesMIHM.forward_locals s rnd c5_x c5_e c5_c y tr = Raise err
  else exists L tr',
         BayesMIHM.forward_locals s rnd c5_x c5_e c5_c y tr = Ok (L, tr') /\
         (entry (interactor L) 0 0 == 8)%Q /\
         nrows (predicted_epi L) = 1 /\ ncols (predicted_epi L) = 8 /\
         forall j, j < 8 ->
           (entry (predicted_epi L) 0 j ==
              draw rnd "interaction_weight" 0 * 8 * entry (predicted_index L) 0 j
              + draw rnd "controlled_var_weights.bias" 0
              + draw rnd "interactor_main_weight" 0 * 8
              + entry (predicted_index L) 0 j
                * draw rnd "index_main_weight" 0)%Q.
Proof.
  intros Hm Hb. destruct batch_norm.
  - destruct (BayesMIHM.forward_locals s rnd c5_x c5_e c5_c y tr)
      as [[L tr']|err] eqn:Hrun; [|eauto].
    assert (Hne : a_hidden_layer_sizes (c5_args true) <> []) by discriminate.
    assert (Hpos : 0 < last (a_hidden_layer_sizes (c5_args true)) 0)
      by (cbn; lia).
    destruct (bayes_forward_width_one (c5_args true) s rnd c5_x c5_e c5_c y tr
                L tr' Hm Hne eq_refl Hrun Hpos) as [Habs _].
    discriminate Habs.
  - destruct (scenario_run s rnd y tr Hm)
      as (L & tr' & Hrun & Hin & Hic & Hcn & Hcc & Hpn & Hpc & Hen & Hec).
    exists L, tr'. split; [exact Hrun|].
    pose proof (interactor_of_model (c5_args false) (Bayes s) rnd c5_x c5_e c5_c
                  y tr L tr' Hm Hrun) as Hspec.
    cbn in Hspec. destruct Hspec as (pr & d & [= <-] & Hd & Hi).
    destruct (thresholded_exposure _ _ _ _ _ _ Hd Hi) as (_ & _ & Hval).
    assert (H8 : (entry (interactor L) 0 0 == 8)%Q).
    { rewrite (Hval 0) by (cbn; lia). cbn [nth c5_e].
      rewrite Q.max_r; rewrite Hb; [reflexivity|discriminate]. }
    split; [exact H8|]. split; [exact Hen|]. split; [exact Hec|].
    intros j Hj.
    assert (Hj' : j < ncols (predicted_epi L)) by now rewrite Hec.
    assert (H0 : 0 < nrows (predicted_epi L)) by (rewrite Hen; lia).
    rewrite (bayes_outcome_entries (c5_args false) s rnd c5_x c5_e c5_c y tr L tr'
               0 j Hm Hrun H0 Hj').
    cbn [c5_args a_concatenate_interaction_vars].
    assert (Ei : bread (interactor L) 0 j = entry (interactor L) 0 0)
      by (unfold bread; now rewrite Hin, Hic).
    assert (Ec : bread (controlled_term L) 0 j = entry (controlled_term L) 0 0)
      by (unfold bread; now rewrite Hcn, Hcc).
    assert (Ep : bread (predicted_index L) 0 j = entry (predicted_index L) 0 j).
    { unfold bread. rewrite Hpn, Hpc. change (bidx 1 0) with 0.
      now rewrite bidx_lt by assumption. }
    rewrite Ei, Ec, Ep, H8.
    destruct (bayes_model_arch _ _ Hm) as (_ & _ & Ha).
    pose proof (f_equal (@arch_controlled_var_weights _ _) Ha) as Ecw.
    pose proof (f_equal (@arch_concatenate_interaction_vars _ _) Ha) as Econ.
    cbn in Ecw, Econ.
    destruct (bayes_forward_locals_inv _ _ _ _ _ _ _ _ _ Hrun)
      as (Hall & Hct & _).
    rewrite Econ in Hall. injection Hall as Hall. rewrite <- Hall, Ecw in Hct.
    assert (Ect : (entry (controlled_term L) 0 0
                   == draw rnd "controlled_var_weights.bias" 0)%Q).
    { rewrite (entry_linear_zero_row _ _ _ _ 3 Hct); [| reflexivity | | cbn; lia |].
      - unfold sampled. cbn. reflexivity.
      - intros [|[|[|l]]] Hl; try lia; reflexivity.
      - rewrite nrows_sampled. cbn. lia. }
    rewrite Ect. reflexivity.
Qed.

End Scenario.

(** C5, as amended, for the model as constructed. *)
Lemma C5_scenario_outcome_witness :
  exists L tr',
    BayesMIHM.forward_locals (num := ex_numerics) (c5_model false) c5_rnd c5_x
      c5_e c5_c None [] = Ok (L, tr') /\
    (entry (interactor L) 0 0 == 8)%Q /\
    nrows (predicted_epi L) = 1 /\ ncols (predicted_epi L) = 8 /\
    forall j, j < 8 ->
      (entry (predicted_epi L) 0 j ==
         draw c5_rnd "interaction_weight" 0 * 8 * entry (predicted_index L) 0 j
         + draw c5_rnd "controlled_var_weights.bias" 0
         + draw c5_rnd "interactor_main_weight" 0 * 8
         + entry (predicted_index L) 0 j * draw c5_rnd "index_main_weight" 0)%Q.
Proof.
  assert (Hm : bayes_model (c5_args false) (c5_model false))
    by (exists ex_init, (c5_model false); split; vm_compute; reflexivity).
  assert (Hb : (draw c5_rnd "interactor_bias" 0 == 2)%Q) by reflexivity.
  exact (@C5_scenario_outcome ex_numerics false (c5_model false) c5_rnd None []
           Hm Hb).
Defined.

(** C5 as stated fails.  With the defaults (output normalisation on) the
    call raises, in training mode and in evaluation mode.  With output
    normalisation off the effective exposure is 8, but the controlled term
    is the control bias, not zero, and the predicted outcome is neither
    interaction weight x 8 x index + main-effect weight x 8 nor that sum
    plus the index main term. *)
Lemma C5_counterexample :
  default_args 5 3 [16; 8] = c5_args true /\
  BayesMIHM.init (c5_args true) ex_init = Ok (c5_model true) /\
  BayesMIHM.forward (num := ex_numerics) (c5_model true) c5_rnd c5_x c5_e c5_c
    None [] = Raise ValueError /\
  BayesMIHM.forward (num := ex_numerics) (bayes_eval (c5_model true)) c5_rnd c5_x
    c5_e c5_c None [] = Raise RuntimeError /\
  BayesMIHM.init (c5_args false) ex_init = Ok (c5_model false) /\
  exists L tr',
    BayesMIHM.forward_locals (num := ex_numerics) (c5_model false) c5_rnd c5_x
      c5_e c5_c None [] = Ok (L, tr') /\
    Qeq_bool (entry (interactor L) 0 0) 8 = true /\
    Qeq_bool (entry (controlled_term L) 0 0) 0 = false /\
    Qeq_bool (entry (predicted_epi L) 0 0)
      (draw c5_rnd "interaction_weight" 0 * 8 * entry (predicted_index L) 0 0
       + draw c5_rnd "interactor_main_weight" 0 * 8) = false /\
    Qeq_bool (entry (predicted_epi L) 0 0)
      (draw c5_rnd "interaction_weight" 0 * 8 * entry (predicted_index L) 0 0
       + draw c5_rnd "interactor_main_weight" 0 * 8
       + entry (predicted_index L) 0 0 * draw c5_rnd "index_main_weight" 0)
    = false.
Proof.
  split; [reflexivity|].
  split; [vm_compute; reflexivity|].
  split; [vm_compute; reflexivity|].
  split; [vm_compute; reflexivity|].
  split; [vm_compute; reflexivity|].
  eexists. eexists. split; [vm_compute; reflexivity|].
  repeat split; vm_compute; reflexivity.
Qed.

(* ================================================================== *)
(** ** The search driver *)

Section SearchDriver.
Import Search.

Lemma bracket_keeps_milestones s rungs tid it rew :
  map fst (snd (bracket_on_result s rungs tid it rew)) = map fst rungs.
Proof.
  induction rungs as [|[m rec] rest IH]; [reflexivity|].
  cbn [bracket_on_result].
  destruct ((it <? m) || recorded_in tid rec).
  - destruct (bracket_on_result s rest tid it rew) as [a rest'] eqn:E.
    cbn [snd map fst] in *. now rewrite IH.
  - reflexivity.
Qed.

(** The bracket stops a trial only at a rung it has reached. *)
Lemma bracket_stop_reached s rungs tid it rew :
  fst (bracket_on_result s rungs tid it rew) = STOP ->
  exists m, In m (map fst rungs) /\ m <= it.
Proof.
  induction rungs as [|[m rec] rest IH]; [discriminate|].
  cbn [bracket_on_result].
  destruct (Nat.ltb_spec it m) as [Hlt|Hge]; cbn [orb].
  - destruct (bracket_on_result s rest tid it rew) as [a rest'] eqn:E.
    cbn [fst]. intros Ha. destruct IH as (m' & Hin & Hle); [exact Ha|].
    exists m'. split; [right; exact Hin|exact Hle].
  - destruct (recorded_in tid rec).
    + destruct (bracket_on_result s rest tid it rew) as [a rest'] eqn:E.
      cbn [fst]. intros Ha. destruct IH as (m' & Hin & Hle); [exact Ha|].
      exists m'. split; [right; exact Hin|exact Hle].
    + intros _. exists m. split; [left; reflexivity|exact Hge].
Qed.

Lemma stop_after_one_round rungs tid res :
  map fst rungs = milestones scheduler ->
  fst (on_trial_result scheduler rungs tid res) = STOP ->
  exists t, lookup "training_iteration" res = Some t /\ (1 <= t)%Q.
Proof.
  intros Hr. unfold on_trial_result.
  destruct (lookup "training_iteration" res) as [t|]; [|discriminate].
  destruct (lookup (metric scheduler) res) as [m|]; [|discriminate].
  destruct (Qle_bool (inject_Z (Z.of_nat (max_t scheduler))) t) eqn:Hmax.
  - intros _. exists t. split; [reflexivity|].
    apply Qle_bool_iff in Hmax. eapply Qle_trans; [|exact Hmax]. discriminate.
  - intros Hs. apply bracket_stop_reached in Hs.
    destruct Hs as (m0 & Hin & Hle). rewrite Hr in Hin.
    assert (H1 : 1 <= m0).
    { vm_compute in Hin. decompose [or] Hin; subst; try lia; contradiction. }
    exists t. split; [reflexivity|].
    assert (Hz : (1 <= Qfloor t)%Z) by lia.
    eapply Qle_trans; [|apply Qfloor_le].
    change 1%Q with (inject_Z 1). now rewrite <- Zle_Qle.
Qed.


Lemma best_trial_fold m trials : forall best seen,
  best_so_far m best seen ->
  best_so_far m
    (fold_left
       (fun best t =>
          match metric_last m t with
          | None => best
          | Some score =>
              match best with
              | None => Some t
              | Some b =>
                  match metric_last m b with
                  | Some best_score =>
                      if Qlt_le_dec score best_score then Some t else best
                  | None => Some t
                  end
              end
          end) trials best)
    (seen ++ trials).
Proof.
  induction trials as [|t trials IH]; intros best seen H.
  - now rewrite app_nil_r.
  - cbn [fold_left].
    replace (seen ++ t :: trials) with ((seen ++ [t]) ++ trials)
      by now rewrite <- app_assoc.
    apply IH.
    destruct (metric_last m t) as [score|] eqn:Ht.
    + destruct best as [b|].
      * destruct H as (Hin & bm & Hb & Hmin). rewrite Hb.
        destruct (Qlt_le_dec score bm) as [Hlt|Hle].
        -- split; [apply in_or_app; right; left; reflexivity|].
           exists score. split; [exact Ht|].
           intros t' v [Hin'|[<-|[]]]%in_app_or Hv.
           ++ apply Qle_trans with bm; [now apply Qlt_le_weak|].
              now apply (Hmin t' v).
           ++ rewrite Ht in Hv. injection Hv as <-. apply Qle_refl.
        -- split; [apply in_or_app; left; exact Hin|].
           exists bm. split; [exact Hb|].
           intros t' v [Hin'|[<-|[]]]%in_app_or Hv.
           ++ now apply (Hmin t' v).
           ++ rewrite Ht in Hv. now injection Hv as <-.
      * split; [apply in_or_app; right; left; reflexivity|].
        exists score. split; [exact Ht|].
        intros t' v [Hin'|[<-|[]]]%in_app_or Hv.
        -- rewrite (H t' Hin') in Hv. discriminate.
        -- rewrite Ht in Hv. injection Hv as <-. apply Qle_refl.
    + destruct best as [b|].
      * destruct H as (Hin & bm & Hb & Hmin).
        split; [apply in_or_app; left; exact Hin|].
        exists bm. split; [exact Hb|].
        intros t' v [Hin'|[<-|[]]]%in_app_or Hv.
        -- now apply (Hmin t' v).
        -- rewrite Ht in Hv. discriminate.
      * intros t' [Hin'|[<-|[]]]%in_app_or; [now apply H|exact Ht].
Qed.

Lemma best_trial_is_minimal m trials b :
  get_best_trial_min_last m trials = Some b ->
  In b trials /\
  exists bm, metric_last m b = Some bm /\
    forall t v, In t trials -> metric_last m t = Some v -> (bm <= v)%Q.
Proof.
  intros H. pose proof (best_trial_fold m trials None []) as Hf.
  unfold get_best_trial_min_last in H. rewrite H in Hf.
  apply Hf. intros t [].
Qed.


(** C8.  The search space has two hidden-layer widths and a reduced
    dimension (integer ranges), a categorical batch size, and log-uniform
    learning rate and weight decay.  The scheduler minimises the composite
    metric with grace period 1 and reduction factor 2: its milestones are 1,
    2, 4, ..., 256, each the double of the one before; at a rung it keeps
    the better half; and it stops a trial only on a result whose training
    iteration is at least 1.  The selected trial has the lowest
    last-reported composite metric among the trials that reported one, and
    the script saves the parameter snapshot of that trial's checkpoint. *)
Theorem C8_search_driver :
  map (fun e => (fst e, kind_of (snd e))) config
    = [("layer1", IntegerRange); ("layer2", IntegerRange);
       ("k_dims", IntegerRange); ("batch_size", Categorical);
       ("lr", LogUniform); ("weight_decay", LogUniform)]%string /\
  (metric scheduler = "composite_metric"%string /\
   metric_op scheduler = (-1)%Q /\
   grace_period scheduler = 1 /\ reduction_factor scheduler = 2 /\
   (1 - 1 / inject_Z (Z.of_nat (reduction_factor scheduler)) == 1 # 2)%Q) /\
  (rev (milestones scheduler) = [1; 2; 4; 8; 16; 32; 64; 128; 256] /\
   forall i, S i < length (milestones scheduler) ->
     nth (S i) (rev (milestones scheduler)) 0
     = 2 * nth i (rev (milestones scheduler)) 0) /\
  (forall rungs tid res,
     map fst rungs = milestones scheduler ->
     map fst (snd (on_trial_result scheduler rungs tid res))
       = milestones scheduler /\
     (fst (on_trial_result scheduler rungs tid res) = STOP ->
      exists t, lookup "training_iteration" res = Some t /\ (1 <= t)%Q)) /\
  (forall trials out,
     main_after_run trials = Ok out ->
     exists best bm ckpt,
       In best trials /\
       metric_last "composite_metric" best = Some bm /\
       (forall t v, In t trials ->
          metric_last "composite_metric" t = Some v -> (bm <= v)%Q) /\
       checkpoint best = Some ckpt /\
       getitem "mihm_state_dict" ckpt = Ok (saved_state_dict out) /\
       saved_path out = "best_model.pt"%string /\
       printed_config out = trial_config best).
Proof.
  split; [reflexivity|].
  split; [repeat split; reflexivity|].
  split.
  { split; [reflexivity|].
    intros i Hi. change (length (milestones scheduler)) with 9 in Hi.
    do 8 (destruct i as [|i]; [reflexivity|]). lia. }
  split.
  { intros rungs tid res Hr. split; [|now apply stop_after_one_round].
    unfold on_trial_result.
    destruct (lookup "training_iteration" res) as [t|]; [|exact Hr].
    destruct (lookup (metric scheduler) res) as [m|]; [|exact Hr].
    destruct (Qle_bool _ t); [exact Hr|].
    now rewrite bracket_keeps_milestones. }
  intros trials out H. unfold main_after_run in H.
  apply rbind_ok in H. destruct H as (best & Hbest & H).
  apply attr_ok in Hbest.
  destruct (best_trial_is_minimal _ _ _ Hbest) as (Hin & bm & Hbm & Hmin).
  repeat (apply rbind_ok in H; destruct H as (? & ? & H)).
  injection H as <-.
  match goal with
  | Hc : attr (checkpoint best) = Ok ?c |- _ =>
      apply attr_ok in Hc; exists best, bm, c
  end.
  cbn [saved_state_dict saved_path printed_config]. repeat split; assumption.
Qed.

End SearchDriver.

(** C8 for three trials, the last of which never reported. *)
Lemma C8_search_driver_witness :
  exists out,
    Search.main_after_run ex_trials = Ok out /\
    exists best bm ckpt,
      In best ex_trials /\
      Search.metric_last "composite_metric" best = Some bm /\
      (forall t v, In t ex_trials ->
         Search.metric_last "composite_metric" t = Some v -> (bm <= v)%Q) /\
      Search.checkpoint best = Some ckpt /\
      Search.getitem "mihm_state_dict" ckpt = Ok (Search.saved_state_dict out) /\
      Search.saved_path out = "best_model.pt"%string /\
      Search.printed_config out = Search.trial_config best.
Proof.
  eassert (Hrun : Search.main_after_run ex_trials = Ok _)
    by (vm_compute; reflexivity).
  eexists. split; [exact Hrun|].
  exact (proj2 (proj2 (proj2 (proj2 C8_search_driver))) ex_trials _ Hrun).
Defined.

(* ================================================================== *)
(** ** evaluate_significance and the caller's dataframe *)

Section Evaluation.
Import Eval.
Context {E : Externals}.

Lemma wbind_ok A B (c : W A) (k : A -> W B) w b w' :
  wbind c k w = (Ok b, w') ->
  exists a w1, c w = (Ok a, w1) /\ k a w1 = (Ok b, w').
Proof.
  unfold wbind. destruct (c w) as [[a|e] w1]; [eauto|discriminate].
Qed.

Lemma get_set_column name vals cols :
  option_map snd (find (fun c => String.eqb (fst c) name)
                    (set_column name vals cols)) = Some vals.
Proof.
  induction cols as [|[n v] cols IH]; cbn [set_column].
  - cbn. now rewrite String.eqb_refl.
  - destruct (String.eqb n name) eqn:En; cbn [find fst].
    + now rewrite String.eqb_refl.
    + now rewrite En.
Qed.

Lemma get_other_column name other vals cols :
  other <> name ->
  option_map snd (find (fun c => String.eqb (fst c) other)
                    (set_column name vals cols))
  = option_map snd (find (fun c => String.eqb (fst c) other) cols).
Proof.
  intros Hne. apply String.eqb_neq in Hne.
  induction cols as [|[n v] cols IH]; cbn [set_column].
  - cbn. rewrite String.eqb_sym. now rewrite Hne.
  - destruct (String.eqb n name) eqn:En; cbn [find fst].
    + apply String.eqb_eq in En. subst n.
      rewrite String.eqb_sym, Hne. reflexivity.
    + destruct (String.eqb n other); [reflexivity|exact IH].
Qed.

(** The assignment sets the column, and keeps the others when the frame
    had rows. *)
Lemma assign_column d name vals d' :
  assign d name vals = Ok d' ->
  get_column name d' = Some vals /\
  (index_len d <> 0 ->
   index_len d' = index_len d /\
   forall other, other <> name -> get_column other d' = get_column other d).
Proof.
  unfold assign.
  destruct (Nat.eqb_spec (index_len d) 0) as [Hz|Hnz]; cbn [andb].
  - destruct (0 <? length vals).
    + intros [= <-]. split; [apply get_set_column|]. intros H. contradiction.
    + destruct (length vals =? index_len d); [|discriminate].
      intros [= <-]. split; [apply get_set_column|]. intros H. contradiction.
  - destruct (length vals =? index_len d); [|discriminate].
    intros [= <-]. split; [apply get_set_column|].
    intros _. split; [reflexivity|].
    intros other Hne. now apply get_other_column.
Qed.

Lemma nth_error_update_same A (l : list A) r a x :
  nth_error l r = Some x -> nth_error (update l r a) r = Some a.
Proof.
  revert r. induction l as [|y l IH]; intros [|r] H; try discriminate.
  - reflexivity.
  - cbn. now apply IH.
Qed.

Lemma nth_error_update_other A (l : list A) r r' a :
  r' <> r -> nth_error (update l r a) r' = nth_error l r'.
Proof.
  revert r r'. induction l as [|y l IH]; intros [|r] [|r'] H; try reflexivity.
  - contradiction.
  - cbn. apply IH. congruence.
Qed.

Lemma setitem_ok df name vals w u w' :
  setitem df name vals w = (Ok u, w') ->
  exists d d', nth_error (heap w) df = Some d /\ assign d name vals = Ok d' /\
    w' = mkWorld (update (heap w) df d') (outside w) (log w).
Proof.
  unfold setitem. destruct (nth_error (heap w) df) as [d|]; [|discriminate].
  destruct (assign d name vals) as [d'|] eqn:Ea; [|discriminate].
  intros H. injection H as _ Hw. subst w'. exists d, d'. auto.
Qed.

Lemma save_path_of_ok save_dir id w path w' :
  save_path_of save_dir id w = (Ok path, w') ->
  heap w' = heap w /\
  match id with
  | Some i =>
      path = path_join save_dir ("index_prediction_" ++ i ++ ".dta") /\ w' = w
  | None =>
      exists names,
        fst (os_listdir (outside w) save_dir) = Ok names /\
        path = path_join save_dir
                 ("index_prediction_" ++ str (length names) ++ ".dta") /\
        log w' = log w ++ [Listdir save_dir]
  end.
Proof.
  unfold save_path_of. destruct id as [i|].
  - unfold wret. intros [= <- <-]. auto.
  - intros H. apply wbind_ok in H. destruct H as (names & w1 & Hl & H).
    unfold wret in H. injection H as <- <-.
    unfold listdir in Hl.
    destruct (os_listdir (outside w) save_dir) as [r o] eqn:Eo.
    injection Hl as -> <-. cbn. split; [reflexivity|].
    exists names. auto.
Qed.


Lemma extends_refl w : extends w w.
Proof. split; [reflexivity|]. exists []. now rewrite app_nil_r. Qed.

Lemma extends_trans w1 w2 w3 : extends w1 w2 -> extends w2 w3 -> extends w1 w3.
Proof.
  intros [H1 [m1 L1]] [H2 [m2 L2]]. split; [congruence|].
  exists (m1 ++ m2). now rewrite L2, L1, app_assoc.
Qed.

Lemma run_extends cmd w r w' : run cmd w = (r, w') -> extends w w'.
Proof.
  unfold run. destruct (stata_run (outside w) cmd) as [r0 o].
  intros [= <- <-]. split; [reflexivity|]. cbn. eauto.
Qed.

Lemma wlift_same A (c : result A) w r w' : wlift c w = (r, w') -> w' = w.
Proof. unfold wlift. now intros [= _ <-]. Qed.


Lemma to_stata_ok df path w u w' :
  DataFrame_to_stata df path w = (Ok u, w') ->
  exists d, nth_error (heap w) df = Some d /\ heap w' = heap w /\
    log w' = log w ++ [ToStata path d].
Proof.
  unfold DataFrame_to_stata.
  destruct (nth_error (heap w) df) as [d|]; [|discriminate].
  destruct (to_stata (outside w) path d) as [r o].
  intros H. injection H as _ <-. exists d. auto.
Qed.

Lemma to_stata_heap df path w r w' :
  DataFrame_to_stata df path w = (r, w') -> heap w' = heap w.
Proof.
  unfold DataFrame_to_stata.
  destruct (nth_error (heap w) df) as [d|]; [|now intros [= _ <-]].
  destruct (to_stata (outside w) path d) as [r0 o].
  now intros [= _ <-].
Qed.


Lemma grows_bind A B (c : W A) (k : A -> W B) :
  grows c -> (forall a, grows (k a)) -> grows (wbind c k).
Proof.
  intros Hc Hk w r w'. unfold wbind.
  destruct (c w) as [[a|e] w1] eqn:Ec.
  - intros H. exact (extends_trans _ _ _ (Hc _ _ _ Ec) (Hk a _ _ _ H)).
  - intros [= _ <-]. exact (Hc _ _ _ Ec).
Qed.

Lemma grows_run cmd : grows (run cmd).
Proof. intros w r w' H. exact (run_extends _ _ _ _ H). Qed.

Lemma grows_lift A (c : result A) : grows (wlift c).
Proof.
  intros w r w' H. rewrite (wlift_same _ _ _ _ _ H). apply extends_refl.
Qed.

Lemma grows_ret A (a : A) : grows (wret a).
Proof. intros w r w'. unfold wret. intros [= _ <-]. apply extends_refl. Qed.

Lemma grows_get_return : grows get_return.
Proof.
  intros w r w'. unfold get_return. intros [= _ <-]. apply extends_refl.
Qed.

Lemma grows_to_stata df path : grows (DataFrame_to_stata df path).
Proof.
  intros w r w'. unfold DataFrame_to_stata.
  destruct (nth_error (heap w) df) as [d|].
  - destruct (to_stata (outside w) path d) as [r0 o].
    intros [= _ <-]. split; [reflexivity|]. cbn. eauto.
  - intros [= _ <-]. apply extends_refl.
Qed.

Lemma grows_listdir dir : grows (listdir dir).
Proof.
  intros w r w'. unfold listdir.
  destruct (os_listdir (outside w) dir) as [r0 o].
  intros [= _ <-]. split; [reflexivity|]. cbn. eauto.
Qed.

Lemma grows_save_path save_dir id : grows (save_path_of save_dir id).
Proof.
  unfold save_path_of. destruct id as [i|].
  - apply grows_ret.
  - apply grows_bind; [apply grows_listdir|]. intros names. apply grows_ret.
Qed.

Ltac grows :=
  repeat first [ apply grows_bind; [|intros ?]
               | apply grows_to_stata | apply grows_run
               | apply grows_get_return | apply grows_lift
               | apply grows_ret ].

(** What follows a successful write: the frame written is the one on the
    heap, and the rest only adds to the log. *)
Lemma to_stata_then_ok A (k : unit -> W A) df path w v w' :
  (forall u, grows (k u)) ->
  wbind (DataFrame_to_stata df path) k w = (Ok v, w') ->
  exists d after,
    nth_error (heap w) df = Some d /\ heap w' = heap w /\
    log w' = log w ++ ToStata path d :: after.
Proof.
  intros Hk H.
  apply wbind_ok in H. destruct H as (u & w1 & Hs & H).
  destruct (to_stata_ok _ _ _ _ _ Hs) as (d & Hd & Hh & Hl).
  destruct (Hk u _ _ _ H) as [Hh' [more Hm]].
  exists d, more. repeat split; [assumption|congruence|].
  rewrite Hm, Hl, <- app_assoc. reflexivity.
Qed.

Lemma str_inj n m : str n = str m -> n = m.
Proof.
  unfold str. intros H.
  apply (f_equal NilEmpty.uint_of_string) in H.
  rewrite !NilEmpty.usu in H. injection H as H.
  apply (f_equal Nat.of_uint) in H.
  now rewrite !DecimalNat.Unsigned.of_to in H.
Qed.

Lemma append_inj_r (a b c : string) : (a ++ b = a ++ c)%string -> b = c.
Proof.
  induction a as [|x a IH]; cbn; [auto|]. intros [= H]. auto.
Qed.

Lemma length_append (a b : string) :
  String.length (a ++ b) = String.length a + String.length b.
Proof. induction a as [|x a IH]; cbn; [reflexivity|now rewrite IH]. Qed.

Lemma append_inj_l (a b c : string) : (a ++ c = b ++ c)%string -> a = b.
Proof.
  intros H.
  assert (L : String.length a = String.length b).
  { apply (f_equal String.length) in H.
    rewrite !length_append in H. lia. }
  revert b H L. induction a as [|x a IH]; intros [|y b] H L;
    try discriminate; [reflexivity|].
  cbn in H. injection H as -> H. f_equal. apply IH; [assumption|].
  cbn in L. lia.
Qed.

(** Without an id, directories with different numbers of entries give
    different paths. *)
Lemma save_path_depends_on_listing save_dir n m :
  n <> m ->
  path_join save_dir ("index_prediction_" ++ str n ++ ".dta")
  <> path_join save_dir ("index_prediction_" ++ str m ++ ".dta").
Proof.
  intros Hne H. apply Hne. apply str_inj.
  unfold path_join in H.
  destruct ((String.length save_dir =? 0) || ends_with_slash save_dir).
  - apply append_inj_r in H. apply append_inj_r in H.
    now apply append_inj_l in H.
  - apply append_inj_r in H. apply (append_inj_r "/") in H.
    apply append_inj_r in H. now apply append_inj_l in H.
Qed.

(** C10. A call of [evaluate_significance] on the dataframe the caller
    holds at the reference [df_orig] either raises before the assignment
    and leaves the heap as it was, or replaces that dataframe, in place, by
    the one in which the column "vul_index" holds the index predictions,
    and nothing after the assignment changes the heap again.  When the call
    returns, the second case holds: the caller's reference then points to
    the frame with the new column (whether or not a column of that name
    existed, and with the other columns as they were when the frame had
    rows), the other objects are untouched, the frame written to disk is
    the one with the new column, and the path of the file is made from the
    id, or from the number of entries of the save directory at the time of
    the call when no id is given, different numbers giving different
    paths. *)
Theorem C10_dataframe_mutated_in_place df_orig preds save_dir id w r w' :
  evaluate_significance df_orig preds save_dir id w = (r, w') ->
  ((heap w' = heap w /\ exists e, r = Raise e) \/
   (exists d d', nth_error (heap w) df_orig = Some d /\
      assign d "vul_index" preds = Ok d' /\
      heap w' = update (heap w) df_orig d')) /\
  (forall v, r = Ok v ->
   exists d d' path listing after,
     nth_error (heap w) df_orig = Some d /\
     assign d "vul_index" preds = Ok d' /\
     nth_error (heap w') df_orig = Some d' /\
     get_column "vul_index" d' = Some preds /\
     (index_len d <> 0 ->
      index_len d' = index_len d /\
      forall other, other <> "vul_index"%string ->
        get_column other d' = get_column other d) /\
     (forall other, other <> df_orig ->
        nth_error (heap w') other = nth_error (heap w) other) /\
     log w' = log w ++ listing ++ ToStata path d' :: after /\
     match id with
     | Some i =>
         listing = [] /\
         path = path_join save_dir ("index_prediction_" ++ i ++ ".dta")
     | None =>
         listing = [Listdir save_dir] /\
         exists names,
           fst (os_listdir (outside w) save_dir) = Ok names /\
           path = path_join save_dir
                    ("index_prediction_" ++ str (length names) ++ ".dta") /\
           forall n, n <> length names ->
             path <> path_join save_dir
                       ("index_prediction_" ++ str n ++ ".dta")
     end).
Proof.
  unfold evaluate_significance. unfold wbind at 1.
  destruct (save_path_of save_dir id w) as [[path|e] w1] eqn:Hp.
  2:{ intros [= <- <-]. split; [|discriminate]. left. split; [|eauto].
      exact (proj1 (grows_save_path _ _ _ _ _ Hp)). }
  destruct (save_path_of_ok _ _ _ _ _ Hp) as [Hh1 Hpath].
  unfold wbind at 1.
  destruct (setitem df_orig "vul_index" preds w1) as [[u|e] w2] eqn:Hs.
  2:{ intros [= <- <-]. split; [|discriminate]. left. split; [|eauto].
      unfold setitem in Hs.
      destruct (nth_error (heap w1) df_orig) as [d|];
        [destruct (assign d "vul_index" preds)|]; try discriminate;
        injection Hs as _ <-; exact Hh1. }
  destruct (setitem_ok _ _ _ _ _ _ Hs) as (d & d' & Hd & Ha & ->).
  rewrite Hh1 in Hd.
  intros H. split.
  { right. exists d, d'. split; [assumption|]. split; [assumption|].
    match type of H with
    | ?c _ = _ => assert (Hg : grows c) by grows
    end.
    rewrite (proj1 (Hg _ _ _ H)). cbn [heap]. now rewrite Hh1. }
  intros v ->.
  apply to_stata_then_ok in H; [|intros ?; grows].
  destruct H as (d2 & after & Hd2 & Hh & Hl).
  cbn [heap log] in Hd2, Hh, Hl. rewrite Hh1 in Hd2, Hh.
  rewrite (nth_error_update_same _ _ _ _ _ Hd) in Hd2. injection Hd2 as <-.
  destruct (assign_column _ _ _ _ Ha) as [Hc Hother].
  exists d, d', path, (match id with Some _ => [] | None => [Listdir save_dir] end),
    after.
  split; [assumption|]. split; [assumption|].
  split; [rewrite Hh; exact (nth_error_update_same _ _ _ _ _ Hd)|].
  split; [assumption|]. split; [assumption|].
  split; [intros other Hne; rewrite Hh; now apply nth_error_update_other|].
  destruct id as [i|].
  - destruct Hpath as [-> ->]. split; [exact Hl|]. split; reflexivity.
  - destruct Hpath as (names & Hn & -> & Hlog).
    split; [rewrite Hl, Hlog, <- app_assoc; reflexivity|].
    split; [reflexivity|]. exists names. split; [assumption|].
    split; [reflexivity|].
    intros n Hne Heq. symmetry in Heq.
    exact (save_path_depends_on_listing _ _ _ Hne Heq).
Qed.

End Evaluation.

(** C10 for a frame that already has the column, in a directory of two
    files and without an id. *)
Lemma C10_dataframe_mutated_in_place_witness :
  exists v0 w',
    @Eval.evaluate_significance ex_externals 0 ex_predictions "temp" None
      ex_world = (Ok v0, w') /\
    ((Eval.heap w' = Eval.heap ex_world /\ exists e, Ok v0 = Raise e) \/
     (exists d d', nth_error (Eval.heap ex_world) 0 = Some d /\
        Eval.assign d "vul_index" ex_predictions = Ok d' /\
        Eval.heap w' = Eval.update (Eval.heap ex_world) 0 d')) /\
    (forall v, Ok v0 = Ok v ->
     exists d d' path listing after,
       nth_error (Eval.heap ex_world) 0 = Some d /\
       Eval.assign d "vul_index" ex_predictions = Ok d' /\
       nth_error (Eval.heap w') 0 = Some d' /\
       Eval.get_column "vul_index" d' = Some ex_predictions /\
       (Eval.index_len d <> 0 ->
        Eval.index_len d' = Eval.index_len d /\
        forall other, other <> "vul_index"%string ->
          Eval.get_column other d' = Eval.get_column other d) /\
       (forall other, other <> 0 ->
          nth_error (Eval.heap w') other = nth_error (Eval.heap ex_world) other) /\
       Eval.log w' = Eval.log ex_world ++ listing ++ Eval.ToStata path d' :: after /\
       listing = [Eval.Listdir "temp"] /\
       exists names,
         fst (Eval.os_listdir (Eval.outside ex_world) "temp") = Ok names /\
         path = Eval.path_join "temp"
                  ("index_prediction_" ++ Eval.str (length names) ++ ".dta") /\
         forall n, n <> length names ->
           path <> Eval.path_join "temp"
                     ("index_prediction_" ++ Eval.str n ++ ".dta")).
Proof.
  eassert (Hrun : @Eval.evaluate_significance ex_externals 0 ex_predictions
                    "temp" None ex_world = (Ok _, _))
    by (vm_compute; reflexivity).
  eexists. eexists. split; [exact Hrun|].
  exact (@C10_dataframe_mutated_in_place ex_externals 0 ex_predictions
           "temp"%string None ex_world _ _ Hrun).
Defined.

(* ================================================================== *)
(** ** Batches that [forward] refuses *)

Section RefusedBatches.
Context {num : Numerics}.

Lemma bayes_forward_layers_rows s rnd ls : forall i x v,
  BayesMIHM.forward_layers s rnd i ls x = Ok v -> nrows v = nrows x.
Proof.
  induction ls as [|l ls IH]; intros i x v H; cbn [BayesMIHM.forward_layers] in H.
  - now injection H as <-.
  - apply rbind_ok in H. destruct H as (x' & Hl & H).
    rewrite (IH _ _ _ H).
    destruct (Z.of_nat i =? Z.of_nat (BayesMIHM.num_layers s) - 1)%Z.
    + unfold Linear_forward in Hl. now destruct (F_linear_ok _ _ _ _ Hl) as (_ & -> & _).
    + apply rbind_ok in Hl. destruct Hl as (h & Hl & Hx). injection Hx as <-.
      rewrite nrows_dropout, nrows_map_gelu.
      unfold Linear_forward in Hl. now destruct (F_linear_ok _ _ _ _ Hl) as (_ & -> & _).
Qed.

Lemma relaxed_forward_layers_rows s rnd ls : forall i x v,
  RelaxedBayesMIHM.forward_layers s rnd i ls x = Ok v -> nrows v = nrows x.
Proof.
  induction ls as [|l ls IH]; intros i x v H;
    cbn [RelaxedBayesMIHM.forward_layers] in H.
  - now injection H as <-.
  - apply rbind_ok in H. destruct H as (x' & Hl & H).
    rewrite (IH _ _ _ H).
    destruct (Z.of_nat i =? Z.of_nat (RelaxedBayesMIHM.num_layers s) - 1)%Z.
    + unfold Linear_forward in Hl. now destruct (F_linear_ok _ _ _ _ Hl) as (_ & -> & _).
    + apply rbind_ok in Hl. destruct Hl as (h & Hl & Hx). injection Hx as <-.
      rewrite nrows_dropout, nrows_map_gelu.
      unfold Linear_forward in Hl. now destruct (F_linear_ok _ _ _ _ Hl) as (_ & -> & _).
Qed.

Lemma matmul_ok a b t :
  matmul a b = Ok t -> ncols a = nrows b /\ nrows t = nrows a /\ ncols t = ncols b.
Proof.
  unfold matmul. destruct (Nat.eqb_spec (ncols a) (nrows b)); [|discriminate].
  intros [= <-]. now rewrite nrows_build.
Qed.

(** The optional reduction keeps the number of rows. *)
Lemma reduction_rows (svd : bool) (oB : option tensor) (ok : option nat) x r :
  (if svd
   then (B <- attr oB ;; k <- attr ok ;; matmul x (slice_cols k B))%res
   else Ok x) = Ok r ->
  nrows r = nrows x.
Proof.
  destruct svd.
  - intros H. apply rbind_ok in H. destruct H as (B & _ & H).
    apply rbind_ok in H. destruct H as (k & _ & H).
    now destruct (matmul_ok _ _ _ H) as (_ & -> & _).
  - now intros [= <-].
Qed.

Lemma BatchNorm1d_forward_rows b tr x t b' :
  BatchNorm1d_forward b tr x = Ok (t, b') ->
  nrows t = nrows x /\ (tr = true -> nrows x <> 1).
Proof.
  intros H. split.
  - destruct (BatchNorm1d_forward_ok _ _ _ _ _ H) as [[_ ->]|(_ & -> & _)];
      reflexivity.
  - intros -> Hx. unfold BatchNorm1d_forward in H. rewrite Hx in H.
    discriminate H.
Qed.

Lemma cat1_ok a b t :
  cat1 a b = Ok t ->
  nrows a = nrows b /\ nrows t = nrows a /\ ncols t = ncols a + ncols b.
Proof.
  unfold cat1. destruct (Nat.eqb_spec (nrows a) (nrows b)); [|discriminate].
  intros [= <-]. now rewrite nrows_build.
Qed.

Lemma interactor_rows flag prior rnd e t :
  interactor_spec flag prior rnd e t -> length e = 0 -> nrows t = 0.
Proof.
  unfold interactor_spec. destruct flag.
  - intros (pr & d & _ & Hd & Ht) He.
    eapply bcast_rows_zero; [exact Ht|right].
    eapply bcast_rows_zero; [exact Hd|left].
    now rewrite nrows_unsqueeze1.
  - intros -> He. now rewrite nrows_unsqueeze1.
Qed.

Lemma outcome_rows_any pidx iw inter t pit ct t1 imt t2 :
  mul iw inter = Ok t -> mul t pidx = Ok pit ->
  add pit ct = Ok t1 -> add t1 imt = Ok t2 ->
  nrows pidx = 0 \/ nrows inter = 0 \/ nrows ct = 0 -> nrows t2 = 0.
Proof.
  unfold mul, add. intros Ht Hpit H1 H2 Hz.
  eapply bcast_rows_zero; [exact H2|left].
  destruct Hz as [Hz|[Hz|Hz]].
  - eapply bcast_rows_zero; [exact H1|left].
    eapply bcast_rows_zero; [exact Hpit|right; exact Hz].
  - eapply bcast_rows_zero; [exact H1|left].
    eapply bcast_rows_zero; [exact Hpit|left].
    eapply bcast_rows_zero; [exact Ht|right; exact Hz].
  - eapply bcast_rows_zero; [exact H1|right; exact Hz].
Qed.

(** What a successful [forward] says about the rows of its inputs. *)
Lemma bayes_forward_rows s rnd x e c y tr L tr' :
  BayesMIHM.forward_locals s rnd x e c y tr = Ok (L, tr') ->
  nrows (predicted_index L) = nrows x /\
  nrows (controlled_term L) = nrows c /\
  (length e = 0 -> nrows (interactor L) = 0) /\
  (BayesMIHM.training s = true -> BayesMIHM.batch_norm s = true -> nrows x <> 1).
Proof.
  intros H. apply bayes_forward_locals_inv in H.
  destruct H as (Hall & Hct & Hred & (hidden & Hh & Hbn) & Hi & _).
  pose proof (reduction_rows _ _ _ _ _ Hred) as Hr.
  pose proof (bayes_forward_layers_rows _ _ _ _ _ _ Hh) as Hhr.
  assert (Hc : nrows (all_linear_vars L) = nrows c).
  { destruct (BayesMIHM.concatenate_interaction_vars s).
    - now destruct (cat1_ok _ _ _ Hall) as (_ & -> & _).
    - now injection Hall as <-. }
  destruct (F_linear_ok _ _ _ _ Hct) as (_ & Hctr & _).
  split; [|split; [congruence|split; [exact (interactor_rows _ _ _ _ _ Hi)|]]].
  - destruct (BayesMIHM.batch_norm s).
    + destruct Hbn as (b & b' & _ & Hf & _).
      destruct (BatchNorm1d_forward_rows _ _ _ _ _ Hf) as [-> _]. congruence.
    + destruct Hbn as [-> _]. congruence.
  - intros Ht Hb. rewrite Hb in Hbn. destruct Hbn as (b & b' & _ & Hf & _).
    rewrite Ht in Hf.
    destruct (BatchNorm1d_forward_rows _ _ _ _ _ Hf) as [_ Hone].
    specialize (Hone eq_refl). congruence.
Qed.

Lemma relaxed_forward_rows s rnd x e c y tr L tr' :
  RelaxedBayesMIHM.forward_locals s rnd x e c y tr = Ok (L, tr') ->
  nrows (predicted_index L) = nrows x /\
  nrows (controlled_term L) = nrows c /\
  (length e = 0 -> nrows (interactor L) = 0) /\
  (RelaxedBayesMIHM.training s = true -> RelaxedBayesMIHM.batch_norm s = true ->
   nrows x <> 1).
Proof.
  intros H. apply relaxed_forward_locals_inv in H.
  destruct H as (Hall & Hct & Hred & (hidden & Hh & Hbn) & Hi & _).
  pose proof (reduction_rows _ _ _ _ _ Hred) as Hr.
  pose proof (relaxed_forward_layers_rows _ _ _ _ _ _ Hh) as Hhr.
  assert (Hc : nrows (all_linear_vars L) = nrows c).
  { destruct (RelaxedBayesMIHM.concatenate_interaction_vars s).
    - now destruct (cat1_ok _ _ _ Hall) as (_ & -> & _).
    - now injection Hall as <-. }
  unfold Linear_forward in Hct.
  destruct (F_linear_ok _ _ _ _ Hct) as (_ & Hctr & _).
  split; [|split; [congruence|split; [exact (interactor_rows _ _ _ _ _ Hi)|]]].
  - destruct (RelaxedBayesMIHM.batch_norm s).
    + destruct Hbn as (b & b' & _ & Hf & _).
      destruct (BatchNorm1d_forward_rows _ _ _ _ _ Hf) as [-> _]. congruence.
    + destruct Hbn as [-> _]. congruence.
  - intros Ht Hb. rewrite Hb in Hbn. destruct Hbn as (b & b' & _ & Hf & _).
    rewrite Ht in Hf.
    destruct (BatchNorm1d_forward_rows _ _ _ _ _ Hf) as [_ Hone].
    specialize (Hone eq_refl). congruence.
Qed.

Lemma bayes_outcome_rows_zero s rnd x e c y tr L tr' :
  BayesMIHM.forward_locals s rnd x e c y tr = Ok (L, tr') ->
  nrows (predicted_index L) = 0 \/ nrows (interactor L) = 0 \/
  nrows (controlled_term L) = 0 -> False.
Proof.
  intros H Hz. apply bayes_forward_locals_inv in H.
  destruct H as (_ & _ & _ & _ & _ & _ & (t & Ht & Hpit) &
                 (t1 & t2 & H1 & H2 & Hepi) & _ & Hrows).
  pose proof (outcome_rows_any _ _ _ _ _ _ _ _ _ Ht Hpit H1 H2 Hz) as Hz2.
  destruct (BayesMIHM.concatenate_interaction_vars s).
  - congruence.
  - destruct Hepi as (pr & u & _ & _ & Hepi). apply Hrows.
    eapply bcast_rows_zero; [exact Hepi|left; exact Hz2].
Qed.

Lemma relaxed_outcome_rows_zero s rnd x e c y tr L tr' :
  RelaxedBayesMIHM.forward_locals s rnd x e c y tr = Ok (L, tr') ->
  nrows (predicted_index L) = 0 \/ nrows (interactor L) = 0 \/
  nrows (controlled_term L) = 0 -> False.
Proof.
  intros H Hz. apply relaxed_forward_locals_inv in H.
  destruct H as (_ & _ & _ & _ & _ & _ & (t & Ht & Hpit) &
                 (t1 & t2 & H1 & H2 & Hepi) & _ & Hrows).
  pose proof (outcome_rows_any _ _ _ _ _ _ _ _ _ Ht Hpit H1 H2 Hz) as Hz2.
  destruct (RelaxedBayesMIHM.concatenate_interaction_vars s).
  - congruence.
  - destruct Hepi as (pr & u & _ & _ & Hepi). apply Hrows.
    eapply bcast_rows_zero; [exact Hepi|left; exact Hz2].
Qed.

Lemma forward_of_locals m rnd x e c y tr :
  forward_of m rnd x e c y tr
  = match forward_locals_of m rnd x e c y tr with
    | Ok (L, tr') => Ok (predicted_epi L, tr')
    | Raise err => Raise err
    end.
Proof.
  destruct m as [s|s]; cbn [forward_of forward_locals_of];
    [unfold BayesMIHM.forward|unfold RelaxedBayesMIHM.forward];
    unfold bind, ret;
    match goal with |- context [match ?c with _ => _ end] => destruct c as [[L tr']|] end;
    reflexivity.
Qed.

(** X1.  A call of [forward], of either class and in any state of the
    model, raises when one of its three inputs holds no observation: no
    row of interaction predictors, no exposure or no row of controls. *)
Theorem forward_rejects_empty_batch (m : model) (rnd : randomness) (x : tensor)
    (e : list Q) (c : tensor) (y : option tensor) (tr : list site) :
  nrows x = 0 \/ length e = 0 \/ nrows c = 0 ->
  exists err, forward_of m rnd x e c y tr = Raise err.
Proof.
  intros Hz. rewrite forward_of_locals.
  destruct (forward_locals_of m rnd x e c y tr) as [[L tr']|err] eqn:H; [|eauto].
  exfalso. destruct m as [s|s]; cbn [forward_locals_of] in H.
  - destruct (bayes_forward_rows _ _ _ _ _ _ _ _ _ H) as (Hx & Hc & He & _).
    apply (bayes_outcome_rows_zero _ _ _ _ _ _ _ _ _ H).
    destruct Hz as [Hz|[Hz|Hz]];
      [left; congruence|right; left; auto|right; right; congruence].
  - destruct (relaxed_forward_rows _ _ _ _ _ _ _ _ _ H) as (Hx & Hc & He & _).
    apply (relaxed_outcome_rows_zero _ _ _ _ _ _ _ _ _ H).
    destruct Hz as [Hz|[Hz|Hz]];
      [left; congruence|right; left; auto|right; right; congruence].
Qed.

(** X2.  In training mode and with output normalisation, [forward] of a
    model of either class raises on a batch of a single observation. *)
Theorem training_rejects_single_observation (m : model) (rnd : randomness)
    (x : tensor) (e : list Q) (c : tensor) (y : option tensor) (tr : list site) :
  training_of m = true -> batch_norm_of m = true -> nrows x = 1 ->
  exists err, forward_of m rnd x e c y tr = Raise err.
Proof.
  intros Ht Hb Hx. rewrite forward_of_locals.
  destruct (forward_locals_of m rnd x e c y tr) as [[L tr']|err] eqn:H; [|eauto].
  exfalso. destruct m as [s|s]; cbn [forward_locals_of training_of batch_norm_of] in *.
  - destruct (bayes_forward_rows _ _ _ _ _ _ _ _ _ H) as (_ & _ & _ & Hone).
    exact (Hone Ht Hb Hx).
  - destruct (relaxed_forward_rows _ _ _ _ _ _ _ _ _ H) as (_ & _ & _ & Hone).
    exact (Hone Ht Hb Hx).
Qed.

End RefusedBatches.

(** X1 on a batch without rows. *)
Lemma forward_rejects_empty_batch_witness :
  exists err,
    forward_of (num := ex_numerics) (Bayes ex_bayes) ex_rnd (mkT 2 []) ex_e ex_c
      None [] = Raise err.
Proof.
  exact (@forward_rejects_empty_batch ex_numerics (Bayes ex_bayes) ex_rnd
           (mkT 2 []) ex_e ex_c None [] (or_introl eq_refl)).
Defined.

(** X2 on the first observation of the example batch. *)
Lemma training_rejects_single_observation_witness :
  exists err,
    forward_of (num := ex_numerics) (Bayes ex_bayes) ex_rnd (mkT 2 [[1; 2]]%Q)
      [10%Q] (mkT 3 [[1; 2; 3]]%Q) None [] = Raise err.
Proof.
  exact (@training_rejects_single_observation ex_numerics (Bayes ex_bayes) ex_rnd
           (mkT 2 [[1; 2]]%Q) [10%Q] (mkT 3 [[1; 2; 3]]%Q) None []
           eq_refl eq_refl eq_refl).
Defined.

(* ================================================================== *)
(** ** [forward] in evaluation mode *)

Section EvaluationMode.
Context {num : Numerics}.

Lemma BatchNorm1d_eval_keeps b x t b' :
  BatchNorm1d_forward b false x = Ok (t, b') -> b' = b.
Proof.
  unfold BatchNorm1d_forward. cbn [andb].
  destruct (numel x =? 0); [now intros [= _ <-]|].
  destruct (negb (ncols x =? num_features b)); [discriminate|].
  now intros [= _ <-].
Qed.

Lemma bayes_forward_locals_mask s rnd k x e c y tr :
  BayesMIHM.training s = false ->
  BayesMIHM.forward_locals s (with_keep rnd k) x e c y tr
  = BayesMIHM.forward_locals s rnd x e c y tr.
Proof.
  intros Ht. unfold BayesMIHM.forward_locals.
  do 3 (apply bind_ext; intros ? ?).
  now rewrite !bayes_eval_layers by assumption.
Qed.

Lemma relaxed_forward_locals_mask s rnd k x e c y tr :
  RelaxedBayesMIHM.training s = false ->
  RelaxedBayesMIHM.forward_locals s (with_keep rnd k) x e c y tr
  = RelaxedBayesMIHM.forward_locals s rnd x e c y tr.
Proof.
  intros Ht. unfold RelaxedBayesMIHM.forward_locals.
  do 3 (apply bind_ext; intros ? ?).
  now rewrite !relaxed_eval_layers by assumption.
Qed.

(** X3.  In evaluation mode [forward], of either class, does not depend on
    the dropout masks, and it leaves the running statistics of the output
    normalisation as they are. *)
Theorem eval_forward_ignores_dropout (m : model) (rnd : randomness)
    (k : nat -> nat -> nat -> bool) (x : tensor) (e : list Q) (c : tensor)
    (y : option tensor) (tr : list site) :
  training_of m = false ->
  forward_of m (with_keep rnd k) x e c y tr = forward_of m rnd x e c y tr /\
  forward_locals_of m (with_keep rnd k) x e c y tr
    = forward_locals_of m rnd x e c y tr /\
  forall L tr', forward_locals_of m rnd x e c y tr = Ok (L, tr') ->
    bn_after L = bn_of m.
Proof.
  intros Ht.
  assert (Hl : forward_locals_of m (with_keep rnd k) x e c y tr
               = forward_locals_of m rnd x e c y tr).
  { destruct m as [s|s]; cbn [forward_locals_of training_of] in *.
    - now apply bayes_forward_locals_mask.
    - now apply relaxed_forward_locals_mask. }
  split; [now rewrite !forward_of_locals, Hl|]. split; [exact Hl|].
  intros L tr' H.
  destruct m as [s|s]; cbn [forward_locals_of training_of bn_of] in *.
  - apply bayes_forward_locals_inv in H.
    destruct H as (_ & _ & _ & (hidden & _ & Hbn) & _).
    destruct (BayesMIHM.batch_norm s).
    + destruct Hbn as (b & b' & Hb & Hf & ->). rewrite Ht in Hf.
      now rewrite (BatchNorm1d_eval_keeps _ _ _ _ Hf), Hb.
    + now destruct Hbn.
  - apply relaxed_forward_locals_inv in H.
    destruct H as (_ & _ & _ & (hidden & _ & Hbn) & _).
    destruct (RelaxedBayesMIHM.batch_norm s).
    + destruct Hbn as (b & b' & Hb & Hf & ->). rewrite Ht in Hf.
      now rewrite (BatchNorm1d_eval_keeps _ _ _ _ Hf), Hb.
    + now destruct Hbn.
Qed.

Lemma BatchNorm1d_eval_entries b x t b' :
  BatchNorm1d_forward b false x = Ok (t, b') ->
  nrows t = nrows x /\
  forall i j, i < nrows x -> j < ncols x ->
    entry t i j = ((entry x i j - nth j (running_mean b) 0)
                   / sqrt (nth j (running_var b) 0 + eps b))%Q.
Proof.
  unfold BatchNorm1d_forward. cbn [andb].
  destruct (Nat.eqb_spec (numel x) 0) as [Hz|Hz].
  - intros [= <- _]. split; [reflexivity|]. unfold numel in Hz. intros i j Hi Hj. nia.
  - destruct (negb (ncols x =? num_features b)); [discriminate|].
    intros [= <- _]. rewrite nrows_build. split; [reflexivity|].
    intros i j Hi Hj. now rewrite entry_build.
Qed.

(** X4.  In evaluation mode and with output normalisation, the index that
    [forward] uses is the normalisation, with the running statistics, of
    what [get_resilience_index] returns for the same interaction
    predictors: element [(i, j)] is
    [(v_ij - running_mean_j) / sqrt(running_var_j + eps)]. *)
Theorem forward_index_normalises_resilience_index (m : model) (rnd : randomness)
    (x : tensor) (e : list Q) (c : tensor) (y : option tensor)
    (tr : list site) (L : locals) (tr' : list site) :
  training_of m = false -> batch_norm_of m = true ->
  forward_locals_of m rnd x e c y tr = Ok (L, tr') ->
  exists v b,
    get_resilience_index_of m x tr = Ok (v, tr) /\
    bn_of m = Some b /\
    BatchNorm1d_forward b false v = Ok (predicted_index L, b) /\
    nrows (predicted_index L) = nrows v /\
    forall i j, i < nrows v -> j < ncols v ->
      entry (predicted_index L) i j
      = ((entry v i j - nth j (running_mean b) 0)
         / sqrt (nth j (running_var b) 0 + eps b))%Q.
Proof.
  destruct m as [s|s]; cbn [forward_locals_of training_of batch_norm_of bn_of
                            get_resilience_index_of]; intros Ht Hb H.
  - apply bayes_forward_locals_inv in H.
    destruct H as (_ & _ & Hred & (hidden & Hh & Hbn) & _).
    rewrite Hb in Hbn. destruct Hbn as (b & b' & Hbs & Hf & _).
    rewrite Ht in Hf. pose proof (BatchNorm1d_eval_keeps _ _ _ _ Hf) as ->.
    rewrite bayes_eval_layers in Hh by assumption.
    exists hidden, b. split.
    { unfold BayesMIHM.get_resilience_index, bind, lift, ret.
      now rewrite Hred, Hh. }
    split; [assumption|]. split; [assumption|].
    exact (BatchNorm1d_eval_entries _ _ _ _ Hf).
  - apply relaxed_forward_locals_inv in H.
    destruct H as (_ & _ & Hred & (hidden & Hh & Hbn) & _).
    rewrite Hb in Hbn. destruct Hbn as (b & b' & Hbs & Hf & _).
    rewrite Ht in Hf. pose proof (BatchNorm1d_eval_keeps _ _ _ _ Hf) as ->.
    rewrite relaxed_eval_layers in Hh by assumption.
    exists hidden, b. split.
    { unfold RelaxedBayesMIHM.get_resilience_index, bind, lift, ret.
      now rewrite Hred, Hh. }
    split; [assumption|]. split; [assumption|].
    exact (BatchNorm1d_eval_entries _ _ _ _ Hf).
Qed.

End EvaluationMode.

(** X3 for the example model in evaluation mode and the mask that drops
    everything. *)
Lemma eval_forward_ignores_dropout_witness :
  forward_of (num := ex_numerics) (Bayes (bayes_eval ex_bayes))
    (with_keep ex_rnd (fun _ _ _ => false)) ex_x ex_e ex_c None []
  = forward_of (num := ex_numerics) (Bayes (bayes_eval ex_bayes)) ex_rnd ex_x
      ex_e ex_c None [] /\
  forward_locals_of (num := ex_numerics) (Bayes (bayes_eval ex_bayes))
    (with_keep ex_rnd (fun _ _ _ => false)) ex_x ex_e ex_c None []
  = forward_locals_of (num := ex_numerics) (Bayes (bayes_eval ex_bayes)) ex_rnd
      ex_x ex_e ex_c None [] /\
  forall L tr',
    forward_locals_of (num := ex_numerics) (Bayes (bayes_eval ex_bayes)) ex_rnd
      ex_x ex_e ex_c None [] = Ok (L, tr') ->
    bn_after L = bn_of (Bayes (bayes_eval ex_bayes)).
Proof.
  exact (@eval_forward_ignores_dropout ex_numerics (Bayes (bayes_eval ex_bayes))
           ex_rnd (fun _ _ _ => false) ex_x ex_e ex_c None [] eq_refl).
Defined.

(** X4 for the example model in evaluation mode. *)
Lemma forward_index_normalises_resilience_index_witness :
  exists L tr' v b,
    forward_locals_of (num := ex_numerics) (Bayes (bayes_eval ex_bayes)) ex_rnd
      ex_x ex_e ex_c None [] = Ok (L, tr') /\
    get_resilience_index_of (num := ex_numerics) (Bayes (bayes_eval ex_bayes))
      ex_x [] = Ok (v, []) /\
    bn_of (Bayes (bayes_eval ex_bayes)) = Some b /\
    BatchNorm1d_forward (num := ex_numerics) b false v = Ok (predicted_index L, b) /\
    nrows (predicted_index L) = nrows v /\
    forall i j, i < nrows v -> j < ncols v ->
      entry (predicted_index L) i j
      = ((entry v i j - nth j (running_mean b) 0)
         / sqrt (Numerics := ex_numerics) (nth j (running_var b) 0 + eps b))%Q.
Proof.
  eassert (Hrun : forward_locals_of (num := ex_numerics)
                    (Bayes (bayes_eval ex_bayes)) ex_rnd ex_x ex_e ex_c None []
                  = Ok (_, _)) by (vm_compute; reflexivity).
  destruct (@forward_index_normalises_resilience_index ex_numerics
              (Bayes (bayes_eval ex_bayes)) ex_rnd ex_x ex_e ex_c None [] _ _
              eq_refl eq_refl Hrun) as (v & b & H).
  eexists. eexists. exists v, b. split; [exact Hrun|exact H].
Defined.

(* ================================================================== *)
(** ** The sample sites of [forward] *)

Section SampleSites.
Context {num : Numerics}.

(** X5.  A successful call of [forward] on a model built from the
    arguments [a] appends to the trace exactly the sites [bayes_sites]
    (class [BayesMIHM]) or [relaxed_sites] (class [RelaxedBayesMIHM]), in
    that order: the control weights and bias (fully Bayesian class only),
    the threshold bias when it is enabled, the exposure main weight, the
    interaction weight, the index main weight (fully Bayesian class without
    concatenation only), sigma, the plate "data" of the size of the batch,
    and "obs" inside that plate, observed exactly when an outcome is
    given. *)
Theorem forward_sample_sites (a : args) (m : model) (rnd : randomness)
    (x : tensor) (e : list Q) (c : tensor) (y : option tensor)
    (tr : list site) (L : locals) (tr' : list site) :
  is_model a m ->
  forward_locals_of m rnd x e c y tr = Ok (L, tr') ->
  tr' = tr ++ match m with
              | Bayes _ => bayes_sites a y L
              | Relaxed _ => relaxed_sites a y L
              end.
Proof.
  destruct m as [s|s]; cbn [is_model forward_locals_of]; intros Hm H.
  - destruct (bayes_model_arch _ _ Hm) as (_ & _ & Ha).
    unfold bayes_arch, bayes_arch_of, common_arch in Ha.
    injection Ha as Ec Ed Edev Ebn Ebnv Esm Ek Esvd Enl Els Ecw Eiw Emw Eimw
                    Einc Eib.
    unfold BayesMIHM.forward_locals, PyroLinear_forward in H.
    rewrite Ec, Ecw, Eiw, Emw, Eimw, Einc, Eib in H.
    unfold bayes_sites, exposure_sites, likelihood_sites.
    cbn [weight_prior bias_prior] in H.
    destruct (a_concatenate_interaction_vars a), (BayesMIHM.batch_norm s),
             (a_include_interactor_bias a);
      steps;
      repeat match goal with
             | H : Some _ = Some _ |- _ => injection H as <-
             end;
      cbn [predicted_epi sigma app]; rewrite <- ?app_assoc; reflexivity.
  - destruct (relaxed_model_arch _ _ Hm) as (_ & _ & Ha).
    pose proof (f_equal (@arch_concatenate_interaction_vars _ _) Ha) as Ec.
    pose proof (f_equal (@arch_interaction_weight _ _) Ha) as Eiw.
    pose proof (f_equal (@arch_interactor_main_weight _ _) Ha) as Emw.
    pose proof (f_equal (@arch_include_interactor_bias _ _) Ha) as Einc.
    pose proof (f_equal (@arch_interactor_bias _ _) Ha) as Eib.
    cbn in Ec, Eiw, Emw, Einc, Eib.
    unfold RelaxedBayesMIHM.forward_locals in H.
    rewrite Ec, Eiw, Emw, Einc, Eib in H.
    unfold relaxed_sites, exposure_sites, likelihood_sites.
    destruct (a_concatenate_interaction_vars a), (RelaxedBayesMIHM.batch_norm s),
             (a_include_interactor_bias a);
      steps;
      repeat match goal with
             | H : Some _ = Some _ |- _ => injection H as <-
             end;
      cbn [predicted_epi sigma app]; rewrite <- ?app_assoc; reflexivity.
Qed.

End SampleSites.

(** X5 for the example model of each class. *)
Lemma forward_sample_sites_witness :
  (exists L tr',
     forward_locals_of (num := ex_numerics) (Bayes ex_bayes) ex_rnd ex_x ex_e ex_c
       None [] = Ok (L, tr') /\
     tr' = [] ++ bayes_sites ex_args None L) /\
  (exists L tr',
     forward_locals_of (num := ex_numerics) (Relaxed ex_relaxed) ex_rnd ex_x ex_e
       ex_c (Some (mkT 1 [[0]; [1]]%Q)) [] = Ok (L, tr') /\
     tr' = [] ++ relaxed_sites ex_args (Some (mkT 1 [[0]; [1]]%Q)) L).
Proof.
  assert (Hb : bayes_model ex_args ex_bayes)
    by (exists ex_init, ex_bayes; split; vm_compute; reflexivity).
  assert (Hr : relaxed_model ex_args ex_relaxed)
    by (exists ex_init, ex_relaxed; split; vm_compute; reflexivity).
  split.
  - eassert (Hrun : forward_locals_of (num := ex_numerics) (Bayes ex_bayes) ex_rnd
                      ex_x ex_e ex_c None [] = Ok (_, _))
      by (vm_compute; reflexivity).
    eexists. eexists. split; [exact Hrun|].
    exact (@forward_sample_sites ex_numerics ex_args (Bayes ex_bayes) ex_rnd ex_x
             ex_e ex_c None [] _ _ Hb Hrun).
  - eassert (Hrun : forward_locals_of (num := ex_numerics) (Relaxed ex_relaxed)
                      ex_rnd ex_x ex_e ex_c (Some (mkT 1 [[0]; [1]]%Q)) []
                    = Ok (_, _))
      by (vm_compute; reflexivity).
    eexists. eexists. split; [exact Hrun|].
    exact (@forward_sample_sites ex_numerics ex_args (Relaxed ex_relaxed) ex_rnd
             ex_x ex_e ex_c (Some (mkT 1 [[0]; [1]]%Q)) [] _ _ Hr Hrun).
Defined.

(* ================================================================== *)
(** ** The outcomes of the constructors *)

Section ConstructorOutcomes.

Lemma valid_dropout_spec a :
  valid_dropout a = true <-> (0 <= a_dropout a /\ a_dropout a <= 1)%Q.
Proof.
  unfold valid_dropout. rewrite andb_true_iff, !Qle_bool_iff. reflexivity.
Qed.

(** X6.  The constructor of either class raises [ValueError] exactly when
    the dropout probability is outside [0, 1], whatever the other
    arguments; it raises [AssertionError] exactly when the probability is
    valid and the reduction is requested without a basis or with [k_dim]
    above the number of interaction predictors; in every other case it
    returns a model, which is in training mode.  The two classes accept the
    same arguments.  (Sizes are natural numbers and the device is taken to
    be available.) *)
Theorem constructor_outcomes (a : args) (th : initializer) :
  (BayesMIHM.init a th = Raise ValueError <->
   ~ (0 <= a_dropout a /\ a_dropout a <= 1)%Q) /\
  (BayesMIHM.init a th = Raise AssertionError <->
   (0 <= a_dropout a /\ a_dropout a <= 1)%Q /\
   a_svd a = true /\
   (a_svd_matrix a = None \/ a_interaction_var_size a < a_k_dim a)) /\
  ((exists s, BayesMIHM.init a th = Ok s /\ BayesMIHM.training s = true) <->
   (0 <= a_dropout a /\ a_dropout a <= 1)%Q /\
   ~ (a_svd a = true /\
      (a_svd_matrix a = None \/ a_interaction_var_size a < a_k_dim a))) /\
  (forall e, BayesMIHM.init a th = Raise e <-> RelaxedBayesMIHM.init a th = Raise e) /\
  (forall s, RelaxedBayesMIHM.init a th = Ok s -> RelaxedBayesMIHM.training s = true).
Proof.
  pose proof (bayes_init_cases a th) as Hb.
  pose proof (relaxed_init_cases a th) as Hr.
  pose proof (valid_dropout_spec a) as Hv.
  pose proof (bad_reduction_spec a) as Hbad.
  rewrite <- Hv, <- Hbad. clear Hv Hbad.
  destruct (BayesMIHM.init a th) as [sb|eb];
    destruct (RelaxedBayesMIHM.init a th) as [sr|er].
  - destruct Hb as (Ev & Eb & _ & Et), Hr as (_ & _ & _ & Et').
    rewrite Ev, Eb.
    repeat split; intros; try discriminate; try congruence; eauto;
      repeat match goal with
             | H : _ /\ _ |- _ => destruct H
             end; try discriminate; try congruence.
  - destruct Hb as (Ev & Eb & _), Hr as [[Ev' _]|(_ & Eb' & _)]; congruence.
  - destruct Hr as (Ev & Eb & _), Hb as [[Ev' _]|(_ & Eb' & _)]; congruence.
  - assert (eb = er).
    { destruct Hb as [[Ev ->]|(Ev & Eb & ->)], Hr as [[Ev' ->]|(Ev' & Eb' & ->)];
        congruence. }
    subst er.
    destruct Hb as [[Ev ->]|(Ev & Eb & ->)]; rewrite Ev; try rewrite Eb;
      repeat split; intros; try discriminate; try congruence;
      repeat match goal with
             | H : _ /\ _ |- _ => destruct H
             | H : exists _, _ |- _ => destruct H
             end; try discriminate; try congruence;
      try (exfalso; auto; fail).
Qed.

End ConstructorOutcomes.

(* ================================================================== *)
(** ** The index of one observation *)

Section IndexOfAnObservation.
Context {num : Numerics}.

Lemma dot_ext n f f' g :
  (forall l, l < n -> f l = f' l) -> dot n f g = dot n f' g.
Proof.
  intros H. unfold dot. generalize 0%Q as acc.
  induction n as [|n IH]; intros acc; [reflexivity|].
  rewrite seq_S, !fold_left_app. cbn [fold_left Nat.add].
  rewrite IH by (intros; apply H; lia). now rewrite H by lia.
Qed.

Lemma same_row_linear x i x' i' W b v v' :
  F_linear x W b = Ok v -> F_linear x' W b = Ok v' ->
  same_row x i x' i' -> same_row v i v' i'.
Proof.
  unfold F_linear.
  destruct (Nat.eqb_spec (ncols x) (ncols W)) as [Hx|]; [|discriminate].
  destruct (Nat.eqb_spec (ncols x') (ncols W)) as [Hx'|]; [|discriminate].
  intros [= <-] [= <-] (Hc & Hi & Hi' & He).
  repeat split; rewrite ?nrows_build; try assumption.
  intros j Hj. rewrite ncols_build in Hj.
  rewrite !entry_build by assumption. f_equal.
  apply dot_ext. intros l Hl. apply He. lia.
Qed.

Lemma same_row_gelu x i x' i' :
  same_row x i x' i' -> same_row (map_gelu x) i (map_gelu x') i'.
Proof.
  intros (Hc & Hi & Hi' & He). unfold map_gelu.
  repeat split; rewrite ?nrows_build; try assumption.
  intros j Hj. rewrite ncols_build in Hj.
  rewrite !entry_build by (assumption || lia). now rewrite He.
Qed.

Lemma same_row_matmul x i x' i' B v v' :
  matmul x B = Ok v -> matmul x' B = Ok v' ->
  same_row x i x' i' -> same_row v i v' i'.
Proof.
  unfold matmul.
  destruct (Nat.eqb_spec (ncols x) (nrows B)) as [Hx|]; [|discriminate].
  destruct (Nat.eqb_spec (ncols x') (nrows B)) as [Hx'|]; [|discriminate].
  intros [= <-] [= <-] (Hc & Hi & Hi' & He).
  repeat split; rewrite ?nrows_build; try assumption.
  intros j Hj. rewrite ncols_build in Hj.
  rewrite !entry_build by assumption. rewrite <- Hc.
  apply dot_ext. intros l Hl. now apply He.
Qed.

Lemma same_row_reduction (svd : bool) (oB : option tensor) (ok : option nat)
    x i x' i' r r' :
  (if svd
   then (B <- attr oB ;; k <- attr ok ;; matmul x (slice_cols k B))%res
   else Ok x) = Ok r ->
  (if svd
   then (B <- attr oB ;; k <- attr ok ;; matmul x' (slice_cols k B))%res
   else Ok x') = Ok r' ->
  same_row x i x' i' -> same_row r i r' i'.
Proof.
  destruct svd.
  - intros H H' Hs.
    apply rbind_ok in H. destruct H as (B & HB & H).
    apply rbind_ok in H. destruct H as (k & Hk & H).
    rewrite HB, Hk in H'. cbn [rbind] in H'.
    exact (same_row_matmul _ _ _ _ _ _ _ H H' Hs).
  - now intros [= <-] [= <-].
Qed.

Lemma bayes_index_layers_same_row s ls : forall n x x' i i' v v',
  BayesMIHM.index_layers s n ls x = Ok v ->
  BayesMIHM.index_layers s n ls x' = Ok v' ->
  same_row x i x' i' -> same_row v i v' i'.
Proof.
  induction ls as [|l ls IH]; intros n x x' i i' v v' H H' Hs;
    cbn [BayesMIHM.index_layers] in H, H'.
  - injection H as <-. injection H' as <-. exact Hs.
  - apply rbind_ok in H. destruct H as (h & Hl & H).
    apply rbind_ok in H'. destruct H' as (h' & Hl' & H').
    apply (IH _ _ _ _ _ _ _ H H').
    destruct (Z.of_nat n =? Z.of_nat (BayesMIHM.num_layers s) - 1)%Z.
    + exact (same_row_linear _ _ _ _ _ _ _ _ Hl Hl' Hs).
    + apply rbind_ok in Hl. destruct Hl as (g & Hl & Hg). injection Hg as <-.
      apply rbind_ok in Hl'. destruct Hl' as (g' & Hl' & Hg'). injection Hg' as <-.
      apply same_row_gelu. exact (same_row_linear _ _ _ _ _ _ _ _ Hl Hl' Hs).
Qed.

Lemma relaxed_index_layers_same_row s ls : forall n x x' i i' v v',
  RelaxedBayesMIHM.index_layers s n ls x = Ok v ->
  RelaxedBayesMIHM.index_layers s n ls x' = Ok v' ->
  same_row x i x' i' -> same_row v i v' i'.
Proof.
  induction ls as [|l ls IH]; intros n x x' i i' v v' H H' Hs;
    cbn [RelaxedBayesMIHM.index_layers] in H, H'.
  - injection H as <-. injection H' as <-. exact Hs.
  - apply rbind_ok in H. destruct H as (h & Hl & H).
    apply rbind_ok in H'. destruct H' as (h' & Hl' & H').
    apply (IH _ _ _ _ _ _ _ H H').
    destruct (Z.of_nat n =? Z.of_nat (RelaxedBayesMIHM.num_layers s) - 1)%Z.
    + exact (same_row_linear _ _ _ _ _ _ _ _ Hl Hl' Hs).
    + apply rbind_ok in Hl. destruct Hl as (g & Hl & Hg). injection Hg as <-.
      apply rbind_ok in Hl'. destruct Hl' as (g' & Hl' & Hg'). injection Hg' as <-.
      apply same_row_gelu. exact (same_row_linear _ _ _ _ _ _ _ _ Hl Hl' Hs).
Qed.

(** X7.  [get_resilience_index] works observation by observation: when
    row [i] of one batch and row [i'] of another hold the same interaction
    predictors, the rows [i] and [i'] of the two results hold the same
    index, whatever the other rows of the batches are. *)
Theorem index_of_an_observation (m : model) (x x' : tensor) (i i' : nat)
    (tr tr1 tr2 tr3 : list site) (v v' : tensor) :
  get_resilience_index_of m x tr = Ok (v, tr1) ->
  get_resilience_index_of m x' tr2 = Ok (v', tr3) ->
  same_row x i x' i' ->
  same_row v i v' i'.
Proof.
  destruct m as [s|s]; cbn [get_resilience_index_of];
    [unfold BayesMIHM.get_resilience_index
    |unfold RelaxedBayesMIHM.get_resilience_index];
    intros H H' Hs; steps.
  - eapply bayes_index_layers_same_row; eauto.
    eapply same_row_reduction; eauto.
  - eapply relaxed_index_layers_same_row; eauto.
    eapply same_row_reduction; eauto.
Qed.

End IndexOfAnObservation.

(** X7 for the two rows of the example batch, each against itself in a
    batch of its own. *)
Lemma index_of_an_observation_witness :
  exists v v',
    get_resilience_index_of (num := ex_numerics) (Bayes ex_bayes) ex_x [] = Ok (v, []) /\
    get_resilience_index_of (num := ex_numerics) (Bayes ex_bayes)
      (mkT 2 [[3; 4]]%Q) [] = Ok (v', []) /\
    same_row v 1 v' 0.
Proof.
  eassert (H : get_resilience_index_of (num := ex_numerics) (Bayes ex_bayes) ex_x []
               = Ok (_, [])) by (vm_compute; reflexivity).
  eassert (H' : get_resilience_index_of (num := ex_numerics) (Bayes ex_bayes)
                  (mkT 2 [[3; 4]]%Q) [] = Ok (_, [])) by (vm_compute; reflexivity).
  assert (Hs : same_row ex_x 1 (mkT 2 [[3; 4]]%Q) 0).
  { repeat split; cbn; lia. }
  eexists. eexists. split; [exact H|]. split; [exact H'|].
  exact (@index_of_an_observation ex_numerics (Bayes ex_bayes) ex_x
           (mkT 2 [[3; 4]]%Q) 1 0 [] [] [] [] _ _ H H' Hs).
Defined.

(* ================================================================== *)
(** ** The inputs the index network accepts *)

Section AcceptedInputs.
Context {num : Numerics}.

Lemma relaxed_forward_layers_total s rnd ls : forall i x,
  chain_ok (ncols x) ls ->
  exists v, RelaxedBayesMIHM.forward_layers s rnd i ls x = Ok v /\
            nrows v = nrows x.
Proof.
  induction ls as [|l ls IH]; intros i x Hc.
  - exists x. split; reflexivity.
  - destruct Hc as [Hc Hrest].
    destruct (F_linear_total x (weight l) (bias l) Hc) as (h & Hh & Hn & Hcol).
    cbn [RelaxedBayesMIHM.forward_layers]. unfold Linear_forward. rewrite Hh.
    destruct (Z.of_nat i =? Z.of_nat (RelaxedBayesMIHM.num_layers s) - 1)%Z;
      cbn [rbind].
    + rewrite <- Hcol in Hrest.
      destruct (IH (S i) h Hrest) as (v & Hv & Hnv).
      exists v. split; [exact Hv|congruence].
    + set (h' := Dropout_forward _ _ _ _).
      assert (Hc' : ncols h' = nrows (weight l))
        by (unfold h'; now rewrite ncols_dropout, ncols_map_gelu).
      assert (Hn' : nrows h' = nrows x)
        by (unfold h'; now rewrite nrows_dropout, nrows_map_gelu).
      rewrite <- Hc' in Hrest.
      destruct (IH (S i) h' Hrest) as (v & Hv & Hnv).
      exists v. split; [exact Hv|congruence].
Qed.

Lemma bayes_index_layers_total s ls : forall i x,
  chain_ok (ncols x) ls ->
  exists v, BayesMIHM.index_layers s i ls x = Ok v /\ nrows v = nrows x.
Proof.
  induction ls as [|l ls IH]; intros i x Hc.
  - exists x. split; reflexivity.
  - destruct Hc as [Hc Hrest].
    destruct (F_linear_total x (weight l) (bias l) Hc) as (h & Hh & Hn & Hcol).
    cbn [BayesMIHM.index_layers]. unfold Linear_forward. rewrite Hh.
    destruct (Z.of_nat i =? Z.of_nat (BayesMIHM.num_layers s) - 1)%Z;
      cbn [rbind].
    + rewrite <- Hcol in Hrest.
      destruct (IH (S i) h Hrest) as (v & Hv & Hnv).
      exists v. split; [exact Hv|congruence].
    + rewrite <- Hcol, <- (ncols_map_gelu h) in Hrest.
      destruct (IH (S i) (map_gelu h) Hrest) as (v & Hv & Hnv).
      exists v. split; [exact Hv|]. rewrite Hnv, nrows_map_gelu. exact Hn.
Qed.

Lemma relaxed_index_layers_total s ls : forall i x,
  chain_ok (ncols x) ls ->
  exists v, RelaxedBayesMIHM.index_layers s i ls x = Ok v /\ nrows v = nrows x.
Proof.
  induction ls as [|l ls IH]; intros i x Hc.
  - exists x. split; reflexivity.
  - destruct Hc as [Hc Hrest].
    destruct (F_linear_total x (weight l) (bias l) Hc) as (h & Hh & Hn & Hcol).
    cbn [RelaxedBayesMIHM.index_layers]. unfold Linear_forward. rewrite Hh.
    destruct (Z.of_nat i =? Z.of_nat (RelaxedBayesMIHM.num_layers s) - 1)%Z;
      cbn [rbind].
    + rewrite <- Hcol in Hrest.
      destruct (IH (S i) h Hrest) as (v & Hv & Hnv).
      exists v. split; [exact Hv|congruence].
    + rewrite <- Hcol, <- (ncols_map_gelu h) in Hrest.
      destruct (IH (S i) (map_gelu h) Hrest) as (v & Hv & Hnv).
      exists v. split; [exact Hv|]. rewrite Hnv, nrows_map_gelu. exact Hn.
Qed.

Lemma bayes_index_layers_rows s ls : forall i x v,
  BayesMIHM.index_layers s i ls x = Ok v -> nrows v = nrows x.
Proof.
  induction ls as [|l ls IH]; intros i x v H; cbn [BayesMIHM.index_layers] in H.
  - now injection H as <-.
  - apply rbind_ok in H. destruct H as (x' & Hl & H).
    rewrite (IH _ _ _ H).
    destruct (Z.of_nat i =? Z.of_nat (BayesMIHM.num_layers s) - 1)%Z.
    + unfold Linear_forward in Hl. now destruct (F_linear_ok _ _ _ _ Hl) as (_ & -> & _).
    + apply rbind_ok in Hl. destruct Hl as (h & Hl & Hx). injection Hx as <-.
      rewrite nrows_map_gelu.
      unfold Linear_forward in Hl. now destruct (F_linear_ok _ _ _ _ Hl) as (_ & -> & _).
Qed.

Lemma relaxed_index_layers_rows s ls : forall i x v,
  RelaxedBayesMIHM.index_layers s i ls x = Ok v -> nrows v = nrows x.
Proof.
  induction ls as [|l ls IH]; intros i x v H;
    cbn [RelaxedBayesMIHM.index_layers] in H.
  - now injection H as <-.
  - apply rbind_ok in H. destruct H as (x' & Hl & H).
    rewrite (IH _ _ _ H).
    destruct (Z.of_nat i =? Z.of_nat (RelaxedBayesMIHM.num_layers s) - 1)%Z.
    + unfold Linear_forward in Hl. now destruct (F_linear_ok _ _ _ _ Hl) as (_ & -> & _).
    + apply rbind_ok in Hl. destruct Hl as (h & Hl & Hx). injection Hx as <-.
      rewrite nrows_map_gelu.
      unfold Linear_forward in Hl. now destruct (F_linear_ok _ _ _ _ Hl) as (_ & -> & _).
Qed.

Lemma nrows_slice_cols k B : nrows (slice_cols k B) = nrows B.
Proof. unfold slice_cols. apply nrows_build. Qed.

(** The optional reduction of a model built from [a]. *)
Lemma reduction_total a (sm : option tensor) (kd : option nat) x :
  sm = (if a_svd a then a_svd_matrix a else None) ->
  kd = (if a_svd a then Some (a_k_dim a) else None) ->
  index_accepts a x ->
  exists r,
    (if a_svd a
     then (B <- attr sm ;; k <- attr kd ;; matmul x (slice_cols k B))%res
     else Ok x) = Ok r /\
    ncols r = index_input_size a /\ nrows r = nrows x.
Proof.
  unfold index_accepts, index_input_size. intros -> ->.
  destruct (a_svd a).
  - destruct (a_svd_matrix a) as [B|]; [|contradiction].
    intros [Hx Hk]. cbn [attr rbind]. unfold matmul.
    rewrite nrows_slice_cols, Hx, Nat.eqb_refl.
    eexists. split; [reflexivity|]. rewrite nrows_build.
    split; [|reflexivity]. cbn. lia.
  - intros Hx. exists x. auto.
Qed.

Lemma reduction_accepted a (sm : option tensor) (kd : option nat) x r :
  sm = (if a_svd a then a_svd_matrix a else None) ->
  kd = (if a_svd a then Some (a_k_dim a) else None) ->
  (if a_svd a
   then (B <- attr sm ;; k <- attr kd ;; matmul x (slice_cols k B))%res
   else Ok x) = Ok r ->
  ncols r = index_input_size a ->
  index_accepts a x.
Proof.
  unfold index_accepts, index_input_size. intros -> ->.
  destruct (a_svd a).
  - destruct (a_svd_matrix a) as [B|]; [|discriminate].
    cbn [attr rbind]. intros H Hc.
    destruct (matmul_ok _ _ _ H) as (Hx & _ & Hcol).
    rewrite nrows_slice_cols in Hx. split; [exact Hx|].
    rewrite Hcol in Hc. cbn in Hc. lia.
  - now intros [= <-].
Qed.

(** X8.  For a model of either class built from [a] with at least one
    hidden layer, [get_resilience_index] returns exactly on the inputs the
    index network accepts: those with [interaction_var_size] columns
    without reduction; with reduction, those with as many columns as the
    basis has rows, the basis having at least [k_dim] columns.  The result
    has one row per observation and as many columns as the last hidden
    width. *)
Theorem resilience_index_accepts (a : args) (m : model) (x : tensor)
    (tr : list site) :
  is_model a m ->
  a_hidden_layer_sizes a <> [] ->
  ((exists v, get_resilience_index_of m x tr = Ok (v, tr)) <-> index_accepts a x) /\
  (forall v tr', get_resilience_index_of m x tr = Ok (v, tr') ->
     nrows v = nrows x /\ ncols v = last (a_hidden_layer_sizes a) 0).
Proof.
  intros Hm Hne.
  destruct m as [s|s]; cbn [is_model get_resilience_index_of] in *.
  - destruct (bayes_model_arch _ _ Hm) as (_ & _ & Ha).
    pose proof (f_equal (@arch_svd _ _) Ha) as Esvd.
    pose proof (f_equal (@arch_svd_matrix _ _) Ha) as Esm.
    pose proof (f_equal (@arch_k_dim _ _) Ha) as Ek.
    pose proof (f_equal (@arch_layers _ _) Ha) as Els.
    cbn in Esvd, Esm, Ek, Els.
    destruct (layer_shapes_ends _ _ Els Hne) as (Hls & _ & Hfirst & _ & Hlast).
    unfold BayesMIHM.get_resilience_index. rewrite Esvd.
    split; [split|].
    + intros (v & H). steps.
      eapply reduction_accepted; eauto.
      destruct (bayes_index_layers_cols _ _ _ _ _ Hls Hs0) as [Hc _]. congruence.
    + intros Hacc.
      destruct (reduction_total a _ _ x Esm Ek Hacc) as (r & Hr & Hc & Hn).
      destruct (bayes_index_layers_total s (BayesMIHM.layers s) 0 r) as (v & Hv & _).
      { rewrite Hc. exact (layers_chain a _ Els). }
      exists v. unfold bind, lift, ret. now rewrite Hr, Hv.
    + intros v tr' H. steps.
      destruct (bayes_index_layers_cols _ _ _ _ _ Hls Hs0) as [_ Hc].
      rewrite (bayes_index_layers_rows _ _ _ _ _ Hs0).
      split; [|congruence].
      rewrite <- Esvd in Hs. exact (reduction_rows _ _ _ _ _ Hs).
  - destruct (relaxed_model_arch _ _ Hm) as (_ & _ & Ha).
    pose proof (f_equal (@arch_svd _ _) Ha) as Esvd.
    pose proof (f_equal (@arch_svd_matrix _ _) Ha) as Esm.
    pose proof (f_equal (@arch_k_dim _ _) Ha) as Ek.
    pose proof (f_equal (@arch_layers _ _) Ha) as Els.
    cbn in Esvd, Esm, Ek, Els.
    destruct (layer_shapes_ends _ _ Els Hne) as (Hls & _ & Hfirst & _ & Hlast).
    unfold RelaxedBayesMIHM.get_resilience_index. rewrite Esvd.
    split; [split|].
    + intros (v & H). steps.
      eapply reduction_accepted; eauto.
      destruct (relaxed_index_layers_cols _ _ _ _ _ Hls Hs0) as [Hc _]. congruence.
    + intros Hacc.
      destruct (reduction_total a _ _ x Esm Ek Hacc) as (r & Hr & Hc & Hn).
      destruct (relaxed_index_layers_total s (RelaxedBayesMIHM.layers s) 0 r)
        as (v & Hv & _).
      { rewrite Hc. exact (layers_chain a _ Els). }
      exists v. unfold bind, lift, ret. now rewrite Hr, Hv.
    + intros v tr' H. steps.
      destruct (relaxed_index_layers_cols _ _ _ _ _ Hls Hs0) as [_ Hc].
      rewrite (relaxed_index_layers_rows _ _ _ _ _ Hs0).
      split; [|congruence].
      rewrite <- Esvd in Hs. exact (reduction_rows _ _ _ _ _ Hs).
Qed.

End AcceptedInputs.

(** X8 for the example model with reduction: three predictors, a basis of
    three rows and three columns, [k_dim = 2]. *)
Lemma resilience_index_accepts_witness :
  ((exists v, get_resilience_index_of (num := ex_numerics) (Bayes ex_bayes_svd)
                ex_x3 [] = Ok (v, [])) <->
   index_accepts ex_args_svd ex_x3) /\
  (forall v tr',
     get_resilience_index_of (num := ex_numerics) (Bayes ex_bayes_svd) ex_x3 []
       = Ok (v, tr') ->
     nrows v = nrows ex_x3 /\ ncols v = last (a_hidden_layer_sizes ex_args_svd) 0).
Proof.
  assert (Hm : is_model ex_args_svd (Bayes ex_bayes_svd))
    by (exists ex_init, ex_bayes_svd; split; vm_compute; reflexivity).
  assert (Hne : a_hidden_layer_sizes ex_args_svd <> []) by discriminate.
  exact (@resilience_index_accepts ex_numerics ex_args_svd (Bayes ex_bayes_svd)
           ex_x3 [] Hm Hne).
Defined.

(* ================================================================== *)
(** ** Calls of [forward] that return *)

Section ForwardReturns.
Context {num : Numerics}.

Lemma relaxed_forward_locals_intro s rnd x e c y tr all ct reduced hidden pidx
    bn' inter imt t pit t1 t2 epi :
  (if RelaxedBayesMIHM.concatenate_interaction_vars s then cat1 c x else Ok c)
    = Ok all ->
  Linear_forward (RelaxedBayesMIHM.controlled_var_weights s) all = Ok ct ->
  (if RelaxedBayesMIHM.svd s
   then (B <- attr (RelaxedBayesMIHM.svd_matrix s) ;;
         k <- attr (RelaxedBayesMIHM.k_dim s) ;; matmul x (slice_cols k B))%res
   else Ok x) = Ok reduced ->
  RelaxedBayesMIHM.forward_layers s rnd 0 (RelaxedBayesMIHM.layers s) reduced
    = Ok hidden ->
  (if RelaxedBayesMIHM.batch_norm s
   then (b <- attr (RelaxedBayesMIHM.bn s) ;;
         ' (t, b') <- BatchNorm1d_forward b (RelaxedBayesMIHM.training s) hidden ;;
         Ok (t, Some b'))%res
   else Ok (hidden, RelaxedBayesMIHM.bn s)) = Ok (pidx, bn') ->
  interactor_spec (RelaxedBayesMIHM.include_interactor_bias s)
    (RelaxedBayesMIHM.interactor_bias s) rnd e inter ->
  mul (sampled rnd "interactor_main_weight"
         (RelaxedBayesMIHM.interactor_main_weight s)) inter = Ok imt ->
  mul (sampled rnd "interaction_weight" (RelaxedBayesMIHM.interaction_weight s))
    inter = Ok t ->
  mul t pidx = Ok pit ->
  add pit ct = Ok t1 ->
  add t1 imt = Ok t2 ->
  (if RelaxedBayesMIHM.concatenate_interaction_vars s
   then epi = t2
   else exists w u, RelaxedBayesMIHM.index_main_weight s = Some w /\
          mul pidx w = Ok u /\ add t2 u = Ok epi) ->
  nrows epi <> 0 ->
  exists tr',
    RelaxedBayesMIHM.forward_locals s rnd x e c y tr
    = Ok (mkLocals all ct reduced pidx inter imt pit epi
            (sampled rnd "sigma" (HalfNormal 1 [])) bn', tr').
Proof.
  intros H1 H2 H3 H4 H5 H6 H7 H8 H9 H10 H11 H12 H13.
  unfold RelaxedBayesMIHM.forward_locals.
  rewrite (bind_lift_ok _ _ _ _ _ _ H1).
  rewrite (bind_lift_ok _ _ _ _ _ _ H2).
  rewrite (bind_lift_ok _ _ _ _ _ _ H3).
  rewrite (bind_lift_ok _ _ _ _ _ _ H4).
  rewrite (bind_lift_ok _ _ _ _ _ _ H5).
  unfold interactor_spec in H6.
  assert (E9 : (t0 <- mul (sampled rnd "interaction_weight"
                             (RelaxedBayesMIHM.interaction_weight s)) inter ;;
                mul t0 pidx)%res = Ok pit)
    by (rewrite H8; exact H9).
  assert (E12 : (if RelaxedBayesMIHM.concatenate_interaction_vars s
                 then (t0 <- add pit ct ;; add t0 imt)%res
                 else (t0 <- add pit ct ;;
                       t3 <- add t0 imt ;;
                       index_w <- attr (RelaxedBayesMIHM.index_main_weight s) ;;
                       u <- mul pidx index_w ;;
                       add t3 u)%res) = Ok epi).
  { rewrite H10. cbn [rbind]. rewrite H11. cbn [rbind].
    destruct (RelaxedBayesMIHM.concatenate_interaction_vars s).
    - now subst epi.
    - destruct H12 as (w & u & -> & Hu & Hepi). cbn [attr rbind].
      now rewrite Hu. }
  destruct (RelaxedBayesMIHM.include_interactor_bias s).
  - destruct H6 as (pr & d & Hpr & Hd & Hi).
    assert (E6 : (d0 <- sub (unsqueeze1 e) (sampled rnd "interactor_bias" pr) ;;
                  maximum (scalar 0) d0)%res = Ok inter)
      by (rewrite Hd; exact Hi).
    rewrite Hpr. rewrite bind_assoc. cbn [attr].
    rewrite (bind_lift_ok _ _ _ _ _ _ eq_refl).
    rewrite bind_assoc, bind_sample.
    rewrite (bind_lift_ok _ _ _ _ _ _ E6).
    rewrite bind_sample, (bind_lift_ok _ _ _ _ _ _ H7).
    rewrite bind_sample, (bind_lift_ok _ _ _ _ _ _ E9).
    rewrite (bind_lift_ok _ _ _ _ _ _ E12).
    rewrite bind_sample, (bind_plate _ _ _ _ _ H13).
    unfold bind, sample, ret. eexists. reflexivity.
  - subst inter. rewrite bind_ret.
    rewrite bind_sample, (bind_lift_ok _ _ _ _ _ _ H7).
    rewrite bind_sample, (bind_lift_ok _ _ _ _ _ _ E9).
    rewrite (bind_lift_ok _ _ _ _ _ _ E12).
    rewrite bind_sample, (bind_plate _ _ _ _ _ H13).
    unfold bind, sample, ret. eexists. reflexivity.
Qed.

Lemma bdim_same n : bdim n n = Some n.
Proof. unfold bdim. now rewrite Nat.eqb_refl. Qed.

Lemma BatchNorm1d_forward_total b tr x :
  num_features b = 1 -> ncols x = 1 -> (tr = true -> nrows x <> 1) ->
  exists t b', BatchNorm1d_forward b tr x = Ok (t, b') /\
               nrows t = nrows x /\ ncols t = 1.
Proof.
  intros Hb Hc Hone. unfold BatchNorm1d_forward.
  assert (E : tr && (nrows x =? 1) = false).
  { destruct tr; [|reflexivity]. cbn. apply Nat.eqb_neq. auto. }
  rewrite E. destruct (numel x =? 0); [eauto|].
  rewrite Hc, Hb. cbn [Nat.eqb negb].
  destruct tr; eexists; eexists; (split; [reflexivity|]);
    rewrite nrows_build; auto.
Qed.

(** The effective exposure can always be computed; it is a column. *)
Lemma interactor_total (flag : bool) rnd e :
  exists inter,
    interactor_spec flag (if flag then Some (HalfNormal 1 [1]) else None) rnd e
      inter /\
    nrows inter = length e /\ ncols inter = 1.
Proof.
  unfold interactor_spec. destruct flag.
  - destruct (thresholded_exposure_total rnd "interactor_bias" 1 e)
      as (d & t & Hd & Ht).
    destruct (thresholded_exposure _ _ _ _ _ _ Hd Ht) as (Hn & Hc & _).
    exists t. split; [|auto]. exists (HalfNormal 1 [1]), d. auto.
  - exists (unsqueeze1 e). split; [reflexivity|].
    now rewrite nrows_unsqueeze1.
Qed.

(** The sum of the terms of the outcome, from their shapes. *)
Lemma outcome_total iw mw (inter pidx ct : tensor) N w :
  nrows iw = 1 -> ncols iw = 1 -> nrows mw = 1 -> ncols mw = 1 ->
  nrows inter = N -> ncols inter = 1 ->
  nrows pidx = N -> ncols pidx = w ->
  nrows ct = N -> ncols ct = 1 ->
  exists imt t pit t1 t2,
    mul mw inter = Ok imt /\ mul iw inter = Ok t /\ mul t pidx = Ok pit /\
    add pit ct = Ok t1 /\ add t1 imt = Ok t2 /\
    nrows t2 = N /\ ncols t2 = w.
Proof.
  intros Hi1 Hi2 Hm1 Hm2 Hn Hc Hpn Hpc Hcn Hcc.
  destruct (bcast_shape Qmult mw inter N 1) as (imt & Himt & Himtn & Himtc).
  { rewrite Hm1, Hn. apply bdim_1_l. }
  { rewrite Hm2, Hc. reflexivity. }
  destruct (bcast_shape Qmult iw inter N 1) as (t & Ht & Htn & Htc).
  { rewrite Hi1, Hn. apply bdim_1_l. }
  { rewrite Hi2, Hc. reflexivity. }
  destruct (bcast_shape Qmult t pidx N w) as (pit & Hpit & Hpitn & Hpitc).
  { rewrite Htn, Hpn. apply bdim_same. }
  { rewrite Htc, Hpc. apply bdim_1_l. }
  destruct (bcast_shape Qplus pit ct N w) as (t1 & Ht1 & Ht1n & Ht1c).
  { rewrite Hpitn, Hcn. apply bdim_same. }
  { rewrite Hpitc, Hcc. apply bdim_1_r. }
  destruct (bcast_shape Qplus t1 imt N w) as (t2 & Ht2 & Ht2n & Ht2c).
  { rewrite Ht1n, Himtn. apply bdim_same. }
  { rewrite Ht1c, Himtc. apply bdim_1_r. }
  exists imt, t, pit, t1, t2. repeat split; assumption.
Qed.

Lemma index_main_total pidx w t2 N C :
  nrows w = 1 -> ncols w = 1 ->
  nrows pidx = N -> ncols pidx = C -> nrows t2 = N -> ncols t2 = C ->
  exists u epi, mul pidx w = Ok u /\ add t2 u = Ok epi /\
                nrows epi = N /\ ncols epi = C.
Proof.
  intros Hw1 Hw2 Hpn Hpc Htn Htc.
  destruct (bcast_shape Qmult pidx w N C) as (u & Hu & Hun & Huc).
  { rewrite Hpn, Hw1. apply bdim_1_r. }
  { rewrite Hpc, Hw2. apply bdim_1_r. }
  destruct (bcast_shape Qplus t2 u N C) as (epi & Hepi & Hen & Hec).
  { rewrite Htn, Hun. apply bdim_same. }
  { rewrite Htc, Huc. apply bdim_same. }
  exists u, epi. repeat split; assumption.
Qed.

Lemma control_input_total (concat : bool) x c n :
  nrows c = nrows x ->
  (if concat then ncols c + ncols x else ncols c) = n ->
  exists all, (if concat then cat1 c x else Ok c) = Ok all /\
              nrows all = nrows x /\ ncols all = n.
Proof.
  intros Hr Hc. destruct concat.
  - unfold cat1. rewrite Hr, Nat.eqb_refl. eexists. split; [reflexivity|].
    now rewrite nrows_build.
  - exists c. auto.
Qed.


(** X9.  For a model of either class built from [a] with at least one
    hidden layer, [forward] returns on every batch of exact numbers that
    fits, when the scale sampled at the site "sigma" is positive: at least
    one observation, as many exposures and rows of controls as rows of
    interaction predictors, predictors the index network accepts
    ([index_accepts]), controls the control term accepts
    ([control_accepts]: without concatenation [controlled_var_size]
    columns, with concatenation [controlled_var_size + interaction_var_size]
    columns together with the predictors) and, when the output is
    normalised, a last hidden width of 1 and, in training mode, more than
    one observation.  The predicted outcome then has one row per
    observation and as many columns as the last hidden width. *)
Theorem forward_returns (a : args) (m : model) (rnd : randomness) (x : tensor)
    (e : list Q) (c : tensor) (y : option tensor) (tr : list site) :
  is_model a m ->
  a_hidden_layer_sizes a <> [] ->
  index_accepts a x ->
  control_accepts a x c ->
  nrows x <> 0 -> length e = nrows x -> nrows c = nrows x ->
  (a_batch_norm a = true ->
   last (a_hidden_layer_sizes a) 0 = 1 /\
   (training_of m = true -> nrows x <> 1)) ->
  (0 < draw rnd "sigma" 0)%Q ->
  exists L tr',
    forward_locals_of m rnd x e c y tr = Ok (L, tr') /\
    forward_of m rnd x e c y tr = Ok (predicted_epi L, tr') /\
    nrows (predicted_epi L) = nrows x /\
    ncols (predicted_epi L) = last (a_hidden_layer_sizes a) 0.
Proof.
  intros Hm Hne Hacc Hctl Hrows He Hc Hnorm _.
  assert (Hgoal : exists L tr',
            forward_locals_of m rnd x e c y tr = Ok (L, tr') /\
            nrows (predicted_epi L) = nrows x /\
            ncols (predicted_epi L) = last (a_hidden_layer_sizes a) 0).
  2:{ destruct Hgoal as (L & tr' & H & Hn & Hw). exists L, tr'.
      split; [exact H|]. split; [|auto]. now rewrite forward_of_locals, H. }
  destruct (interactor_total (a_include_interactor_bias a) rnd e)
    as (inter & Hinter & Hin & Hic).
  rewrite He in Hin.
  destruct m as [s|s]; cbn [is_model forward_locals_of training_of] in *.
  - destruct (bayes_model_arch _ _ Hm) as (_ & _ & Ha).
    unfold bayes_arch, bayes_arch_of, common_arch in Ha.
    injection Ha as Ec Ed Edev Ebn Ebnv Esm Ek Esvd Enl Els Ecw Eiw Emw Eimw
                    Einc Eib.
    destruct (layer_shapes_ends _ _ Els Hne) as (Hls & _ & _ & _ & Hlast).
    (* the linear control term *)
    destruct (control_input_total (a_concatenate_interaction_vars a) x c _ Hc Hctl)
      as (all & Hall & Halln & Hallc).
    destruct (F_linear_total all
                (sampled rnd "controlled_var_weights.weight"
                   (weight_prior (BayesMIHM.controlled_var_weights s)))
                (sampled rnd "controlled_var_weights.bias"
                   (bias_prior (BayesMIHM.controlled_var_weights s))))
      as (ct & Hct & Hctn & Hctc).
    { rewrite Ecw, Hallc. reflexivity. }
    rewrite Ecw, nrows_sampled in Hctc. cbn in Hctc. rewrite Halln in Hctn.
    (* the index network *)
    destruct (reduction_total a _ _ x Esm Ek Hacc) as (r & Hr & Hrc & Hrn).
    destruct (bayes_forward_layers_total s rnd (BayesMIHM.layers s) 0 r)
      as (hidden & Hh & Hhn).
    { rewrite Hrc. exact (layers_chain a _ Els). }
    destruct (bayes_forward_layers_cols s rnd _ 0 r hidden Hls Hh) as [_ Hhc].
    rewrite Hlast in Hhc. rewrite Hrn in Hhn.
    assert (Hbn : exists pidx bn',
              (if BayesMIHM.batch_norm s
               then (b <- attr (BayesMIHM.bn s) ;;
                     ' (t, b') <- BatchNorm1d_forward b (BayesMIHM.training s)
                                    hidden ;;
                     Ok (t, Some b'))%res
               else Ok (hidden, BayesMIHM.bn s)) = Ok (pidx, bn') /\
              nrows pidx = nrows x /\
              ncols pidx = last (a_hidden_layer_sizes a) 0).
    { rewrite Ebn. destruct (a_batch_norm a).
      - destruct (Hnorm eq_refl) as [Hw Hone].
        destruct (BayesMIHM.bn s) as [b|]; [|discriminate].
        cbn in Ebnv. injection Ebnv as Ef _ _.
        destruct (BatchNorm1d_forward_total b (BayesMIHM.training s) hidden Ef)
          as (t & b' & Hf & Htn & Htc).
        { congruence. }
        { rewrite Hhn. exact Hone. }
        exists t, (Some b'). cbn [attr rbind]. rewrite Hf. cbn [rbind].
        split; [reflexivity|]. split; congruence.
      - exists hidden, (BayesMIHM.bn s). auto. }
    destruct Hbn as (pidx & bn' & Hbn & Hpn & Hpc).
    (* the terms of the outcome *)
    destruct (outcome_total
                (sampled rnd "interaction_weight" (BayesMIHM.interaction_weight s))
                (sampled rnd "interactor_main_weight"
                   (BayesMIHM.interactor_main_weight s))
                inter pidx ct (nrows x) (last (a_hidden_layer_sizes a) 0))
      as (imt & t & pit & t1 & t2 & Himt & Ht & Hpit & Ht1 & Ht2 & Ht2n & Ht2c);
      try assumption; try (rewrite ?Eiw, ?Emw; reflexivity).
    assert (Hepi : exists epi,
              (if BayesMIHM.concatenate_interaction_vars s
               then epi = t2
               else exists pr u, BayesMIHM.index_main_weight s = Some pr /\
                      mul pidx (sampled rnd "index_main_weight" pr) = Ok u /\
                      add t2 u = Ok epi) /\
              nrows epi = nrows x /\
              ncols epi = last (a_hidden_layer_sizes a) 0).
    { rewrite Ec. destruct (a_concatenate_interaction_vars a).
      - exists t2. auto.
      - destruct (index_main_total pidx
                    (sampled rnd "index_main_weight" (Normal 0 1 [1])) t2
                    (nrows x) (last (a_hidden_layer_sizes a) 0))
          as (u & epi & Hu & Hepi & Hen & Hec); try assumption; try reflexivity.
        exists epi. split; [|auto]. exists (Normal 0 1 [1]), u. auto. }
    destruct Hepi as (epi & Hepi & Hen & Hec).
    destruct (bayes_forward_locals_intro s rnd x e c y tr all ct r hidden pidx
                bn' inter imt t pit t1 t2 epi) as (tr' & Hrun);
      try assumption.
    { now rewrite Ec. }
    { now rewrite Esvd. }
    { now rewrite Einc, Eib. }
    { now rewrite Hen. }
    eexists. exists tr'. split; [exact Hrun|]. cbn [predicted_epi]. auto.
  - destruct (relaxed_model_arch _ _ Hm) as (_ & _ & Ha).
    pose proof (f_equal (@arch_concatenate_interaction_vars _ _) Ha) as Ec.
    pose proof (f_equal (@arch_batch_norm _ _) Ha) as Ebn.
    pose proof (f_equal (@arch_bn _ _) Ha) as Ebnv.
    pose proof (f_equal (@arch_svd_matrix _ _) Ha) as Esm.
    pose proof (f_equal (@arch_k_dim _ _) Ha) as Ek.
    pose proof (f_equal (@arch_svd _ _) Ha) as Esvd.
    pose proof (f_equal (@arch_layers _ _) Ha) as Els.
    pose proof (f_equal (@arch_controlled_var_weights _ _) Ha) as Ecw.
    pose proof (f_equal (@arch_interaction_weight _ _) Ha) as Eiw.
    pose proof (f_equal (@arch_interactor_main_weight _ _) Ha) as Emw.
    pose proof (f_equal (@arch_index_main_weight _ _) Ha) as Eimw.
    pose proof (f_equal (@arch_include_interactor_bias _ _) Ha) as Einc.
    pose proof (f_equal (@arch_interactor_bias _ _) Ha) as Eib.
    cbn in Ec, Ebn, Ebnv, Esm, Ek, Esvd, Els, Ecw, Eiw, Emw, Eimw, Einc, Eib.
    destruct (layer_shapes_ends _ _ Els Hne) as (Hls & _ & _ & _ & Hlast).
    unfold linear_shape in Ecw. injection Ecw as _ _ Ewr Ewc _ _.
    (* the linear control term *)
    destruct (control_input_total (a_concatenate_interaction_vars a) x c _ Hc Hctl)
      as (all & Hall & Halln & Hallc).
    destruct (F_linear_total all
                (weight (RelaxedBayesMIHM.controlled_var_weights s))
                (bias (RelaxedBayesMIHM.controlled_var_weights s)))
      as (ct & Hct & Hctn & Hctc).
    { congruence. }
    rewrite Ewr in Hctc. rewrite Halln in Hctn.
    (* the index network *)
    destruct (reduction_total a _ _ x Esm Ek Hacc) as (r & Hr & Hrc & Hrn).
    destruct (relaxed_forward_layers_total s rnd (RelaxedBayesMIHM.layers s) 0 r)
      as (hidden & Hh & Hhn).
    { rewrite Hrc. exact (layers_chain a _ Els). }
    destruct (relaxed_forward_layers_cols s rnd _ 0 r hidden Hls Hh) as [_ Hhc].
    rewrite Hlast in Hhc. rewrite Hrn in Hhn.
    assert (Hbn : exists pidx bn',
              (if RelaxedBayesMIHM.batch_norm s
               then (b <- attr (RelaxedBayesMIHM.bn s) ;;
                     ' (t, b') <- BatchNorm1d_forward b
                                    (RelaxedBayesMIHM.training s) hidden ;;
                     Ok (t, Some b'))%res
               else Ok (hidden, RelaxedBayesMIHM.bn s)) = Ok (pidx, bn') /\
              nrows pidx = nrows x /\
              ncols pidx = last (a_hidden_layer_sizes a) 0).
    { rewrite Ebn. destruct (a_batch_norm a).
      - destruct (Hnorm eq_refl) as [Hw Hone].
        destruct (RelaxedBayesMIHM.bn s) as [b|]; [|discriminate].
        cbn in Ebnv. injection Ebnv as Ef _ _.
        destruct (BatchNorm1d_forward_total b (RelaxedBayesMIHM.training s)
                    hidden Ef) as (t & b' & Hf & Htn & Htc).
        { congruence. }
        { rewrite Hhn. exact Hone. }
        exists t, (Some b'). cbn [attr rbind]. rewrite Hf. cbn [rbind].
        split; [reflexivity|]. split; congruence.
      - exists hidden, (RelaxedBayesMIHM.bn s). auto. }
    destruct Hbn as (pidx & bn' & Hbn & Hpn & Hpc).
    destruct (outcome_total
                (sampled rnd "interaction_weight"
                   (RelaxedBayesMIHM.interaction_weight s))
                (sampled rnd "interactor_main_weight"
                   (RelaxedBayesMIHM.interactor_main_weight s))
                inter pidx ct (nrows x) (last (a_hidden_layer_sizes a) 0))
      as (imt & t & pit & t1 & t2 & Himt & Ht & Hpit & Ht1 & Ht2 & Ht2n & Ht2c);
      try assumption; try (rewrite ?Eiw, ?Emw; reflexivity).
    assert (Hepi : exists epi,
              (if RelaxedBayesMIHM.concatenate_interaction_vars s
               then epi = t2
               else exists w u, RelaxedBayesMIHM.index_main_weight s = Some w /\
                      mul pidx w = Ok u /\ add t2 u = Ok epi) /\
              nrows epi = nrows x /\
              ncols epi = last (a_hidden_layer_sizes a) 0).
    { rewrite Ec. destruct (a_concatenate_interaction_vars a).
      - exists t2. auto.
      - destruct (RelaxedBayesMIHM.index_main_weight s) as [w|]; [|discriminate].
        cbn in Eimw. injection Eimw as Ew1 Ew2.
        destruct (index_main_total pidx w t2
                    (nrows x) (last (a_hidden_layer_sizes a) 0))
          as (u & epi & Hu & Hepi & Hen & Hec); try assumption.
        exists epi. split; [|auto]. exists w, u. auto. }
    destruct Hepi as (epi & Hepi & Hen & Hec).
    destruct (relaxed_forward_locals_intro s rnd x e c y tr all ct r hidden pidx
                bn' inter imt t pit t1 t2 epi) as (tr' & Hrun);
      try assumption.
    { now rewrite Ec. }
    { now rewrite Esvd. }
    { now rewrite Einc, Eib. }
    { now rewrite Hen. }
    eexists. exists tr'. split; [exact Hrun|]. cbn [predicted_epi]. auto.
Qed.

End ForwardReturns.

(** X9 for the example model of each class, in training mode, on the
    example batch of two observations. *)
Lemma forward_returns_witness :
  (exists L tr',
     forward_locals_of (num := ex_numerics) (Bayes ex_bayes) ex_rnd ex_x ex_e ex_c
       None [] = Ok (L, tr') /\
     forward_of (num := ex_numerics) (Bayes ex_bayes) ex_rnd ex_x ex_e ex_c None []
       = Ok (predicted_epi L, tr') /\
     nrows (predicted_epi L) = nrows ex_x /\
     ncols (predicted_epi L) = last (a_hidden_layer_sizes ex_args) 0) /\
  (exists L tr',
     forward_locals_of (num := ex_numerics) (Relaxed ex_relaxed) ex_rnd ex_x ex_e
       ex_c None [] = Ok (L, tr') /\
     forward_of (num := ex_numerics) (Relaxed ex_relaxed) ex_rnd ex_x ex_e ex_c
       None [] = Ok (predicted_epi L, tr') /\
     nrows (predicted_epi L) = nrows ex_x /\
     ncols (predicted_epi L) = last (a_hidden_layer_sizes ex_args) 0).
Proof.
  assert (Hb : is_model ex_args (Bayes ex_bayes))
    by (exists ex_init, ex_bayes; split; vm_compute; reflexivity).
  assert (Hr : is_model ex_args (Relaxed ex_relaxed))
    by (exists ex_init, ex_relaxed; split; vm_compute; reflexivity).
  assert (Hne : a_hidden_layer_sizes ex_args <> []) by discriminate.
  assert (Hacc : index_accepts ex_args ex_x) by reflexivity.
  assert (Hctl : control_accepts ex_args ex_x ex_c) by reflexivity.
  assert (Hrows : nrows ex_x <> 0) by discriminate.
  split.
  - refine (@forward_returns ex_numerics ex_args (Bayes ex_bayes) ex_rnd ex_x ex_e
              ex_c None [] Hb Hne Hacc Hctl Hrows eq_refl eq_refl _ eq_refl).
    intros _. split; [reflexivity|]. intros _. discriminate.
  - refine (@forward_returns ex_numerics ex_args (Relaxed ex_relaxed) ex_rnd ex_x
              ex_e ex_c None [] Hr Hne Hacc Hctl Hrows eq_refl eq_refl _ eq_refl).
    intros _. split; [reflexivity|]. intros _. discriminate.
Defined.

(* ================================================================== *)
(** ** The normalised index of a training batch *)

Section CentredIndex.
Context {num : Numerics}.

Lemma qsum_acc l : forall acc,
  (fold_left Qplus l acc == acc + fold_left Qplus l 0)%Q.
Proof.
  induction l as [|q l IH]; intros acc; cbn [fold_left].
  - ring.
  - rewrite IH, (IH (0 + q)%Q). ring.
Qed.

Lemma qsum_snoc l q : (qsum (l ++ [q]) == qsum l + q)%Q.
Proof. unfold qsum. rewrite fold_left_app. cbn [fold_left]. reflexivity. Qed.

Lemma tabulate_S A n (f : nat -> A) : tabulate (S n) f = tabulate n f ++ [f n].
Proof. unfold tabulate. now rewrite seq_S, map_app. Qed.

(** The deviations from [m], each divided by [s], add up to the sum less
    [n] times [m], divided by [s]. *)
Lemma qsum_deviations n (f : nat -> Q) (m s : Q) :
  (qsum (tabulate n (fun i => (f i - m) / s))
   == (qsum (tabulate n f) - inject_Z (Z.of_nat n) * m) / s)%Q.
Proof.
  induction n as [|n IH].
  - cbn. unfold Qdiv. ring.
  - rewrite !tabulate_S, !qsum_snoc, IH.
    rewrite Nat2Z.inj_succ. unfold Z.succ. rewrite inject_Z_plus.
    unfold Qdiv. ring.
Qed.

Lemma centred_column n (f : nat -> Q) (s : Q) :
  n <> 0 ->
  (qsum (tabulate n (fun i =>
           (f i - qsum (tabulate n f) / inject_Z (Z.of_nat n)) / s)) == 0)%Q.
Proof.
  intros Hn. rewrite qsum_deviations.
  assert (Hz : ~ (inject_Z (Z.of_nat n) == 0)%Q).
  { intros H. apply Hn. unfold Qeq in H. cbn in H. lia. }
  rewrite Qmult_div_r by exact Hz. unfold Qdiv. ring.
Qed.

Lemma BatchNorm1d_training_centred b x t b' j :
  BatchNorm1d_forward b true x = Ok (t, b') ->
  nrows t <> 0 -> j < ncols t ->
  (qsum (column t j) == 0)%Q.
Proof.
  unfold BatchNorm1d_forward. cbn [andb].
  destruct (nrows x =? 1); [discriminate|].
  destruct (Nat.eqb_spec (numel x) 0) as [Hz|Hz].
  - intros [= <- _] Hr Hj. unfold numel in Hz. nia.
  - destruct (negb (ncols x =? num_features b)); [discriminate|].
    intros [= <- _]. rewrite nrows_build, ncols_build. intros Hr Hj.
    unfold column. rewrite nrows_build.
    transitivity
      (qsum (tabulate (nrows x) (fun i =>
         (entry x i j
          - qsum (tabulate (nrows x) (fun i => entry x i j))
            / inject_Z (Z.of_nat (nrows x)))
         / sqrt (sq_dev (tabulate (nrows x) (fun i0 => entry x i0 j))
                 / qlen (tabulate (nrows x) (fun i0 => entry x i0 j))
                 + eps b)))%Q).
    + match goal with
      | |- (qsum ?l == qsum ?l')%Q => assert (E : l = l'); [|now rewrite E]
      end.
      apply tabulate_ext. intros i Hi. rewrite entry_build by assumption.
      unfold mean, column, qlen. now rewrite length_tabulate.
    + apply centred_column. exact Hr.
Qed.

(** X10.  In training mode and with output normalisation, the index that
    [forward] uses is centred on the batch: the values of each of its
    columns add up to zero over the observations. *)
Theorem training_index_is_centred (m : model) (rnd : randomness) (x : tensor)
    (e : list Q) (c : tensor) (y : option tensor) (tr : list site)
    (L : locals) (tr' : list site) (j : nat) :
  training_of m = true -> batch_norm_of m = true ->
  forward_locals_of m rnd x e c y tr = Ok (L, tr') ->
  j < ncols (predicted_index L) ->
  (qsum (column (predicted_index L) j) == 0)%Q.
Proof.
  destruct m as [s|s]; cbn [training_of batch_norm_of forward_locals_of];
    intros Ht Hb H Hj.
  - pose proof (bayes_index_rows _ _ _ _ _ _ _ _ _ H) as Hr.
    apply bayes_forward_locals_inv in H.
    destruct H as (_ & _ & _ & (hidden & _ & Hbn) & _).
    rewrite Hb in Hbn. destruct Hbn as (b & b' & _ & Hf & _). rewrite Ht in Hf.
    exact (BatchNorm1d_training_centred _ _ _ _ _ Hf Hr Hj).
  - pose proof (relaxed_index_rows _ _ _ _ _ _ _ _ _ H) as Hr.
    apply relaxed_forward_locals_inv in H.
    destruct H as (_ & _ & _ & (hidden & _ & Hbn) & _).
    rewrite Hb in Hbn. destruct Hbn as (b & b' & _ & Hf & _). rewrite Ht in Hf.
    exact (BatchNorm1d_training_centred _ _ _ _ _ Hf Hr Hj).
Qed.

End CentredIndex.

(** X10 for the example model on the example batch. *)
Lemma training_index_is_centred_witness :
  exists L tr',
    forward_locals_of (num := ex_numerics) (Bayes ex_bayes) ex_rnd ex_x ex_e ex_c
      None [] = Ok (L, tr') /\
    (qsum (column (predicted_index L) 0) == 0)%Q.
Proof.
  eassert (Hrun : forward_locals_of (num := ex_numerics) (Bayes ex_bayes) ex_rnd
                    ex_x ex_e ex_c None [] = Ok (_, _))
    by (vm_compute; reflexivity).
  eexists. eexists. split; [exact Hrun|].
  refine (@training_index_is_centred ex_numerics (Bayes ex_bayes) ex_rnd ex_x
            ex_e ex_c None [] _ _ 0 eq_refl eq_refl Hrun _).
  vm_compute. reflexivity.
Defined.

(* ================================================================== *)
(** ** The external calls of [evaluate_significance] *)

Section ExternalCalls.
Import Eval.
Context {E : Externals}.

Lemma is_prefix_refl A (l : list A) : is_prefix l l.
Proof. exists []. now rewrite app_nil_r. Qed.

Lemma is_prefix_nil A (l : list A) : is_prefix [] l.
Proof. now exists l. Qed.

Lemma is_prefix_app A (l l1 l2 : list A) :
  is_prefix l l1 -> is_prefix l (l1 ++ l2).
Proof. intros [rest ->]. exists (rest ++ l2). now rewrite app_assoc. Qed.

Lemma is_prefix_cons A (l1 l l2 : list A) :
  is_prefix l l2 -> is_prefix (l1 ++ l) (l1 ++ l2).
Proof. intros [rest ->]. exists rest. now rewrite app_assoc. Qed.

Lemma emits_bind A B (c : W A) (k : A -> W B) l1 l2 :
  emits c l1 -> (forall a, emits (k a) l2) -> emits (wbind c k) (l1 ++ l2).
Proof.
  intros Hc Hk w r w'. unfold wbind.
  destruct (c w) as [[a|e] w1] eqn:Ec.
  - destruct (Hc _ _ _ Ec) as (Hh1 & new1 & Hl1 & _ & Hfull).
    specialize (Hfull a eq_refl). subst new1.
    intros H. destruct (Hk a _ _ _ H) as (Hh2 & new2 & Hl2 & Hp2 & Hfull2).
    split; [congruence|]. exists (l1 ++ new2).
    split; [now rewrite Hl2, Hl1, app_assoc|].
    split; [now apply is_prefix_cons|].
    intros v Hv. now rewrite (Hfull2 v Hv).
  - intros [= <- <-].
    destruct (Hc _ _ _ Ec) as (Hh1 & new1 & Hl1 & Hp1 & _).
    split; [exact Hh1|]. exists new1. split; [exact Hl1|].
    split; [now apply is_prefix_app|]. discriminate.
Qed.

Lemma emits_run cmd : emits (run cmd) [StataRun cmd].
Proof.
  intros w r w'. unfold run. destruct (stata_run (outside w) cmd) as [r0 o].
  intros [= <- <-]. split; [reflexivity|]. exists [StataRun cmd].
  split; [reflexivity|]. split; [apply is_prefix_refl|]. reflexivity.
Qed.

Lemma emits_listdir dir : emits (listdir dir) [Listdir dir].
Proof.
  intros w r w'. unfold listdir. destruct (os_listdir (outside w) dir) as [r0 o].
  intros [= <- <-]. split; [reflexivity|]. exists [Listdir dir].
  split; [reflexivity|]. split; [apply is_prefix_refl|]. reflexivity.
Qed.

Lemma emits_silent A (c : W A) :
  (forall w, snd (c w) = w) -> emits c [].
Proof.
  intros Hs w r w' H. pose proof (Hs w) as Hw. rewrite H in Hw. cbn in Hw.
  subst w'. split; [reflexivity|]. exists [].
  split; [now rewrite app_nil_r|]. split; [apply is_prefix_refl|]. reflexivity.
Qed.

Lemma emits_lift A (c : result A) : emits (wlift c) [].
Proof. apply emits_silent. reflexivity. Qed.

Lemma emits_ret A (a : A) : emits (wret a) [].
Proof. apply emits_silent. reflexivity. Qed.

Lemma emits_get_return : emits get_return [].
Proof. apply emits_silent. reflexivity. Qed.

Ltac emits_steps :=
  repeat first [ apply emits_run | apply emits_lift | apply emits_ret
               | apply emits_get_return | apply emits_listdir
               | eapply emits_bind; [|intros ?] ].

(** What follows the write in [evaluate_significance]. *)
Lemma emits_significance_tail path (k : W (Q * (stata_value * stata_value))) :
  k = (wbind (run ("use " ++ path ++ ", clear")) (fun _ =>
       wbind (run regress_cmd) (fun _ =>
       wbind get_return (fun regression_results =>
       wbind (wlift (t <- getitem "r(table)" regression_results ;;
                     index2 t 3 1)%res) (fun interaction_pval =>
       wbind (run "vif") (fun _ =>
       wbind get_return (fun vif_results =>
       wbind (wlift (getitem "r(vif_1)" vif_results)) (fun vif_heat =>
       wbind (wlift (getitem "r(vif_2)" vif_results)) (fun vif_inter =>
       wret (interaction_pval, (vif_heat, vif_inter))))))))))) ->
  emits k [StataRun ("use " ++ path ++ ", clear"); StataRun regress_cmd;
           StataRun "vif"].
Proof.
  intros ->.
  assert (H : exists l,
            emits (wbind (run ("use " ++ path ++ ", clear")) (fun _ =>
                   wbind (run regress_cmd) (fun _ =>
                   wbind get_return (fun regression_results =>
                   wbind (wlift (t <- getitem "r(table)" regression_results ;;
                                 index2 t 3 1)%res) (fun interaction_pval =>
                   wbind (run "vif") (fun _ =>
                   wbind get_return (fun vif_results =>
                   wbind (wlift (getitem "r(vif_1)" vif_results)) (fun vif_heat =>
                   wbind (wlift (getitem "r(vif_2)" vif_results)) (fun vif_inter =>
                   wret (interaction_pval, (vif_heat, vif_inter)))))))))))
              l /\
            l = [StataRun ("use " ++ path ++ ", clear"); StataRun regress_cmd;
                 StataRun "vif"]).
  { eexists. split; [emits_steps|]. reflexivity. }
  destruct H as (l & Hl & ->). exact Hl.
Qed.


Lemma emits_save_path save_dir id :
  emits (save_path_of save_dir id)
    (match id with Some _ => [] | None => [Listdir save_dir] end).
Proof.
  unfold save_path_of. destruct id as [i|].
  - apply emits_ret.
  - change [Listdir save_dir] with ([Listdir save_dir] ++ []).
    apply emits_bind; [apply emits_listdir|]. intros names. apply emits_ret.
Qed.

(** X11.  The external calls of [evaluate_significance] are, in this
    order: the listing of the save directory (only when no id is given),
    the write of the frame to the file, and the Stata commands that load
    the file, regress and compute the variance inflation factors.  A call
    that returns has made all of them, and the frame it wrote is the
    caller's frame as the call leaves it; a call that raises has made an
    initial segment of them, so Stata is never run before the file is
    written, and nothing else is ever called. *)
Theorem evaluate_significance_calls (df_orig : nat) (preds : list cell)
    (save_dir : string) (id : option string) (w : world)
    (r : result (Q * (stata_value * stata_value))) (w' : world) :
  evaluate_significance df_orig preds save_dir id w = (r, w') ->
  exists new path d',
    log w' = log w ++ new /\
    is_prefix new
      ((match id with Some _ => [] | None => [Listdir save_dir] end)
       ++ significance_calls path d') /\
    (forall v, r = Ok v ->
       new = (match id with Some _ => [] | None => [Listdir save_dir] end)
             ++ significance_calls path d' /\
       nth_error (heap w') df_orig = Some d').
Proof.
  unfold evaluate_significance. unfold wbind at 1.
  destruct (save_path_of save_dir id w) as [[path|e] w1] eqn:Hp.
  2:{ intros [= <- <-].
      destruct (emits_save_path _ _ _ _ _ Hp) as (_ & new & Hl & Hpre & _).
      exists new, EmptyString, (mkDF 0 []). split; [exact Hl|].
      split; [now apply is_prefix_app|]. discriminate. }
  destruct (emits_save_path _ _ _ _ _ Hp) as (Hh1 & new1 & Hl1 & _ & Hfull1).
  specialize (Hfull1 _ eq_refl). subst new1.
  unfold wbind at 1.
  destruct (setitem df_orig "vul_index" preds w1) as [[u|e] w2] eqn:Hs.
  2:{ intros [= <- <-].
      assert (Hw : log w2 = log w1).
      { unfold setitem in Hs.
        destruct (nth_error (heap w1) df_orig) as [d|];
          [destruct (assign d "vul_index" preds)|]; try discriminate;
          now injection Hs as _ <-. }
      eexists. exists path, (mkDF 0 []). split; [rewrite Hw; exact Hl1|].
      split; [apply is_prefix_app, is_prefix_refl|]. discriminate. }
  destruct (setitem_ok _ _ _ _ _ _ Hs) as (d & d' & Hd & Ha & ->).
  unfold wbind at 1.
  destruct (DataFrame_to_stata df_orig path _) as [[u'|e] w3] eqn:Ht.
  2:{ intros [= <- <-]. unfold DataFrame_to_stata in Ht. cbn [heap outside log] in Ht.
      rewrite (nth_error_update_same _ _ _ _ _ Hd) in Ht.
      destruct (to_stata (outside w1) path d') as [r0 o]. injection Ht as -> <-.
      cbn [log]. exists (match id with Some _ => [] | None => [Listdir save_dir] end
                         ++ [ToStata path d']), path, d'.
      split; [now rewrite Hl1, app_assoc|].
      split; [|discriminate]. apply is_prefix_cons.
      now exists [StataRun ("use " ++ path ++ ", clear"); StataRun regress_cmd;
                  StataRun "vif"]. }
  destruct (to_stata_ok _ _ _ _ _ Ht) as (d2 & Hd2 & Hh3 & Hl3).
  cbn [heap log] in Hd2, Hh3, Hl3.
  rewrite (nth_error_update_same _ _ _ _ _ Hd) in Hd2. injection Hd2 as <-.
  intros H.
  destruct (emits_significance_tail path _ eq_refl _ _ _ H)
    as (Hh4 & new4 & Hl4 & Hpre4 & Hfull4).
  exists (match id with Some _ => [] | None => [Listdir save_dir] end
          ++ ToStata path d' :: new4), path, d'.
  split; [rewrite Hl4, Hl3, Hl1, <- !app_assoc; reflexivity|].
  split.
  - apply is_prefix_cons. unfold significance_calls.
    change (ToStata path d' :: new4) with ([ToStata path d'] ++ new4).
    now apply (is_prefix_cons _ [ToStata path d']).
  - intros v Hv. rewrite (Hfull4 v Hv). split; [reflexivity|].
    rewrite Hh4, Hh3. exact (nth_error_update_same _ _ _ _ _ Hd).
Qed.

(** X12.  When the frame has rows and the index predictions are not as
    many, [evaluate_significance] raises [ValueError] (the directory having
    been listed when no id is given): nothing is written, Stata is not run
    and the caller's frame is as it was. *)
Theorem evaluate_significance_length_mismatch (df_orig : nat) (preds : list cell)
    (save_dir : string) (id : option string) (w : world) (d : DataFrame) :
  nth_error (heap w) df_orig = Some d ->
  index_len d <> 0 ->
  length preds <> index_len d ->
  (id = None -> exists names, fst (os_listdir (outside w) save_dir) = Ok names) ->
  exists w',
    evaluate_significance df_orig preds save_dir id w = (Raise ValueError, w') /\
    heap w' = heap w /\
    log w' = log w ++ match id with Some _ => [] | None => [Listdir save_dir] end.
Proof.
  intros Hd Hz Hlen Hlist.
  assert (Ha : assign d "vul_index" preds = Raise ValueError).
  { unfold assign.
    destruct (Nat.eqb_spec (index_len d) 0); [contradiction|]. cbn [andb].
    destruct (Nat.eqb_spec (length preds) (index_len d)); [contradiction|].
    reflexivity. }
  unfold evaluate_significance, wbind, save_path_of, setitem.
  destruct id as [i|].
  - unfold wret. rewrite Hd, Ha. exists w. rewrite app_nil_r. auto.
  - destruct (Hlist eq_refl) as (names & Hn). unfold wbind, listdir, wret.
    destruct (os_listdir (outside w) save_dir) as [r0 o]. cbn in Hn. subst r0.
    cbn [heap]. rewrite Hd, Ha. eexists. split; [reflexivity|]. auto.
Qed.

End ExternalCalls.

(** X11 for the example frame, directory and Stata session. *)
Lemma evaluate_significance_calls_witness :
  exists v w' new path d',
    @Eval.evaluate_significance ex_externals 0 ex_predictions "temp" None
      ex_world = (Ok v, w') /\
    Eval.log w' = Eval.log ex_world ++ new /\
    is_prefix new ([Eval.Listdir "temp"] ++ significance_calls path d') /\
    (forall v', Ok v = Ok v' ->
       new = [Eval.Listdir "temp"] ++ significance_calls path d' /\
       nth_error (Eval.heap w') 0 = Some d').
Proof.
  eassert (Hrun : @Eval.evaluate_significance ex_externals 0 ex_predictions
                    "temp" None ex_world = (Ok _, _))
    by (vm_compute; reflexivity).
  destruct (@evaluate_significance_calls ex_externals 0 ex_predictions
              "temp"%string None ex_world _ _ Hrun) as (new & path & d' & H).
  eexists. eexists. exists new, path, d'. split; [exact Hrun|exact H].
Defined.

(** X12 for the example frame of two rows and three predictions. *)
Lemma evaluate_significance_length_mismatch_witness :
  exists w',
    @Eval.evaluate_significance ex_externals 0
      [Eval.Num 1; Eval.Num 2; Eval.Num 3] "temp" None ex_world
      = (Raise ValueError, w') /\
    Eval.heap w' = Eval.heap ex_world /\
    Eval.log w' = Eval.log ex_world ++ [Eval.Listdir "temp"].
Proof.
  refine (@evaluate_significance_length_mismatch ex_externals 0
            [Eval.Num 1; Eval.Num 2; Eval.Num 3] "temp"%string None ex_world _
            eq_refl _ _ _).
  - discriminate.
  - discriminate.
  - intros _. eexists. reflexivity.
Defined.

(* ================================================================== *)
(** ** draw_margins_plot *)

Section MarginsPlot.
Import Eval EvalPlots.
Context {E : Externals}.

Lemma run_spec cmd w :
  run cmd w = (fst (stata_run (outside w) cmd),
               mkWorld (heap w) (snd (stata_run (outside w) cmd))
                 (log w ++ [StataRun cmd])).
Proof. unfold run. now destruct (stata_run (outside w) cmd). Qed.

Lemma listdir_spec dir w :
  listdir dir w = (fst (os_listdir (outside w) dir),
                   mkWorld (heap w) (snd (os_listdir (outside w) dir))
                     (log w ++ [Listdir dir])).
Proof. unfold listdir. now destruct (os_listdir (outside w) dir). Qed.

(** X13.  [draw_margins_plot] runs, in this order, the Stata commands that
    load the data, compute the margins and draw them, lists the figure
    directory (only when no id is given) and runs the export command, whose
    file is named after the id or after the number of entries of the
    directory whose name contains "margins_plot".  A call that returns has
    made all of these calls; a call that raises has made an initial segment
    of them, and when loading the data fails nothing else is run.  No
    dataframe is touched. *)
Theorem draw_margins_plot_calls (data_path fig_dir : string) (id : option string)
    (w : world) (r : result unit) (w' : world) :
  draw_margins_plot data_path fig_dir id w = (r, w') ->
  heap w' = heap w /\
  exists new n,
    log w' = log w ++ new /\
    is_prefix new
      (map StataRun (margins_commands data_path)
       ++ match id with
          | Some i => [StataRun (save_graph_cmd_of fig_dir i)]
          | None => [Listdir fig_dir;
                     StataRun (save_graph_cmd_of fig_dir (str n))]
          end) /\
    (forall u, r = Ok u ->
       new = map StataRun (margins_commands data_path)
             ++ match id with
                | Some i => [StataRun (save_graph_cmd_of fig_dir i)]
                | None => [Listdir fig_dir;
                           StataRun (save_graph_cmd_of fig_dir (str n))]
                end /\
       (id = None ->
        exists names,
          fst (os_listdir (after_runs (margins_commands data_path) (outside w))
                 fig_dir) = Ok names /\
          n = length (filter (contains "margins_plot") names))) /\
    (forall e,
       fst (stata_run (outside w) ("use " ++ data_path ++ ", clear")) = Raise e ->
       r = Raise e /\ new = [StataRun ("use " ++ data_path ++ ", clear")]).
Proof.
  unfold draw_margins_plot, margins_commands, after_runs. cbn [map fold_left].
  set (c1 := ("use " ++ data_path ++ ", clear")%string).
  unfold wbind at 1. rewrite run_spec.
  destruct (fst (stata_run (outside w) c1)) as [u1|e1] eqn:E1.
  2:{ intros [= <- <-]. split; [reflexivity|]. exists [StataRun c1], 0.
      split; [reflexivity|]. split; [eexists; reflexivity|].
      split; [discriminate|]. intros e [= <-]. auto. }
  unfold wbind at 1. rewrite run_spec. cbn [heap outside log].
  set (o1 := snd (stata_run (outside w) c1)).
  destruct (fst (stata_run o1 margins_cmd)) as [u2|e2] eqn:E2.
  2:{ intros [= <- <-]. split; [reflexivity|].
      exists [StataRun c1; StataRun margins_cmd], 0.
      split; [now rewrite <- app_assoc|]. split; [eexists; reflexivity|].
      split; discriminate. }
  unfold wbind at 1. rewrite run_spec. cbn [heap outside log].
  set (o2 := snd (stata_run o1 margins_cmd)).
  destruct (fst (stata_run o2 margins_plt_cmd)) as [u3|e3] eqn:E3.
  2:{ intros [= <- <-]. split; [reflexivity|].
      exists [StataRun c1; StataRun margins_cmd; StataRun margins_plt_cmd], 0.
      split; [now rewrite <- !app_assoc|]. split; [eexists; reflexivity|].
      split; discriminate. }
  set (o3 := snd (stata_run o2 margins_plt_cmd)).
  destruct id as [i|].
  - unfold wbind, wret. rewrite run_spec. cbn [heap outside log].
    intros [= <- <-]. split; [reflexivity|].
    exists [StataRun c1; StataRun margins_cmd; StataRun margins_plt_cmd;
            StataRun (save_graph_cmd_of fig_dir i)], 0.
    split; [now rewrite <- !app_assoc|]. split; [apply is_prefix_refl|].
    split; [|discriminate]. intros u _. split; [reflexivity|discriminate].
  - unfold wbind at 1. unfold wbind at 1. rewrite listdir_spec.
    cbn [heap outside log].
    destruct (fst (os_listdir o3 fig_dir)) as [names|e4] eqn:E4.
    2:{ intros [= <- <-]. split; [reflexivity|].
        exists [StataRun c1; StataRun margins_cmd; StataRun margins_plt_cmd;
                Listdir fig_dir], 0.
        split; [now rewrite <- !app_assoc|]. split; [eexists; reflexivity|].
        split; discriminate. }
    unfold wret. rewrite run_spec. cbn [heap outside log].
    intros [= <- <-]. split; [reflexivity|].
    exists [StataRun c1; StataRun margins_cmd; StataRun margins_plt_cmd;
            Listdir fig_dir;
            StataRun (save_graph_cmd_of fig_dir
                        (str (length (filter (contains "margins_plot") names))))],
      (length (filter (contains "margins_plot") names)).
    split; [now rewrite <- !app_assoc|]. split; [apply is_prefix_refl|].
    split; [|discriminate]. intros u _. split; [reflexivity|].
    intros _. exists names. auto.
Qed.


Lemma draw_margins_plot_numbered data_path fig_dir w u w' :
  draw_margins_plot data_path fig_dir None w = (Ok u, w') ->
  exists names,
    fst (os_listdir (after_runs (margins_commands data_path) (outside w)) fig_dir)
      = Ok names /\
    log w' = log w ++ map StataRun (margins_commands data_path)
             ++ [Listdir fig_dir;
                 StataRun (save_graph_cmd_of fig_dir
                   (str (length (filter (contains "margins_plot") names))))].
Proof.
  unfold draw_margins_plot, margins_commands, after_runs. cbn [map fold_left].
  intros H.
  apply wbind_ok in H. destruct H as (u1 & w1 & H1 & H).
  apply wbind_ok in H. destruct H as (u2 & w2 & H2 & H).
  apply wbind_ok in H. destruct H as (u3 & w3 & H3 & H).
  apply wbind_ok in H. destruct H as (cmd & w4 & H4 & H).
  apply wbind_ok in H4. destruct H4 as (names & w5 & H5 & H4).
  unfold wret in H4. injection H4 as <- <-.
  rewrite run_spec in H1, H2, H3, H. rewrite listdir_spec in H5.
  injection H1 as _ <-. cbn [heap outside log] in H2.
  injection H2 as _ <-. cbn [heap outside log] in H3.
  injection H3 as _ <-. cbn [heap outside log] in H5.
  injection H5 as Hn <-. cbn [heap outside log] in H.
  injection H as _ <-. cbn [log].
  exists names. split; [exact Hn|]. now rewrite <- !app_assoc.
Qed.

Lemma append_assoc (a b c : string) : ((a ++ b) ++ c = a ++ (b ++ c))%string.
Proof. induction a as [|x a IH]; cbn; [reflexivity|now rewrite IH]. Qed.

Lemma contains_margins_plot_file k :
  contains "margins_plot" (margins_plot_file k) = true.
Proof. reflexivity. Qed.

Lemma margins_plot_file_inj k n : margins_plot_file k = margins_plot_file n -> k = n.
Proof.
  unfold margins_plot_file. intros H. apply str_inj.
  apply append_inj_r in H. now apply append_inj_l in H.
Qed.

(** X14.  Without an id, the plot that [draw_margins_plot] exports does
    not replace a file of the figure directory when the entries of that
    directory whose name contains "margins_plot" are numbered densely, that
    is, each of them is the file of a number below their count: the
    exported file is the one of their count, and it is not in the
    directory.  Entries whose name does not contain "margins_plot" play no
    role. *)
Theorem margins_plot_number_is_fresh (data_path fig_dir : string) (w : world)
    (u : unit) (w' : world) (names : list string) :
  draw_margins_plot data_path fig_dir None w = (Ok u, w') ->
  fst (os_listdir (after_runs (margins_commands data_path) (outside w)) fig_dir)
    = Ok names ->
  (forall f, In f names -> contains "margins_plot" f = true ->
     exists k, k < length (filter (contains "margins_plot") names) /\
               f = margins_plot_file k) ->
  exists n,
    n = length (filter (contains "margins_plot") names) /\
    log w' = log w ++ map StataRun (margins_commands data_path)
             ++ [Listdir fig_dir;
                 StataRun ("graph export " ++ fig_dir ++ "/" ++ margins_plot_file n
                           ++ ", replace")] /\
    ~ In (margins_plot_file n) names.
Proof.
  intros H Hn Hdense.
  destruct (draw_margins_plot_numbered _ _ _ _ _ H) as (names' & Hn' & Hl).
  rewrite Hn in Hn'. injection Hn' as <-.
  exists (length (filter (contains "margins_plot") names)).
  split; [reflexivity|]. split.
  - rewrite Hl. unfold save_graph_cmd_of, margins_plot_file.
    do 6 f_equal. cbn [append]. now rewrite append_assoc.
  - intros Hin.
    destruct (Hdense _ Hin (contains_margins_plot_file _)) as (k & Hk & Heq).
    apply margins_plot_file_inj in Heq. lia.
Qed.

End MarginsPlot.

(** X13 for the example figure directory, without an id. *)
Lemma draw_margins_plot_calls_witness :
  exists w' new n,
    @EvalPlots.draw_margins_plot ex_externals "data.dta" "figs" None ex_fig_world
      = (Ok tt, w') /\
    Eval.heap w' = Eval.heap ex_fig_world /\
    Eval.log w' = Eval.log ex_fig_world ++ new /\
    new = map Eval.StataRun (margins_commands "data.dta")
          ++ [Eval.Listdir "figs";
              Eval.StataRun (EvalPlots.save_graph_cmd_of "figs" (Eval.str n))] /\
    n = 2.
Proof.
  eassert (Hrun : @EvalPlots.draw_margins_plot ex_externals "data.dta" "figs"
                    None ex_fig_world = (Ok tt, _))
    by (vm_compute; reflexivity).
  destruct (@draw_margins_plot_calls ex_externals "data.dta"%string
              "figs"%string None ex_fig_world _ _ Hrun)
    as (Hh & new & n & Hl & _ & Hfull & _).
  destruct (Hfull tt eq_refl) as (Hnew & Hn).
  destruct (Hn eq_refl) as (names & Hnames & Hcount).
  eexists. exists new, n. split; [exact Hrun|].
  split; [exact Hh|]. split; [exact Hl|]. split; [exact Hnew|].
  injection Hnames as <-. exact Hcount.
Defined.

(** X14 for the example figure directory: two plots, numbered 0 and 1, and
    another file. *)
Lemma margins_plot_number_is_fresh_witness :
  exists w' n,
    @EvalPlots.draw_margins_plot ex_externals "data.dta" "figs" None ex_fig_world
      = (Ok tt, w') /\
    n = 2 /\
    Eval.log w'
    = Eval.log ex_fig_world ++ map Eval.StataRun (margins_commands "data.dta")
      ++ [Eval.Listdir "figs";
          Eval.StataRun ("graph export " ++ "figs" ++ "/" ++ margins_plot_file n
                         ++ ", replace")] /\
    ~ In (margins_plot_file n) (Eval.outside ex_fig_world).
Proof.
  eassert (Hrun : @EvalPlots.draw_margins_plot ex_externals "data.dta" "figs"
                    None ex_fig_world = (Ok tt, _))
    by (vm_compute; reflexivity).
  assert (Hdense : forall f, In f (Eval.outside ex_fig_world) ->
            EvalPlots.contains "margins_plot" f = true ->
            exists k,
              k < length (filter (EvalPlots.contains "margins_plot")
                            (Eval.outside ex_fig_world)) /\
              f = margins_plot_file k).
  { intros f [<-|[<-|[<-|[]]]] Hc.
    - exists 0. split; [cbn; lia|reflexivity].
    - discriminate Hc.
    - exists 1. split; [cbn; lia|reflexivity]. }
  destruct (@margins_plot_number_is_fresh ex_externals "data.dta"%string
              "figs"%string ex_fig_world tt _ (Eval.outside ex_fig_world)
              Hrun eq_refl Hdense) as (n & Hn & Hl & Hfresh).
  eexists. exists n. split; [exact Hrun|]. split; [exact Hn|].
  split; [exact Hl|exact Hfresh].
Defined.

(* ================================================================== *)
(** ** The search driver when trials did not report *)

Section SearchOutcomes.
Import Search.

Lemma best_trial_none m trials :
  (forall t, In t trials -> metric_last m t = None) ->
  get_best_trial_min_last m trials = None.
Proof.
  intros Hnone.
  pose proof (best_trial_fold m trials None []) as H.
  cbn [app] in H. specialize (H (fun t (Hin : In t []) => match Hin with end)).
  fold (get_best_trial_min_last m trials) in H.
  destruct (get_best_trial_min_last m trials) as [b|]; [|reflexivity].
  destruct H as (Hin & bm & Hbm & _). rewrite (Hnone b Hin) in Hbm. discriminate.
Qed.

(** X15.  When the search has run more than one trial (the script asks
    for 10) or none, and no trial has reported the composite metric, there
    is no best trial and the script raises [AttributeError] at its first
    statement after the search: it prints nothing and saves no model. *)
Theorem search_without_reports (trials : list Trial) :
  length trials <> 1 ->
  (forall t, In t trials -> metric_last "composite_metric" t = None) ->
  get_best_trial_min_last "composite_metric" trials = None /\
  main_after_run trials = Raise AttributeError.
Proof.
  intros _ Hnone. unfold main_after_run.
  rewrite (best_trial_none _ _ Hnone). split; reflexivity.
Qed.

End SearchOutcomes.

(** X15 for two trials that stopped before their first report of the
    metric. *)
Lemma search_without_reports_witness :
  Search.main_after_run
    [Search.mkTrial 0 [("layer1"%string, 10%Q)] [] None;
     Search.mkTrial 1 [("layer1"%string, 20%Q)]
       [[("training_iteration"%string, 1%Q)]] None]
  = Raise AttributeError.
Proof.
  refine (proj2 (search_without_reports _ _ _)).
  - cbn. discriminate.
  - intros t [<-|[<-|[]]]; reflexivity.
Defined.

(* ================================================================== *)
(** ** Exposures below the threshold, and the outcome passed to [forward] *)

Section ThresholdAndOutcome.
Context {num : Numerics}.

(** X16.  In [BayesMIHM.forward] with the threshold bias, an observation
    whose exposure does not exceed the sampled threshold gets a predicted
    outcome without interaction term and without exposure main effect: the
    controlled term, plus the index times the index main weight when the
    model does not concatenate. *)
Theorem exposure_below_threshold (a : args) (s : BayesMIHM.self)
    (rnd : randomness) (x : tensor) (e : list Q) (c : tensor)
    (y : option tensor) (tr : list site) (L : locals) (tr' : list site)
    (i j : nat) :
  bayes_model a s ->
  a_include_interactor_bias a = true ->
  BayesMIHM.forward_locals s rnd x e c y tr = Ok (L, tr') ->
  i < nrows (predicted_epi L) -> j < ncols (predicted_epi L) ->
  i < length e ->
  (nth i e 0 <= draw rnd "interactor_bias" 0)%Q ->
  (entry (predicted_epi L) i j
   == bread (controlled_term L) i j
      + (if a_concatenate_interaction_vars a then 0
         else bread (predicted_index L) i j * draw rnd "index_main_weight" 0))%Q.
Proof.
  intros Hm Hinc H Hi Hj Hie Hle.
  rewrite (bayes_outcome_entries a s rnd x e c y tr L tr' i j Hm H Hi Hj).
  pose proof (interactor_of_model a (Bayes s) rnd x e c y tr L tr' Hm H) as Hspec.
  rewrite Hinc in Hspec. destruct Hspec as (pr & d & [= <-] & Hd & Ht).
  destruct (thresholded_exposure _ _ _ _ _ _ Hd Ht) as (Hn & Hc & Hent).
  assert (Hz : (bread (interactor L) i j == 0)%Q).
  { unfold bread. rewrite Hn, Hc. change (bidx 1 j) with 0.
    rewrite (bidx_lt _ _ Hie), (Hent i Hie).
    apply Q.max_l. apply Qle_minus_iff. apply Qle_minus_iff in Hle.
    setoid_replace (0 + - (nth i e 0 - draw rnd "interactor_bias" 0))%Q
      with (draw rnd "interactor_bias" 0 + - nth i e 0)%Q by ring.
    exact Hle. }
  destruct (a_concatenate_interaction_vars a); rewrite Hz; ring.
Qed.

Lemma bind_marks_obs A B (f : locals -> B) y (c : M A) (k k' : A -> M (B)) tr :
  (forall a tr1, marks_obs f y (k a tr1) (k' a tr1)) ->
  marks_obs f y (bind c k tr) (bind c k' tr).
Proof.
  intros H. unfold bind. destruct (c tr) as [[a tr1]|]; [apply H|reflexivity].
Qed.

Lemma likelihood_marks_obs rnd y (L : locals) tr :
  marks_obs (fun l => l) y
    ((_ <- sample rnd "obs" (NormalT (predicted_epi L) (sigma L)) y
             [("data"%string, nrows (predicted_epi L))] ;;
      ret L)%pyro tr)
    ((_ <- sample rnd "obs" (NormalT (predicted_epi L) (sigma L)) None
             [("data"%string, nrows (predicted_epi L))] ;;
      ret L)%pyro tr).
Proof.
  unfold marks_obs, bind, sample, ret. exists L, tr.
  split; [reflexivity|]. split; [reflexivity|].
  destruct y; reflexivity.
Qed.

Lemma forward_locals_marks_obs m rnd x e c y tr :
  marks_obs (fun l => l) y (forward_locals_of m rnd x e c y tr)
    (forward_locals_of m rnd x e c None tr).
Proof.
  destruct m as [s|s]; cbn [forward_locals_of];
    [unfold BayesMIHM.forward_locals|unfold RelaxedBayesMIHM.forward_locals];
    repeat (apply bind_marks_obs; intros ? ?);
    repeat match goal with
           | |- context [let '(_, _) := ?p in _] => destruct p
           end;
    repeat (apply bind_marks_obs; intros ? ?);
    match goal with
    | |- marks_obs _ _ (bind _ (fun _ => ret ?l) _) _ =>
        exact (likelihood_marks_obs rnd y l _)
    end.
Qed.

(** X17.  The outcome [y] given to [forward] changes nothing but the mark
    of the last site: a call with [y] and the same call without it raise
    the same exception, or compute the same local values, return the same
    predicted outcome and register the same sites, the last of which is
    the site "obs", observed exactly when [y] was given. *)
Theorem forward_ignores_given_outcome (m : model) (rnd : randomness)
    (x : tensor) (e : list Q) (c : tensor) (y : option tensor)
    (tr : list site) :
  marks_obs (fun L => L) y (forward_locals_of m rnd x e c y tr)
    (forward_locals_of m rnd x e c None tr) /\
  marks_obs predicted_epi y (forward_of m rnd x e c y tr)
    (forward_of m rnd x e c None tr) /\
  rmap fst (forward_locals_of m rnd x e c y tr)
    = rmap fst (forward_locals_of m rnd x e c None tr) /\
  rmap fst (forward_of m rnd x e c y tr)
    = rmap fst (forward_of m rnd x e c None tr).
Proof.
  pose proof (forward_locals_marks_obs m rnd x e c y tr) as H.
  rewrite !forward_of_locals. unfold marks_obs in *.
  destruct (forward_locals_of m rnd x e c None tr) as [[L tr']|err].
  - destruct H as (L' & tr0 & <- & -> & ->). cbn [rmap fst].
    repeat split; eauto 6.
  - rewrite H. repeat split.
Qed.

End ThresholdAndOutcome.

(** X16 for the second observation of the example batch: exposure 1,
    threshold 2. *)
Lemma exposure_below_threshold_witness :
  exists L tr',
    BayesMIHM.forward_locals (num := ex_numerics) ex_bayes ex_rnd ex_x ex_e ex_c
      None [] = Ok (L, tr') /\
    (entry (predicted_epi L) 1 0
     == bread (controlled_term L) 1 0
        + bread (predicted_index L) 1 0 * draw ex_rnd "index_main_weight" 0)%Q.
Proof.
  assert (Hm : bayes_model ex_args ex_bayes)
    by (exists ex_init, ex_bayes; split; vm_compute; reflexivity).
  eassert (Hrun : BayesMIHM.forward_locals (num := ex_numerics) ex_bayes ex_rnd
                    ex_x ex_e ex_c None [] = Ok (_, _))
    by (vm_compute; reflexivity).
  eexists. eexists. split; [exact Hrun|].
  refine (@exposure_below_threshold ex_numerics ex_args ex_bayes ex_rnd ex_x ex_e
            ex_c None [] _ _ 1 0 Hm eq_refl Hrun _ _ _ _).
  - vm_compute. reflexivity.
  - vm_compute. reflexivity.
  - vm_compute. reflexivity.
  - vm_compute. discriminate.
Defined.
